(** * pkasolver: conjugate generation, site enumeration, graph encoding
      and the micro-speciation search

    A shallow embedding of the core of [pkasolver]
    ([chem.py], [query.py], [data.py], [constants.py]).

    - Molecules are RDKit objects that the Python code copies, aliases and
      mutates in place.  They live in a store (a list of molecules); Python
      variables hold references (positions in the store).  The code is
      written in a small state and exception monad [M].
    - pKa and pH values are Python floats ([float]): NaN, an infinity, or
      a number, kept as the rational it stands for.  The comparisons are
      Python's, false as soon as one side is NaN.
    - What lies outside the repository's sources is a variable of the
      section that uses it: RDKit's valence bookkeeping behind
      [UpdatePropertyCache] and its substructure search, the five-argument
      pair encoder that [match_pka] calls, the trained model behind
      [predict], numpy's [np.round], and [run_with_mol_list] of
      dimorphite_dl.  The encoder, the model and dimorphite return a value
      or raise; the others always return.
      RDKit's getters are record fields.
    - The tensors of [data.py] are kept as the nested lists they are packed
      from; packing fails where numpy refuses (a ragged list, an empty list
      of edges).
    - The first part holds the definitions: the embedded functions in the
      order of the sources, then the summaries the statements are written
      with and the molecules of the worked examples, then the utilities
      around the core (slicing and splitting of data sets, fingerprints,
      feature dictionaries, data set assembly, writing of query results).
      The second part holds the proofs, those for the utilities last. *)

From Stdlib Require Import QArith Qround Lqa String Sorted.
From stdpp Require Import base option list numbers.

Open Scope Z_scope.
Open Scope nat_scope.

(** ** Python exceptions *)

Inductive exn : Type :=
| RuntimeError          (* [raise RuntimeError()] in the repository *)
| RangeError            (* RDKit: [GetAtomWithIdx] past the last atom *)
| AtomValenceException  (* RDKit: strict [UpdatePropertyCache] *)
| AssertionError        (* a failing [assert] *)
| ValueError            (* [max]/[min] of an empty list *)
| IndexError            (* list subscript out of range *)
| KeyError              (* missing dictionary key *)
| TypeError             (* a call with the wrong number of arguments *)
| DanglingRef.          (* a reference outside the store; not reachable from Python *)

Global Instance exn_eq_dec : EqDecision exn.
Proof. solve_decision. Defined.

(** ** Molecules *)

Record Atom : Type := mkAtom {
  AtomicNum : nat;
  FormalCharge : Z;
  NumExplicitHs : nat;
  NumImplicitHs : nat;      (* cached by RDKit *)
  ExplicitValence : nat;    (* cached by RDKit *)
  Degree : nat;
  Hybridization : nat;
  IsAromatic : bool;
  IsInRing : bool
}.

Record Bond : Type := mkBond {
  BeginAtomIdx : nat;
  EndAtomIdx : nat;
  BondTypeAsDouble : Q;
  IsConjugated : bool
}.

Record Mol : Type := mkMol {
  atoms : list Atom;
  bonds : list Bond;
  sssAtoms : option (list nat)   (* the Python attribute [__sssAtoms] *)
}.

Definition TotalNumHs (a : Atom) : nat := NumExplicitHs a + NumImplicitHs a.
Definition TotalValence (a : Atom) : nat := ExplicitValence a + NumImplicitHs a.
Definition TotalDegree (a : Atom) : nat := Degree a + TotalNumHs a.

Definition with_FormalCharge (c : Z) (a : Atom) : Atom :=
  mkAtom (AtomicNum a) c (NumExplicitHs a) (NumImplicitHs a)
         (ExplicitValence a) (Degree a) (Hybridization a) (IsAromatic a) (IsInRing a).

Definition with_NumExplicitHs (n : nat) (a : Atom) : Atom :=
  mkAtom (AtomicNum a) (FormalCharge a) n (NumImplicitHs a)
         (ExplicitValence a) (Degree a) (Hybridization a) (IsAromatic a) (IsInRing a).

Definition with_cache (ev ih : nat) (a : Atom) : Atom :=
  mkAtom (AtomicNum a) (FormalCharge a) (NumExplicitHs a) ih
         ev (Degree a) (Hybridization a) (IsAromatic a) (IsInRing a).

Definition with_atoms (l : list Atom) (m : Mol) : Mol := mkMol l (bonds m) (sssAtoms m).
Definition with_sssAtoms (s : option (list nat)) (m : Mol) : Mol := mkMol (atoms m) (bonds m) s.

(** [alter_atom f i m]: apply [f] to atom [i] of [m] (nothing past the end). *)
Definition alter_atom (f : Atom → Atom) (i : nat) (m : Mol) : Mol :=
  with_atoms (alter f i (atoms m)) m.

(** ** The store and the monad *)

(** References are positions in the store. *)
Abbreviation ref := nat (only parsing).
Abbreviation heap := (list Mol) (only parsing).

Definition M (A : Type) : Type := heap → heap * (exn + A).

Definition ret {A} (x : A) : M A := λ h, (h, inr x).
Definition raise {A} (e : exn) : M A := λ h, (h, inl e).
Definition bind {A B} (c : M A) (k : A → M B) : M B :=
  λ h, match c h with
       | (h', inl e) => (h', inl e)
       | (h', inr x) => k x h'
       end.
(** [try: c except: pass], continuing with [d] *)
Definition try_except {A} (c : M A) (d : M A) : M A :=
  λ h, match c h with
       | (h', inl _) => d h'
       | r => r
       end.

Global Instance M_ret : MRet M := @ret.
Global Instance M_bind : MBind M := λ A B k c, bind c k.

Definition deref (r : ref) : M Mol :=
  λ h, match h !! r with
       | Some m => (h, inr m)
       | None => (h, inl DanglingRef)
       end.

Definition alloc (m : Mol) : M ref := λ h, (h ++ [m], inr (length h)).

Definition modify (r : ref) (f : Mol → Mol) : M unit :=
  λ h, match h !! r with
       | Some m => (<[r := f m]> h, inr tt)
       | None => (h, inl DanglingRef)
       end.

(** ** The RDKit calls used by the repository *)

(** [Chem.RWMol(mol)]: a new editable molecule with the same graph; the new
    Python object starts without attributes of its own. *)
Definition RWMol (r : ref) : M ref :=
  m ← deref r; alloc (with_sssAtoms None m).

(** [copy.deepcopy(mol)]: a new object in the same state *)
Definition deepcopy (r : ref) : M ref :=
  m ← deref r; alloc m.

(** [mol.GetAtomWithIdx(i)], read as a snapshot of the atom's fields *)
Definition GetAtomWithIdx (r : ref) (i : nat) : M Atom :=
  m ← deref r;
  match atoms m !! i with
  | Some a => ret a
  | None => raise RangeError
  end.

Definition SetFormalCharge (r : ref) (i : nat) (c : Z) : M unit :=
  modify r (alter_atom (with_FormalCharge c) i).

Definition SetNumExplicitHs (r : ref) (i : nat) (n : nat) : M unit :=
  modify r (alter_atom (with_NumExplicitHs n) i).

(** [mol.__sssAtoms = l] *)
Definition set_sssAtoms (r : ref) (l : list nat) : M unit :=
  modify r (with_sssAtoms (Some l)).

(** ** Python floats *)

Definition Qlt_bool (x y : Q) : bool := negb (Qle_bool y x).

(** A float is not-a-number, an infinity, or a number, kept as the rational
    it stands for.  The comparisons are those of Python: each of [<], [>]
    and [==] is false as soon as one side is NaN. *)
Inductive float : Type :=
| NaN
| NegInf
| Fin (q : Q)
| PosInf.

(** [x < y]; [x > y] is [flt y x] *)
Definition flt (x y : float) : bool :=
  match x, y with
  | NaN, _ | _, NaN => false
  | _, NegInf => false
  | NegInf, _ => true
  | PosInf, _ => false
  | Fin _, PosInf => true
  | Fin p, Fin q => Qlt_bool p q
  end.

(** [x == y] *)
Definition feq (x y : float) : bool :=
  match x, y with
  | NegInf, NegInf | PosInf, PosInf => true
  | Fin p, Fin q => Qeq_bool p q
  | _, _ => false
  end.

(** ** chem.py *)

Section Chem.

(** RDKit's valence bookkeeping: for atom [i] of a molecule, either the
    valence is not permitted ([None], [UpdatePropertyCache] raises) or the
    recomputed explicit valence and implicit hydrogen count. *)
Variable valence_of : Mol → nat → option (nat * nat).

(** [atom.UpdatePropertyCache()] *)
Definition UpdatePropertyCache (r : ref) (i : nat) : M unit :=
  m ← deref r;
  match valence_of m i with
  | Some (ev, ih) => modify r (alter_atom (with_cache ev ih) i)
  | None => raise AtomValenceException
  end.

(** [create_conjugate(mol, id, pka, pH=7.4)].  Line 28 of [chem.py] reads
    [elif pka > pH and Tot_Hs = 0:], an assignment where Python wants an
    expression; the comparison [Tot_Hs == 0], which the comment above that
    line describes, is what is embedded here. *)
Definition create_conjugate (mol : ref) (id : nat) (pka pH : float) : M ref :=
  mol ← RWMol mol;
  atom ← GetAtomWithIdx mol id;
  let charge := FormalCharge atom in
  let Ex_Hs := NumExplicitHs atom in
  let Tot_Hs := TotalNumHs atom in
  (if (flt pH pka && (0 <? Tot_Hs)) || (0 <? charge)%Z then
     SetFormalCharge mol id (charge - 1) ;;
     if 0 <? Ex_Hs then SetNumExplicitHs mol id (Ex_Hs - 1) else ret tt
   else if flt pka pH && (charge <=? 0)%Z then
     SetFormalCharge mol id (charge + 1) ;;
     if (Tot_Hs =? 0) || (0 <? Ex_Hs) then SetNumExplicitHs mol id (Ex_Hs + 1) else ret tt
   else if flt pH pka && (Tot_Hs =? 0) then
     SetFormalCharge mol id (charge + 1) ;;
     if (Tot_Hs =? 0) || (0 <? Ex_Hs) then SetNumExplicitHs mol id (Ex_Hs + 1) else ret tt
   else raise RuntimeError) ;;
  UpdatePropertyCache mol id ;;
  ret mol.

Definition default_pH : float := Fin (37 # 5).

End Chem.

(** ** query.py: candidate pairs *)

(** A conjugate pair as the tuples of [query.py] carry it:
    (protonated, deprotonated, reaction centre). *)
Abbreviation pair_tuple := (nat * nat * nat)%type (only parsing).

Definition acid_cond (a : Atom) : bool :=
  ((AtomicNum a =? 7) && (FormalCharge a <=? 0)%Z) || (FormalCharge a <? 0)%Z.

Definition base_cond (a : Atom) : bool :=
  (0 <? TotalNumHs a) && (0 <=? FormalCharge a)%Z
  && negb ((AtomicNum a =? 7) && (FormalCharge a =? 0)%Z && (TotalNumHs a =? 1)).

Section Reactions.

Variable valence_of : Mol → nat → option (nat * nat).

(** One turn of the [for match in matches] loop of
    [get_possible_reactions]. *)
Definition reaction_step (mol : ref) (match_ : nat)
    (acc : list pair_tuple * list pair_tuple) : M (list pair_tuple * list pair_tuple) :=
  let '(acid_pairs, base_pairs) := acc in
  set_sssAtoms mol [match_] ;;
  new_mol ← deepcopy mol;
  atom ← GetAtomWithIdx new_mol match_;
  let charge := FormalCharge atom in
  let Ex_Hs := NumExplicitHs atom in
  let Tot_Hs := TotalNumHs atom in
  acid_pairs ←
    (if acid_cond atom then
       try_except
         (SetFormalCharge new_mol match_ (charge + 1) ;;
          (if (Tot_Hs =? 0) || (0 <? Ex_Hs)
           then SetNumExplicitHs new_mol match_ (Ex_Hs + 1) else ret tt) ;;
          UpdatePropertyCache valence_of new_mol match_ ;;
          ret (acid_pairs ++ [(new_mol, mol, match_)]))
         (ret acid_pairs)
     else ret acid_pairs);
  new_mol ← deepcopy mol;
  atom ← GetAtomWithIdx new_mol match_;
  let charge := FormalCharge atom in
  let Ex_Hs := NumExplicitHs atom in
  let Tot_Hs := TotalNumHs atom in
  base_pairs ←
    (if base_cond atom then
       SetFormalCharge new_mol match_ (charge - 1) ;;
       (if 0 <? Ex_Hs then SetNumExplicitHs new_mol match_ (Ex_Hs - 1) else ret tt) ;;
       UpdatePropertyCache valence_of new_mol match_ ;;
       ret (base_pairs ++ [(mol, new_mol, match_)])
     else ret base_pairs);
  ret (acid_pairs, base_pairs).

Fixpoint reaction_loop (mol : ref) (matches : list nat)
    (acc : list pair_tuple * list pair_tuple) : M (list pair_tuple * list pair_tuple) :=
  match matches with
  | [] => ret acc
  | match_ :: rest =>
      acc ← reaction_step mol match_ acc;
      reaction_loop mol rest acc
  end.

(** [get_possible_reactions(mol, matches)] *)
Definition get_possible_reactions (mol : ref) (matches : list nat)
    : M (list pair_tuple * list pair_tuple) :=
  reaction_loop mol matches ([], []).

End Reactions.

(** ** query.py: the ionization-site enumerator *)

(** [len(set(l))] *)
Definition len_set {A} `{EqDecision A} (l : list A) : nat := length (remove_dups l).

(** [get_ionization_indices(mol_lst)] on the molecules the list refers to.
    [atoms_arr] is the numpy array of formal charges, one row per molecule;
    [shape1] its second dimension. *)
Definition get_ionization_indices (mol_lst : list Mol) : exn + list nat :=
  if len_set (map (λ mol, length (atoms mol)) mol_lst) =? 1 then
    let atoms_arr := map (λ mol, map FormalCharge (atoms mol)) mol_lst in
    let shape1 := length (hd [] atoms_arr) in
    inr (fold_left
           (λ ion_idx i,
              if 1 <? len_set (map (λ row, nth i row 0%Z) atoms_arr)
              then ion_idx ++ [i] else ion_idx)
           (seq 0 shape1) [])
  else inl AssertionError.

(** ** query.py: scoring and the two sequence builders *)

(** Python's [max(l)]: the running best is replaced by a later item only
    when [item > best].  The result is one of the objects of the list; it
    is returned with its position, which stands for the object. *)
Definition py_max (l : list float) : exn + (nat * float) :=
  match l with
  | [] => inl ValueError
  | x :: xs =>
      inr (fold_left (λ best item, if flt best.2 item.2 then item else best)
                     (imap (λ j y, (S j, y)) xs) (0, x))
  end.

(** Python's [min(l)]: replaced only when [item < best]. *)
Definition py_min (l : list float) : exn + (nat * float) :=
  match l with
  | [] => inl ValueError
  | x :: xs =>
      inr (fold_left (λ best item, if flt item.2 best.2 then item else best)
                     (imap (λ j y, (S j, y)) xs) (0, x))
  end.

(** [l.index(x)] for an object [x] taken from [l]: the first position whose
    item is [x] itself or equals it ([list.index] tests identity before
    [==]); [i] is the position of the head of [l]. *)
Fixpoint py_index_from (i : nat) (x : nat * float) (l : list float) : exn + nat :=
  match l with
  | [] => inl ValueError
  | y :: ys => if (i =? x.1) || feq y x.2 then inr i else py_index_from (S i) x ys
  end.

Definition py_index (x : nat * float) (l : list float) : exn + nat := py_index_from 0 x l.

(** [l[i]] *)
Definition py_get {A} (l : list A) (i : nat) : exn + A :=
  match l !! i with
  | Some x => inr x
  | None => inl IndexError
  end.

Definition lift {A} (r : exn + A) : M A := λ h, (h, r).

(** [l[-1]] *)
Definition py_last {A} (l : list A) : exn + A :=
  match list.last l with
  | Some x => inr x
  | None => inl IndexError
  end.

(** The state of the search: [mols], [pkas], [atoms]. *)
Abbreviation sequence := (list nat * list float * list nat)%type (only parsing).

Section Search.

Variable valence_of : Mol → nat → option (nat * nat).

(** What [match_pka] calls outside [query.py].

    [paired_mol_data] is the call [mol_to_paired_mol_data(prot, deprot,
    atom_idx, selected_node_features, selected_edge_features)] of line 238.
    [query.py] and the tests pass five arguments; the function of that name
    in [data.py] takes three ([row], [n_features],
    [e_features]) and, called with five, raises [TypeError] before its body
    runs.  The callee is a variable here: it sees the two molecules and the
    reaction centre and returns the encoded pair (of a type [encoded]) or
    raises.

    [predict] is [dataset_to_dataloader] followed by [predict] of
    [pkasolver.ml] with the trained model: the raw predictions for the
    encoded pairs, or an exception.

    [np_round] is numpy's [np.round(a, decimals)] on one entry of the
    array. *)
Variable encoded : Type.
Variable paired_mol_data : Mol → Mol → nat → exn + encoded.
Variable predict : list encoded → exn + list float.
Variable np_round : float → Z → float.

(** The [for] loop of [match_pka] *)
Fixpoint pair_data_loop (pair_tuples : list pair_tuple) (pair_data : list encoded)
    : M (list encoded) :=
  match pair_tuples with
  | [] => ret pair_data
  | (prot, deprot, atom_idx) :: rest =>
      P ← deref prot;
      D ← deref deprot;
      m ← lift (paired_mol_data P D atom_idx);
      pair_data_loop rest (pair_data ++ [m])
  end.

(** [match_pka(pair_tuples, model)] *)
Definition match_pka (pair_tuples : list pair_tuple) : M (list float) :=
  pair_data ← pair_data_loop pair_tuples [];
  raw ← lift (predict pair_data);
  ret (map (λ x, np_round x 3%Z) raw).

(** [acid_sequence(acid_pairs, mols, pkas, atoms)] *)
Definition acid_sequence (acid_pairs : list pair_tuple) (s : sequence) : M sequence :=
  let '(mols, pkas, atoms) := s in
  if 0 <? length acid_pairs then
    acid_pkas ← match_pka acid_pairs;
    pka ← lift (py_max acid_pkas);
    if flt pka.2 (Fin (1 # 2)) then ret (mols, pkas, atoms)
    else
      let pkas := pka.2 :: pkas in
      i ← lift (py_index pka acid_pkas);
      p ← lift (py_get acid_pairs i);
      let mols := p.1.1 :: mols in
      i ← lift (py_index pka acid_pkas);
      p ← lift (py_get acid_pairs i);
      let atoms := p.2 :: atoms in
      ret (mols, pkas, atoms)
  else ret (mols, pkas, atoms).

(** [base_sequence(base_pairs, mols, pkas, atoms)] *)
Definition base_sequence (base_pairs : list pair_tuple) (s : sequence) : M sequence :=
  let '(mols, pkas, atoms) := s in
  if 0 <? length base_pairs then
    base_pkas ← match_pka base_pairs;
    pka ← lift (py_min base_pkas);
    if flt (Fin (27 # 2)) pka.2 then ret (mols, pkas, atoms)
    else
      let pkas := pkas ++ [pka.2] in
      i ← lift (py_index pka base_pkas);
      p ← lift (py_get base_pairs i);
      let mols := mols ++ [p.1.2] in
      i ← lift (py_index pka base_pkas);
      p ← lift (py_get base_pairs i);
      let atoms := atoms ++ [p.2] in
      ret (mols, pkas, atoms)
  else ret (mols, pkas, atoms).

(** One turn of the first [while True] loop of [mol_query], up to the
    test that ends the loop. *)
Definition acid_turn (matches : list nat) (s : sequence) : M sequence :=
  front ← lift (py_get s.1.1 0);
  reactions ← get_possible_reactions valence_of front matches;
  acid_sequence reactions.1 s.

(** The first [while True] loop of [mol_query].  The loop has no bound in
    the source; [fuel] bounds the number of turns the embedding runs, and
    [None] is returned when it is used up.  The second component counts
    the turns taken. *)
Fixpoint acid_loop (fuel : nat) (matches : list nat) (s : sequence) (turns : nat)
    : M (option (sequence * nat)) :=
  match fuel with
  | 0 => ret None
  | S fuel =>
      let inital_length := length s.1.2 in
      s' ← acid_turn matches s;
      if length s'.1.2 <=? inital_length then ret (Some (s', S turns))
      else acid_loop fuel matches s' (S turns)
  end.

(** One turn of the second loop. *)
Definition base_turn (matches : list nat) (s : sequence) : M sequence :=
  back ← lift (py_last s.1.1);
  reactions ← get_possible_reactions valence_of back matches;
  base_sequence reactions.2 s.

(** The second [while True] loop of [mol_query]. *)
Fixpoint base_loop (fuel : nat) (matches : list nat) (s : sequence) (turns : nat)
    : M (option (sequence * nat)) :=
  match fuel with
  | 0 => ret None
  | S fuel =>
      let inital_length := length s.1.2 in
      s' ← base_turn matches s;
      if length s'.1.2 <=? inital_length then ret (Some (s', S turns))
      else base_loop fuel matches s' (S turns)
  end.

(** The value [mol_query] returns: the dictionary with keys ["mol"],
    ["pka"], ["atom"]; [turns] is the number of loop turns both phases took
    together (not part of the Python result). *)
Record query_result : Type := mkResult {
  res_mol : list (ref * ref);
  res_pka : list float;
  res_atom : list nat;
  turns : nat
}.

(** [mol_tuples]: consecutive molecules of [mols] *)
Fixpoint mol_tuples (mols : list ref) : list (ref * ref) :=
  match mols with
  | a :: (b :: _) as rest => (a, b) :: mol_tuples rest
  | _ => []
  end.

(** The part of [mol_query] that follows the preparation of its inputs: the
    two loops on the prepared molecule and its candidate sites, and the
    pairing of consecutive molecules. *)
Definition mol_query_search (fuel : nat) (mol : ref) (matches : list nat)
    : M (option query_result) :=
  let mols := [mol] in
  let pkas := [] in
  let atoms := [] in
  r ← acid_loop fuel matches (mols, pkas, atoms) 0;
  match r with
  | None => ret None
  | Some (s, n1) =>
      r ← base_loop fuel matches s 0;
      match r with
      | None => ret None
      | Some ((mols, pkas, atoms), n2) =>
          ret (Some (mkResult (mol_tuples mols) pkas atoms (n1 + n2)))
      end
  end.

End Search.

Arguments pair_data_loop {encoded}.
Arguments match_pka {encoded}.
Arguments acid_sequence {encoded}.
Arguments base_sequence {encoded}.
Arguments acid_turn _ {encoded}.
Arguments acid_loop _ {encoded}.
Arguments base_turn _ {encoded}.
Arguments base_loop _ {encoded}.
Arguments mol_query_search _ {encoded}.

(** [[deref r for r in l]] *)
Fixpoint deref_all (l : list ref) : M (list Mol) :=
  match l with
  | [] => ret []
  | r :: rest => m ← deref r; ms ← deref_all rest; ret (m :: ms)
  end.

Section Query.

Variable valence_of : Mol → nat → option (nat * nat).
Variable encoded : Type.
Variable paired_mol_data : Mol → Mol → nat → exn + encoded.
Variable predict : list encoded → exn + list float.
Variable np_round : float → Z → float.

(** [run_with_mol_list(mols, min_ph, max_ph)] of [pkasolver.dimorphite_dl],
    which is not among the repository's sources here: the protonation
    variants of the molecules in the given pH range, as new molecules. *)
Variable run_with_mol_list : list ref → float → float → M (list ref).

(** [Chem.MolFromSmiles(Chem.MolToSmiles(mol))] *)
Variable smiles_round_trip : ref → M ref.

(** The pH-7 form of the molecule, re-read from its SMILES. *)
Definition neutral_form (mol : ref) : M ref :=
  mols ← run_with_mol_list [mol] (Fin 7) (Fin 7);
  mol ← lift (py_get mols 0);
  smiles_round_trip mol.

(** [mol_query] up to the two loops: the [try]/[except] that keeps the
    molecule's name retries the same two steps, and [matches] are the sites
    that differ among the variants between pH 0.5 and 13.5. *)
Definition mol_query_inputs (mol : ref) : M (ref * list nat) :=
  mol ← try_except (neutral_form mol) (neutral_form mol);
  variants ← run_with_mol_list [mol] (Fin (1 # 2)) (Fin (27 # 2));
  variants ← deref_all variants;
  matches ← lift (get_ionization_indices variants);
  ret (mol, matches).

(** [mol_query(mol)] *)
Definition mol_query (fuel : nat) (mol : ref) : M (option query_result) :=
  inputs ← mol_query_inputs mol;
  mol_query_search valence_of paired_mol_data predict np_round fuel inputs.1 inputs.2.

End Query.

Arguments mol_query _ {encoded}.

(** ** constants.py and data.py: the feature encoder *)

Open Scope string_scope.

(** What a feature function returns: a boolean, or a list of 0/1 flags over
    the feature's value list. *)
Inductive FeatVal : Type :=
| FBool (b : bool)
| FList (l : list nat).

Definition int_of_bool (b : bool) : nat := if b then 1 else 0.

Definition rotatable_bond : string := "[!$(*#*)&!D1]-&!@[!$(*#*)&!D1]".
Definition amide : string := "[NX3][CX3](=[OX1])[#6]".

(** [node_feature_values] *)
Definition node_feature_values : list (string * list Z) :=
  [ ("element", [1; 6; 7; 8; 9; 15; 16; 17; 33; 35; 53]);
    ("formal_charge", [-1; 0; 1]);
    ("is_in_ring", [1]);
    ("amide_center_atom", [1]);
    ("hybridization", [1; 2; 3; 4]);
    ("total_num_Hs", [0; 1; 2; 3]);
    ("aromatic_tag", [1]);
    ("total_valence", [1; 2; 3; 4; 5; 6]);
    ("total_degree", [1; 2; 3; 4]);
    ("reaction_center", [1]) ]%Z.

(** [edge_feature_values] *)
Definition edge_feature_values : list (string * list Q) :=
  [ ("bond_type", [1; 3 # 2; 2; 3]);
    ("is_conjugated", [1]);
    ("rotatable", [1]) ]%Q.

(** [d[k]] for a dictionary kept as an association list in insertion order *)
Fixpoint dict_get {V} (d : list (string * V)) (k : string) : exn + V :=
  match d with
  | [] => inl KeyError
  | (k', v) :: d' => if String.eqb k' k then inr v else dict_get d' k
  end.

(** [d[k] = v]: overwrite in place, or append a new key *)
Fixpoint dict_set {V} (d : list (string * V)) (k : string) (v : V) : list (string * V) :=
  match d with
  | [] => [(k, v)]
  | (k', v') :: d' => if String.eqb k' k then (k', v) :: d' else (k', v') :: dict_set d' k v
  end.

(** The value list of a feature, as the lambdas of [constants.py] look it up;
    every key they use is present in the table. *)
Definition values_of {V} (d : list (string * list V)) (k : string) : list V :=
  match dict_get d k with
  | inr l => l
  | inl _ => []
  end.

(** A node feature sees the atom (with its molecule and index), the loop
    counter [i] and [marvin_atom]; an edge feature sees the bond. *)
Definition node_feature : Type := Mol → Atom → nat → nat → FeatVal.
Definition edge_feature : Type := Mol → Bond → FeatVal.

Section Features.

(** [mol.GetSubstructMatches(Chem.MolFromSmarts(smarts))] *)
Variable GetSubstructMatches : Mol → string → list (list nat).

(** [chem.atom_smarts_query(atom, smarts)] *)
Definition atom_smarts_query (mol : Mol) (idx : nat) (smarts : string) : bool :=
  match GetSubstructMatches mol smarts with
  | [] => false
  | m0 :: _ => bool_decide (idx ∈ m0)
  end.

(** [set(l1) == set(l2)] *)
Definition set_eqb (l1 l2 : list nat) : bool :=
  forallb (λ x, bool_decide (x ∈ l2)) l1 && forallb (λ x, bool_decide (x ∈ l1)) l2.

(** [chem.bond_smarts_query(bond, smarts)] *)
Definition bond_smarts_query (mol : Mol) (bond : Bond) (smarts : string) : bool :=
  existsb (set_eqb [BeginAtomIdx bond; EndAtomIdx bond]) (GetSubstructMatches mol smarts).

Definition one_hot_Z (x : Z) (values : list Z) : FeatVal :=
  FList (map (λ s, int_of_bool (x =? s)%Z) values).

(** [NODE_FEATURES] *)
Definition NODE_FEATURES : list (string * node_feature) :=
  [ ("element", λ mol atom i marvin_atom,
       one_hot_Z (Z.of_nat (AtomicNum atom)) (values_of node_feature_values "element"));
    ("formal_charge", λ mol atom i marvin_atom,
       one_hot_Z (FormalCharge atom) (values_of node_feature_values "formal_charge"));
    ("is_in_ring", λ mol atom i marvin_atom, FBool (IsInRing atom));
    ("amide_center_atom", λ mol atom i marvin_atom, FBool (atom_smarts_query mol i amide));
    ("hybridization", λ mol atom i marvin_atom,
       one_hot_Z (Z.of_nat (Hybridization atom)) (values_of node_feature_values "hybridization"));
    ("total_num_Hs", λ mol atom i marvin_atom,
       one_hot_Z (Z.of_nat (TotalNumHs atom)) (values_of node_feature_values "total_num_Hs"));
    ("aromatic_tag", λ mol atom i marvin_atom, FBool (IsAromatic atom));
    ("total_valence", λ mol atom i marvin_atom,
       one_hot_Z (Z.of_nat (TotalValence atom)) (values_of node_feature_values "total_valence"));
    ("total_degree", λ mol atom i marvin_atom,
       one_hot_Z (Z.of_nat (TotalDegree atom)) (values_of node_feature_values "total_degree"));
    ("reaction_center", λ mol atom i marvin_atom, FBool (i =? marvin_atom)%nat) ].

(** [EDGE_FEATURES] *)
Definition EDGE_FEATURES : list (string * edge_feature) :=
  [ ("bond_type", λ mol bond,
       FList (map (λ s, int_of_bool (Qeq_bool (BondTypeAsDouble bond) s))
                  (values_of edge_feature_values "bond_type")));
    ("is_conjugated", λ mol bond, FBool (IsConjugated bond));
    ("rotatable", λ mol bond, FBool (bond_smarts_query mol bond rotatable_bond)) ].

End Features.

Close Scope string_scope.

(** [make_features_dicts(all_features, feat_list)]: the dictionary
    comprehension [{x: all_features[x] for x in feat_list}]. *)
Fixpoint make_features_dicts_from {V} (all_features : list (string * V))
    (feat_list : list string) (acc : list (string * V)) : exn + list (string * V) :=
  match feat_list with
  | [] => inr acc
  | x :: rest =>
      match dict_get all_features x with
      | inr f => make_features_dicts_from all_features rest (dict_set acc x f)
      | inl e => inl e
      end
  end.

Definition make_features_dicts {V} (all_features : list (string * V))
    (feat_list : list string) : exn + list (string * V) :=
  make_features_dicts_from all_features feat_list [].

(** [make_nodes(mol, marvin_atom, n_features)].  The result is the nested
    list [x] that the source hands to [np.array] and [torch.tensor]: one
    entry per atom, each holding one entry per feature function. *)
Definition make_nodes (mol : Mol) (marvin_atom : nat)
    (n_features : list (string * node_feature)) : list (list FeatVal) :=
  imap (λ i atom, map (λ feat, feat.2 mol atom i marvin_atom) n_features) (atoms mol).

(** [make_edges_and_attr(mol, e_features)]: the lists [edges] (one
    (begin, end) column per directed edge) and [edge_attr] before they are
    packed into tensors. *)
Definition make_edges_and_attr (mol : Mol) (e_features : list (string * edge_feature))
    : list (nat * nat) * list (list FeatVal) :=
  fold_left
    (λ '(edges, edge_attr) bond,
       let edges := edges ++ [(BeginAtomIdx bond, EndAtomIdx bond)] in
       let edges := edges ++ [(EndAtomIdx bond, BeginAtomIdx bond)] in
       let edge := map (λ feat, feat.2 mol bond) e_features in
       (edges, edge_attr ++ [edge; edge]))
    (bonds mol) ([], []).

(** The tensors the two functions return are packed from these lists in
    their last lines (182, 201 and 202 of [data.py]).

    [np.array] (and [torch.tensor] after it) packs a nested list into an
    array only when it is rectangular: every row of the same length and
    every entry of the same shape, a boolean being a scalar and a flag list
    a vector of its length.  For a ragged list numpy raises [ValueError]
    (numpy before 1.24 builds an array of objects, which [torch.tensor] then
    refuses). *)
Definition shape_of (v : FeatVal) : option nat :=
  match v with
  | FBool _ => None
  | FList l => Some (length l)
  end.

Definition rectangular (x : list (list FeatVal)) : bool :=
  match x with
  | [] => true
  | row :: _ =>
      forallb (λ r, length r =? length row) x &&
      match concat x with
      | [] => true
      | v :: _ => forallb (λ w, bool_decide (shape_of w = shape_of v)) (concat x)
      end
  end.

(** [torch.tensor(np.array(x), dtype=torch.float)]; the tensor is kept as
    the nested list it was packed from. *)
Definition torch_tensor (x : list (list FeatVal)) : exn + list (list FeatVal) :=
  if rectangular x then inr x else inl ValueError.

(** [np.hstack(np.array(edges))] for the list [edges] of 2 x 1 columns that
    [make_edges_and_attr] collects: the columns side by side, a
    2 x len(edges) array, kept as its two rows.  numpy cannot concatenate an
    empty sequence. *)
Definition np_hstack (edges : list (nat * nat)) : exn + (list nat * list nat) :=
  match edges with
  | [] => inl ValueError
  | _ :: _ => inr (map fst edges, map snd edges)
  end.

(** The tensor [make_nodes] returns (line 182). *)
Definition make_nodes_tensor (mol : Mol) (marvin_atom : nat)
    (n_features : list (string * node_feature)) : exn + list (list FeatVal) :=
  torch_tensor (make_nodes mol marvin_atom n_features).

(** [edge_index], the first tensor [make_edges_and_attr] returns (line 201
    of [data.py], evaluated before the attribute tensor is built). *)
Definition make_edge_index (mol : Mol) (e_features : list (string * edge_feature))
    : exn + (list nat * list nat) :=
  np_hstack (make_edges_and_attr mol e_features).1.

(** The two tensors [make_edges_and_attr] returns (lines 201 and 202). *)
Definition make_edges_and_attr_tensors (mol : Mol) (e_features : list (string * edge_feature))
    : exn + (list nat * list nat) * list (list FeatVal) :=
  match make_edge_index mol e_features with
  | inl e => inl e
  | inr edge_index =>
      match torch_tensor (make_edges_and_attr mol e_features).2 with
      | inl e => inl e
      | inr edge_attr => inr (edge_index, edge_attr)
      end
  end.

(** A row of the data frame: [row.protonated], [row.deprotonated],
    [row.marvin_atom]. *)
Record Row : Type := mkRow {
  protonated : Mol;
  deprotonated : Mol;
  marvin_atom : nat
}.

(** [np.sum] of the formal charges *)
Definition np_sum (l : list Z) : Z := fold_left Z.add l 0%Z.

Definition features : Type :=
  list (list FeatVal) * (list nat * list nat) * list (list FeatVal) * Z.

(** [mol_to_features(row, n_features, e_features, protonation_state)] *)
Definition mol_to_features (row : Row) (n_features : list (string * node_feature))
    (e_features : list (string * edge_feature)) (protonation_state : string)
    : exn + features :=
  if String.eqb protonation_state "protonated"%string then
    match make_nodes_tensor (protonated row) (marvin_atom row) n_features with
    | inl e => inl e
    | inr node =>
        match make_edges_and_attr_tensors (protonated row) e_features with
        | inl e => inl e
        | inr (edge_index, edge_attr) =>
            let charge := np_sum (map FormalCharge (atoms (protonated row))) in
            inr (node, edge_index, edge_attr, charge)
        end
    end
  else if String.eqb protonation_state "deprotonated"%string then
    match make_nodes_tensor (deprotonated row) (marvin_atom row) n_features with
    | inl e => inl e
    | inr node =>
        match make_edges_and_attr_tensors (deprotonated row) e_features with
        | inl e => inl e
        | inr (edge_index, edge_attr) =>
            let charge := np_sum (map FormalCharge (atoms (deprotonated row))) in
            inr (node, edge_index, edge_attr, charge)
        end
    end
  else inl RuntimeError.

(** [PairData] *)
Record PairData : Type := mkPairData {
  edge_index_p : list nat * list nat;
  edge_index_d : list nat * list nat;
  x_p : list (list FeatVal);
  x_d : list (list FeatVal);
  edge_attr_p : list (list FeatVal);
  edge_attr_d : list (list FeatVal);
  charge_prot : Z;
  charge_deprot : Z;
  num_nodes : nat
}.

(** [PairData.__init__] *)
Definition PairData_init (edge_index_p : list nat * list nat)
    (edge_attr_p x_p : list (list FeatVal))
    (charge_p : Z) (edge_index_d : list nat * list nat) (edge_attr_d x_d : list (list FeatVal))
    (charge_d : Z) : PairData :=
  mkPairData edge_index_p edge_index_d x_p x_d edge_attr_p edge_attr_d
             charge_p charge_d (length x_p).

(** [mol_to_paired_mol_data(row, n_features, e_features)] *)
Definition mol_to_paired_mol_data (row : Row) (n_features : list (string * node_feature))
    (e_features : list (string * edge_feature)) : exn + PairData :=
  match mol_to_features row n_features e_features "protonated"%string with
  | inl e => inl e
  | inr (node_p, edge_index_p, edge_attr_p, charge_p) =>
      match mol_to_features row n_features e_features "deprotonated"%string with
      | inl e => inl e
      | inr (node_d, edge_index_d, edge_attr_d, charge_d) =>
          inr (PairData_init edge_index_p edge_attr_p node_p charge_p
                             edge_index_d edge_attr_d node_d charge_d)
      end
  end.

(** ** Summaries used in the statements *)

(** The atom after the proton-adding edit of the source
    ([SetFormalCharge(charge + 1)], then the explicit-hydrogen rule). *)
Definition protonated_atom (a : Atom) : Atom :=
  let a1 := with_FormalCharge (FormalCharge a + 1) a in
  if (TotalNumHs a =? 0) || (0 <? NumExplicitHs a)
  then with_NumExplicitHs (NumExplicitHs a + 1) a1 else a1.

(** The atom after the proton-removing edit. *)
Definition deprotonated_atom (a : Atom) : Atom :=
  let a1 := with_FormalCharge (FormalCharge a - 1) a in
  if 0 <? NumExplicitHs a then with_NumExplicitHs (NumExplicitHs a - 1) a1 else a1.

Definition put_atom (i : nat) (a : Atom) (m : Mol) : Mol :=
  with_atoms (<[i := a]> (atoms m)) m.

(** The molecule after [mol.__sssAtoms = [i]]. *)
Definition tag (i : nat) (m : Mol) : Mol := with_sssAtoms (Some [i]) m.

(** The molecule after a successful [UpdatePropertyCache] at atom [i]. *)
Definition refresh (valence_of : Mol → nat → option (nat * nat)) (m : Mol) (i : nat)
    : option Mol :=
  match valence_of m i with
  | Some (ev, ih) => Some (alter_atom (with_cache ev ih) i m)
  | None => None
  end.

(** The protonated copy [get_possible_reactions] builds at site [i], when
    the site qualifies and the property-cache update accepts it. *)
Definition acid_product (valence_of : Mol → nat → option (nat * nat)) (m : Mol) (i : nat)
    : option Mol :=
  match atoms m !! i with
  | Some a => if acid_cond a
              then refresh valence_of (put_atom i (protonated_atom a) (tag i m)) i
              else None
  | None => None
  end.

(** The deprotonated copy at site [i]. *)
Definition base_product (valence_of : Mol → nat → option (nat * nat)) (m : Mol) (i : nat)
    : option Mol :=
  match atoms m !! i with
  | Some a => if base_cond a
              then refresh valence_of (put_atom i (deprotonated_atom a) (tag i m)) i
              else None
  | None => None
  end.

Definition acid_site (m : Mol) (i : nat) : bool :=
  match atoms m !! i with Some a => acid_cond a | None => false end.

Definition base_site (m : Mol) (i : nat) : bool :=
  match atoms m !! i with Some a => base_cond a | None => false end.

(** [i] is the position of the first largest element of [l], [x]: no
    element is above [x], and the elements before it are below it or NaN.
    NaN compares false with everything, so a NaN at the head of the list is
    never replaced, and a NaN elsewhere is passed over. *)
Definition first_max (l : list float) (i : nat) (x : float) : Prop :=
  l !! i = Some x ∧
  (∀ j y, l !! j = Some y → flt x y = false) ∧
  (∀ j y, j < i → l !! j = Some y → flt y x = true ∨ y = NaN) ∧
  (l !! 0 = Some NaN ∨ x = NaN → i = 0).

(** [i] is the position of the first smallest element of [l], [x]. *)
Definition first_min (l : list float) (i : nat) (x : float) : Prop :=
  l !! i = Some x ∧
  (∀ j y, l !! j = Some y → flt y x = false) ∧
  (∀ j y, j < i → l !! j = Some y → flt x y = true ∨ y = NaN) ∧
  (l !! 0 = Some NaN ∨ x = NaN → i = 0).

(** How many more protons the acid rule can still add to an atom, and how
    many the base rule can still remove, judged by the formal charge alone. *)
Definition acid_room (a : Atom) : nat :=
  Z.to_nat ((if AtomicNum a =? 7 then 1 else 0) - FormalCharge a).

Definition base_room (a : Atom) : nat :=
  Z.to_nat (FormalCharge a + 1).

Definition site_room (room : Atom → nat) (m : Mol) (i : nat) : nat :=
  match atoms m !! i with Some a => room a | None => 0 end.

Definition room_sum (room : Atom → nat) (m : Mol) (matches : list nat) : nat :=
  sum_list (map (site_room room m) matches).

Section ReactionSummaries.

Variable valence_of : Mol → nat → option (nat * nat).

(** The state in which one turn of the loop leaves its first copy. *)
Definition step_acid_obj (m : Mol) (i : nat) (a : Atom) : Mol :=
  if acid_cond a then
    let P := put_atom i (protonated_atom a) (tag i m) in
    match refresh valence_of P i with Some P' => P' | None => P end
  else tag i m.

(** The pairs one turn appends, [n] being the size of the store when the
    turn starts. *)
Definition new_acid (mol : ref) (n : nat) (m : Mol) (i : nat) : list pair_tuple :=
  if acid_product valence_of m i is Some _ then [(n, mol, i)] else [].

Definition new_base (mol : ref) (n : nat) (m : Mol) (i : nat) : list pair_tuple :=
  if base_site m i then [(mol, S n, i)] else [].

(** A site the loop gets past: the index is in range and, if the site
    qualifies for proton removal, the update of the copy is accepted. *)
Definition site_passes (m : Mol) (i : nat) : Prop :=
  is_Some (atoms m !! i) ∧ (base_site m i = true → is_Some (base_product valence_of m i)).

Global Instance site_passes_dec m i : Decision (site_passes m i).
Proof. unfold site_passes. apply _. Defined.

(** The value of [__sssAtoms] of the input once the loop is through. *)
Definition last_tag (matches : list nat) (m : Mol) : option (list nat) :=
  match list.last matches with Some i => Some [i] | None => sssAtoms m end.

Definition acid_new_ok (mol : ref) (m : Mol) (h h' : heap) (p : pair_tuple) : Prop :=
  p.1.2 = mol ∧ length h ≤ p.1.1 ∧
  is_Some (h' !! p.1.1) ∧ h' !! p.1.1 = acid_product valence_of m p.2.

Definition base_new_ok (mol : ref) (m : Mol) (h h' : heap) (p : pair_tuple) : Prop :=
  p.1.1 = mol ∧ length h ≤ p.1.2 ∧
  is_Some (h' !! p.1.2) ∧ h' !! p.1.2 = base_product valence_of m p.2.

(** What holds of the store [h'] and outcome [r] of the loop started in
    store [h] on molecule [mol] (holding [m]) with pair lists [acid],
    [base]. *)
Definition loop_post (mol : ref) (m : Mol) (h : heap) (acid base : list pair_tuple)
    (matches : list nat) (h' : heap) (r : exn + (list pair_tuple * list pair_tuple)) : Prop :=
  length h ≤ length h' ∧
  (∀ j, j < length h → j ≠ mol → h' !! j = h !! j) ∧
  (∃ s, h' !! mol = Some (with_sssAtoms s m)) ∧
  match r with
  | inl e => ¬ Forall (site_passes m) matches ∧ (e = RangeError ∨ e = AtomValenceException)
  | inr (acid', base') =>
      Forall (site_passes m) matches ∧
      h' !! mol = Some (with_sssAtoms (last_tag matches m) m) ∧
      ∃ na nb, acid' = acid ++ na ∧ base' = base ++ nb ∧
        na.*2 = filter (λ i, is_Some (acid_product valence_of m i)) matches ∧
        nb.*2 = filter (λ i, base_site m i) matches ∧
        Forall (acid_new_ok mol m h h') na ∧ Forall (base_new_ok mol m h h') nb
  end.

End ReactionSummaries.

(** The store only grows, and molecules already in it keep their graph. *)
Definition store_grows (h h' : heap) : Prop :=
  length h ≤ length h' ∧
  ∀ j m, h !! j = Some m → ∃ s, h' !! j = Some (with_sssAtoms s m).

(** What a finished phase has added to the three lists: as many molecules
    and atom indices as pKa values, one turn more than values, no more
    values than the charges leave room for, every value a rounded one and
    every index a candidate site. *)
Definition phase_added (np_round : float → Z → float) (room : Atom → nat) (m : Mol)
    (matches : list nat)
    (turns n : nat) (newm : list ref) (newp : list float) (newa : list nat) : Prop :=
  length newm = length newp ∧ length newa = length newp ∧
  n = turns + length newp + 1 ∧
  length newp ≤ room_sum room m matches ∧
  Forall (λ q, ∃ raw, q = np_round raw 3%Z) newp ∧
  Forall (λ i, i ∈ matches) newa.

(** The predictions of a regressor as [match_pka] hands them on. *)
Definition rounded_predict {A} (np_round : float → Z → float)
    (predict : list A → exn + list float) : list A → exn + list float :=
  λ data, match predict data with
          | inl e => inl e
          | inr raw => inr (map (λ x, np_round x 3%Z) raw)
          end.

(** The decision table of the conjugate generator, as the specification
    words it: rows of (condition, action), read top to bottom, the first
    row whose condition holds decides. *)
Inductive row_action : Type :=
| DecrementCharge   (* charge - 1; one explicit hydrogen fewer if there is one *)
| IncrementCharge   (* charge + 1; one explicit hydrogen more if the atom has no
                       hydrogen at all or has explicit ones *)
| InvalidChemistry. (* fail *)

Definition decision_table : list ((Atom → float → float → bool) * row_action) :=
  [ (λ a pka pH, (flt pH pka && (1 <=? TotalNumHs a)) || (0 <? FormalCharge a)%Z,
     DecrementCharge);
    (λ a pka pH, flt pka pH && (FormalCharge a <=? 0)%Z,
     IncrementCharge);
    (λ a pka pH, flt pH pka && (TotalNumHs a =? 0),
     IncrementCharge);
    (λ a pka pH, true,
     InvalidChemistry) ].

Fixpoint first_match (rows : list ((Atom → float → float → bool) * row_action))
    (a : Atom) (pka pH : float) : row_action :=
  match rows with
  | [] => InvalidChemistry
  | (cond, act) :: rest => if cond a pka pH then act else first_match rest a pka pH
  end.

Definition apply_action (act : row_action) (a : Atom) : option Atom :=
  match act with
  | DecrementCharge => Some (deprotonated_atom a)
  | IncrementCharge => Some (protonated_atom a)
  | InvalidChemistry => None
  end.

(** ** A valence model and molecules for the worked examples

    The theorems below hold for every valence model.  The examples need one;
    this one follows RDKit's bookkeeping in outline: the permitted valences
    of an element, shifted by the formal charge to the isoelectronic
    element; the explicit valence is the bond orders plus the explicit
    hydrogens; implicit hydrogens fill up to the next permitted valence. *)

Definition permitted_valences (z : nat) : list nat :=
  match z with
  | 1 => [1] | 5 => [3] | 6 => [4] | 7 => [3] | 8 => [2] | 9 => [1]
  | 15 => [3; 5] | 16 => [2; 4; 6] | 17 => [1] | 35 => [1] | 53 => [1; 3; 5]
  | _ => []
  end.

Definition bond_order_sum (m : Mol) (i : nat) : Q :=
  fold_left Qplus
    (map BondTypeAsDouble
       (List.filter (λ b, (BeginAtomIdx b =? i) || (EndAtomIdx b =? i)) (bonds m)))
    0%Q.

Definition rdkit_valence (m : Mol) (i : nat) : option (nat * nat) :=
  match atoms m !! i with
  | None => None
  | Some a =>
      let ev := Z.to_nat (Qfloor (bond_order_sum m i + (6 # 10))) + NumExplicitHs a in
      match permitted_valences (Z.to_nat (Z.of_nat (AtomicNum a) - FormalCharge a)) with
      | [] => Some (ev, 0)
      | vs => match List.find (λ v, ev <=? v) vs with
              | Some v => Some (ev, v - ev)
              | None => None
              end
      end
  end.

(** Instances of what [match_pka] calls, for the examples.

    With the function that [data.py] defines behind it, the call of
    line 238 raises [TypeError]. *)
Definition three_parameter_callee : Mol → Mol → nat → exn + PairData :=
  λ _ _ _, inl TypeError.

(** A callee that returns: the function of [data.py] on the row that the
    first three arguments spell out, with the two dictionaries. *)
Definition row_callee (n_features : list (string * node_feature))
    (e_features : list (string * edge_feature)) : Mol → Mol → nat → exn + PairData :=
  λ prot deprot atom_idx, mol_to_paired_mol_data (mkRow prot deprot atom_idx) n_features e_features.

(** Two feature dictionaries of booleans. *)
Definition ring_flag : list (string * node_feature) :=
  [("is_in_ring"%string, λ _ atom _ _, FBool (IsInRing atom))].

Definition conjugation_flag : list (string * edge_feature) :=
  [("is_conjugated"%string, λ _ bond, FBool (IsConjugated bond))].

(** A regressor that predicts the same value for every pair, and one that
    predicts the values of a list whatever the pairs. *)
Definition const_predict {A} (x : float) : list A → exn + list float :=
  λ pairs, inr (map (λ _, x) pairs).

Definition list_predict {A} (l : list float) : list A → exn + list float :=
  λ _, inr l.

(** Rounding to the nearest multiple of [10^-3] of the number a float stands
    for, ties to the even multiple.  [np.round] works in binary floating
    point (scale, round to an integer, scale back) and can differ from this
    where the scaled value comes within rounding error of a tie; the
    examples use values well away from ties. *)
Definition rint (q : Q) : Z :=
  let f := Qfloor q in
  let d := (q - inject_Z f)%Q in
  if Qlt_bool d (1 # 2) then f
  else if Qlt_bool (1 # 2) d then (f + 1)%Z
  else if Z.even f then f else (f + 1)%Z.

Definition decimal_round (x : float) (decimals : Z) : float :=
  match x with
  | Fin q => Fin (rint (q * inject_Z (10 ^ decimals)) # Z.to_pos (10 ^ decimals))
  | _ => x
  end.

(** Methylammonium, [C[NH3+]], and hydrazine, [NN]. *)
Definition methylammonium : Mol :=
  mkMol [mkAtom 6 0 0 3 1 1 4 false false; mkAtom 7 1 3 0 4 1 4 false false]
        [mkBond 0 1 1 false] None.

Definition hydrazine : Mol :=
  mkMol [mkAtom 7 0 0 2 1 1 4 false false; mkAtom 7 0 0 2 1 1 4 false false]
        [mkBond 0 1 1 false] None.

(** Ammonium, [NH4+]: one nitrogen, charge +1, four implicit hydrogens. *)
Definition ammonium : Mol :=
  mkMol [mkAtom 7 1 0 4 0 0 4 false false] [] None.

(** Ammonia, [NH3]. *)
Definition ammonia : Mol :=
  mkMol [mkAtom 7 0 0 3 0 0 4 false false] [] None.

(** Tetrafluoroborate, [BF4-]: boron (charge -1) bonded to four fluorines. *)
Definition tetrafluoroborate : Mol :=
  mkMol [mkAtom 5 (-1) 0 0 4 4 4 false false;
         mkAtom 9 0 0 0 1 1 4 false false; mkAtom 9 0 0 0 1 1 4 false false;
         mkAtom 9 0 0 0 1 1 4 false false; mkAtom 9 0 0 0 1 1 4 false false]
        [mkBond 0 1 1 false; mkBond 0 2 1 false; mkBond 0 3 1 false; mkBond 0 4 1 false]
        None.

(** Acetic acid, [CC(=O)O]: methyl carbon, carboxyl carbon, carbonyl oxygen,
    hydroxyl oxygen. *)
Definition acetic_acid : Mol :=
  mkMol [mkAtom 6 0 0 3 1 1 4 false false; mkAtom 6 0 0 0 4 3 3 false false;
         mkAtom 8 0 0 0 2 1 3 false false; mkAtom 8 0 0 1 1 1 3 false false]
        [mkBond 0 1 1 false; mkBond 1 2 2 true; mkBond 1 3 1 true]
        None.

(** [prot] and [deprot] are the same molecule except at atom [i], where the
    formal charge of [prot] is one above that of [deprot]. *)
Definition differ_only_at (i : nat) (prot deprot : Mol) : Prop :=
  length (atoms prot) = length (atoms deprot) ∧
  (∀ j, j ≠ i → atoms prot !! j = atoms deprot !! j) ∧
  ∃ ap ad, atoms prot !! i = Some ap ∧ atoms deprot !! i = Some ad ∧
           (FormalCharge ap - FormalCharge ad = 1)%Z.

(** The formal charge of atom [j], if there is such an atom. *)
Definition charge_at (m : Mol) (j : nat) : option Z := FormalCharge <$> atoms m !! j.

(** Trimethylamine, [N(C)(C)C]: a nitrogen without hydrogens. *)
Definition trimethylamine : Mol :=
  mkMol [mkAtom 7 0 0 0 3 3 4 false false; mkAtom 6 0 0 3 1 1 4 false false;
         mkAtom 6 0 0 3 1 1 4 false false; mkAtom 6 0 0 3 1 1 4 false false]
        [mkBond 0 1 1 false; mkBond 0 2 1 false; mkBond 0 3 1 false]
        None.

(** Toluene, [Cc1ccccc1]: the methyl carbon and the six ring carbons. *)
Definition toluene : Mol :=
  mkMol [mkAtom 6 0 0 3 1 1 4 false false;
         mkAtom 6 0 0 0 4 3 3 true true;
         mkAtom 6 0 0 1 3 2 3 true true; mkAtom 6 0 0 1 3 2 3 true true;
         mkAtom 6 0 0 1 3 2 3 true true; mkAtom 6 0 0 1 3 2 3 true true;
         mkAtom 6 0 0 1 3 2 3 true true]
        [mkBond 0 1 1 false;
         mkBond 1 2 (3 # 2) true; mkBond 2 3 (3 # 2) true; mkBond 3 4 (3 # 2) true;
         mkBond 4 5 (3 # 2) true; mkBond 5 6 (3 # 2) true; mkBond 6 1 (3 # 2) true]
        None.

(** Methylamine [CN] and ethylamine [CCN]: two molecules with different
    atom counts. *)
Definition methylamine : Mol :=
  mkMol [mkAtom 6 0 0 3 1 1 4 false false; mkAtom 7 0 0 2 1 1 4 false false]
        [mkBond 0 1 1 false] None.

Definition ethylamine : Mol :=
  mkMol [mkAtom 6 0 0 3 1 1 4 false false; mkAtom 6 0 0 2 2 2 4 false false;
         mkAtom 7 0 0 2 1 1 4 false false]
        [mkBond 0 1 1 false; mkBond 1 2 1 false] None.

(** The number of columns a feature selection stands for: the sizes of the
    selected features' value lists, added up. *)
Definition feature_width {V} (values : list (string * list V)) (feat_list : list string)
    : nat :=
  sum_list (map (λ x, length (values_of values x)) feat_list).

(** * The utilities around the core *)

(** ** data.py: the cross-validation helpers *)

(** The exceptions of the utilities below: three of Python itself that
    nothing above can raise, and the ones above. *)
Inductive exn_util : Type :=
| ZeroDivisionError     (* division or modulo by zero *)
| StopIteration         (* [next] on an exhausted iterator *)
| UnboundLocalError     (* a local variable read before any assignment *)
| Raised (e : exn).

(** [next(iterator)], the iterator being the items not yet handed out *)
Definition py_next {A} (iterator : list A) : exn_util + (A * list A) :=
  match iterator with
  | [] => inl StopIteration
  | x :: rest => inr (x, rest)
  end.

(** The inner loop of [slice_list]:
    [for j in range(slice_size): result[i].append(next(iterator))]. *)
Fixpoint slice_fill {A} (slice_size : nat) (slice iterator : list A)
    : exn_util + (list A * list A) :=
  match slice_size with
  | 0 => inr (slice, iterator)
  | S n =>
      match py_next iterator with
      | inl e => inl e
      | inr (x, iterator) => slice_fill n (slice ++ [x]) iterator
      end
  end.

(** The outer loop, [for i in range(size)], with [todo] turns left. *)
Fixpoint slice_loop {A} (todo slice_size : nat) (result : list (list A))
    (iterator : list A) (remain : Z) : exn_util + list (list A) :=
  match todo with
  | 0 => inr result
  | S todo =>
      match slice_fill slice_size [] iterator with
      | inl e => inl e
      | inr (slice, iterator) =>
          if (remain =? 0)%Z then
            slice_loop todo slice_size (result ++ [slice]) iterator remain
          else
            match py_next iterator with
            | inl e => inl e
            | inr (x, iterator) =>
                slice_loop todo slice_size (result ++ [slice ++ [x]]) iterator (remain - 1)%Z
            end
      end
  end.

(** [slice_list(input_list, size)].  [//] and [%] are Python's floored
    division and modulo, which [Z.div] and [Z.modulo] are; [range] of a
    negative number is empty. *)
Definition slice_list {A} (input_list : list A) (size : Z) : exn_util + list (list A) :=
  let input_size := Z.of_nat (length input_list) in
  if (size =? 0)%Z then inl ZeroDivisionError
  else
    let slice_size := (input_size / size)%Z in
    let remain := (input_size mod size)%Z in
    slice_loop (Z.to_nat size) (Z.to_nat slice_size) [] input_list remain.

(** [l[i]] for a Python integer: a negative position counts from the end. *)
Definition py_get_Z {A} (l : list A) (i : Z) : exn + A :=
  if (0 <=? i)%Z then py_get l (Z.to_nat i)
  else if (- Z.of_nat (length l) <=? i)%Z then py_get l (Z.to_nat (Z.of_nat (length l) + i))
  else inl IndexError.

(** [enumerate(l)] *)
Definition enumerate {A} (l : list A) : list (nat * A) := imap pair l.

(** [cross_val_lists(sliced_lists, num)] *)
Definition cross_val_lists {A} (sliced_lists : list (list A)) (num : Z)
    : exn + (list A * list A) :=
  let not_flattend :=
    map snd (List.filter (λ ix, negb (Z.of_nat ix.1 =? num)%Z) (enumerate sliced_lists)) in
  let train_list := concat not_flattend in
  match py_get_Z sliced_lists num with
  | inl e => inl e
  | inr val_list => inr (train_list, val_list)
  end.

(** ** chem.py: fingerprint similarity *)

(** [fp.nonzero()[0].tolist()]: the positions of the entries of a
    one-dimensional array that are not zero, in ascending order. *)
Definition nonzero (fp : list Z) : list nat :=
  map fst (List.filter (λ ix, negb (ix.2 =? 0)%Z) (enumerate fp)).

(** [set(l)], kept as a list without repetitions; [&] and [|] are
    [list_intersection] and [list_union]. *)
Definition py_set (l : list nat) : list nat := remove_dups l.

(** [calculate_tanimoto_coefficient(fp1, fp2)]; [/] is true division. *)
Definition calculate_tanimoto_coefficient (fp1 fp2 : list Z) : exn_util + Q :=
  let set1 := py_set (nonzero fp1) in
  let set2 := py_set (nonzero fp2) in
  let shared := length (list_intersection set1 set2) in
  let total := length (list_union set1 set2) in
  if total =? 0 then inl ZeroDivisionError
  else inr (Z.of_nat shared # Pos.of_nat total).

(** ** query.py: the feature selection of the module *)

Definition node_feat_list : list string :=
  [ "element"; "formal_charge"; "hybridization"; "total_num_Hs"; "aromatic_tag";
    "total_valence"; "total_degree"; "is_in_ring"; "reaction_center"; "smarts" ]%string.

Definition edge_feat_list : list string :=
  [ "bond_type"; "is_conjugated"; "rotatable" ]%string.

(** Dictionary keys are strings; their equality is decidable. *)
Global Instance string_eq_dec : EqDecision string := string_dec.

(** ** data.py: single-molecule data and the dataset builders *)

(** [torch_geometric.data.Data(x=..., edge_index=..., edge_attr=...)] *)
Module Data.
Record t : Type := mk {
  x : list (list FeatVal);
  edge_index : list nat * list nat;
  edge_attr : list (list FeatVal)
}.
End Data.

(** [mol_to_single_mol_data(row, n_features, e_features, protonation_state)] *)
Definition mol_to_single_mol_data (row : Row) (n_features : list (string * node_feature))
    (e_features : list (string * edge_feature)) (protonation_state : string)
    : exn + (Data.t * Z) :=
  match mol_to_features row n_features e_features protonation_state with
  | inl e => inl e
  | inr (node_p, edge_index_p, edge_attr_p, charge) =>
      inr (Data.mk node_p edge_index_p edge_attr_p, charge)
  end.

(** A row of the data frame as the dataset builders read it: the pair with
    its reaction centre ([df.iloc[i]]), [df.pKa[i]] and [df.ID[i]].  The
    frame is a list of rows, that is, it carries the default index
    0, 1, ... under which label and position agree. *)
Record DataRow : Type := mkDataRow {
  row_of : Row;
  pKa : float;
  ID : string
}.

(** An entry of the dataset: the data object [m] with the attributes set on
    it after its construction, [m.y], [m.ID] and, where the source sets it,
    [m.charge]. *)
Inductive pyg_item : Type :=
| PairItem (m : PairData) (y : float) (ID : string)
| SingleItem (m : Data.t) (y : float) (ID : string) (charge : option Z).

(** A [for] loop over the rows that appends one item per row and ends at
    the first exception. *)
Fixpoint for_rows {A B} (body : A → exn + B) (df : list A) : exn + list B :=
  match df with
  | [] => inr []
  | r :: rest =>
      match body r with
      | inl e => inl e
      | inr m =>
          match for_rows body rest with
          | inl e => inl e
          | inr dataset => inr (m :: dataset)
          end
      end
  end.

Section Datasets.

Variable GetSubstructMatches : Mol → string → list (list nat).

(** [torch.tensor([v], dtype=torch.float32)]: the value as a single-precision
    float. *)
Variable float32 : float → float.

(** The body of the loop over the rows with [paired] set. *)
Definition paired_item (selected_node_features : list (string * node_feature))
    (selected_edge_features : list (string * edge_feature)) (r : DataRow) : exn + pyg_item :=
  match mol_to_paired_mol_data (row_of r) selected_node_features selected_edge_features with
  | inl e => inl e
  | inr m => inr (PairItem m (float32 (pKa r)) (ID r))
  end.

(** The body of the other loop of [make_pyg_dataset_based_on_charge]. *)
Definition charge_item (selected_node_features : list (string * node_feature))
    (selected_edge_features : list (string * edge_feature)) (r : DataRow) : exn + pyg_item :=
  let charge_prot := np_sum (map FormalCharge (atoms (protonated (row_of r)))) in
  let charge_deprot := np_sum (map FormalCharge (atoms (deprotonated (row_of r)))) in
  let total := (charge_prot + charge_deprot)%Z in
  let single :=
    if (total =? 1)%Z || (total =? 3)%Z || (total =? 5)%Z then
      mol_to_single_mol_data (row_of r) selected_node_features selected_edge_features
        "protonated"%string
    else if (total =? -1)%Z || (total =? -3)%Z || (total =? -5)%Z || (total =? -7)%Z then
      mol_to_single_mol_data (row_of r) selected_node_features selected_edge_features
        "deprotonated"%string
    else inl RuntimeError in
  match single with
  | inl e => inl e
  | inr (m, molecular_charge) =>
      inr (SingleItem m (float32 (pKa r)) (ID r) (Some molecular_charge))
  end.

(** [make_pyg_dataset_based_on_charge(df, list_n, list_e, paired=False)] *)
Definition make_pyg_dataset_based_on_charge (df : list DataRow)
    (list_n list_e : list string) (paired : bool) : exn + list pyg_item :=
  match make_features_dicts (NODE_FEATURES GetSubstructMatches) list_n with
  | inl e => inl e
  | inr selected_node_features =>
      match make_features_dicts (EDGE_FEATURES GetSubstructMatches) list_e with
      | inl e => inl e
      | inr selected_edge_features =>
          if paired then
            for_rows (paired_item selected_node_features selected_edge_features) df
          else
            for_rows (charge_item selected_node_features selected_edge_features) df
      end
  end.

(** The body of the second loop of
    [make_pyg_dataset_based_on_number_of_hydrogens]. *)
Definition mode_item (selected_node_features : list (string * node_feature))
    (selected_edge_features : list (string * edge_feature)) (mode : string) (r : DataRow)
    : exn + pyg_item :=
  match mol_to_single_mol_data (row_of r) selected_node_features selected_edge_features mode with
  | inl e => inl e
  | inr (m, molecular_charge) => inr (SingleItem m (float32 (pKa r)) (ID r) None)
  end.

(** [make_pyg_dataset_based_on_number_of_hydrogens(df, list_n, list_e,
    paired=False, mode="all")] *)
Definition make_pyg_dataset_based_on_number_of_hydrogens (df : list DataRow)
    (list_n list_e : list string) (paired : bool) (mode : string) : exn + list pyg_item :=
  if negb paired && negb (bool_decide (mode ∈ ["protonated"; "deprotonated"]%string)) then
    inl RuntimeError
  else
    match make_features_dicts (NODE_FEATURES GetSubstructMatches) list_n with
    | inl e => inl e
    | inr selected_node_features =>
        match make_features_dicts (EDGE_FEATURES GetSubstructMatches) list_e with
        | inl e => inl e
        | inr selected_edge_features =>
            if paired then
              for_rows (paired_item selected_node_features selected_edge_features) df
            else
              for_rows (mode_item selected_node_features selected_edge_features mode) df
        end
    end.

End Datasets.

(** The net formal charge of a molecule, as [mol_to_features] adds it up. *)
Definition net_charge (m : Mol) : Z := np_sum (map FormalCharge (atoms m)).

(** The edge list as the two rows of the index tensor. *)
Definition edge_rows (m : Mol) (e_features : list (string * edge_feature))
    : list nat * list nat :=
  (map fst (make_edges_and_attr m e_features).1, map snd (make_edges_and_attr m e_features).1).

(** A molecule that the encoder can pack: its feature rows are rectangular
    and it has a bond. *)
Definition encodes (m : Mol) (marvin_atom : nat) (n_features : list (string * node_feature))
    (e_features : list (string * edge_feature)) : bool :=
  rectangular (make_nodes m marvin_atom n_features)
  && (if bonds m is [] then false else true)
  && rectangular (make_edges_and_attr m e_features).2.

(** The member of a row that [make_pyg_dataset_based_on_charge] encodes:
    the protonated molecule when the deprotonated one has net charge 0 or
    more, else the deprotonated one. *)
Definition charged_member (row : Row) : Mol :=
  if (0 <=? net_charge (deprotonated row))%Z then protonated row else deprotonated row.

(** The data object of one member of a pair. *)
Definition single_data (m : Mol) (marvin_atom : nat) (n_features : list (string * node_feature))
    (e_features : list (string * edge_feature)) : Data.t :=
  Data.mk (make_nodes m marvin_atom n_features)
          (edge_rows m e_features) (make_edges_and_attr m e_features).2.

(** The pair data object of a row. *)
Definition pair_data (row : Row) (n_features : list (string * node_feature))
    (e_features : list (string * edge_feature)) : PairData :=
  PairData_init
    (edge_rows (protonated row) e_features)
    (make_edges_and_attr (protonated row) e_features).2
    (make_nodes (protonated row) (marvin_atom row) n_features)
    (net_charge (protonated row))
    (edge_rows (deprotonated row) e_features)
    (make_edges_and_attr (deprotonated row) e_features).2
    (make_nodes (deprotonated row) (marvin_atom row) n_features)
    (net_charge (deprotonated row)).

(** ** data.py: preprocessing *)

(** A row of the data frame that [import_sdf] reads, reduced to the columns
    the preprocessing uses: the molecule and the Marvin annotations, the
    latter as the values [int] and [float] convert them to.  Frames are
    lists of rows (default index). *)
Module Sdf.
Record row : Type := mk {
  ROMol : nat;
  marvin_atom : nat;
  marvin_pKa : float
}.
End Sdf.

(** A row after [sort_conjugates]: the columns [protonated] and
    [deprotonated] in place of [ROMol] and [Conjugates]. *)
Module Prepared.
Record row : Type := mk {
  protonated : nat;
  deprotonated : nat;
  marvin_atom : nat;
  marvin_pKa : float
}.
End Prepared.

(** [df[name] = values]: a new column; pandas refuses a list whose length
    is not the number of rows. *)
Definition set_column {A B} (df : list A) (values : list B) : exn + list (A * B) :=
  if length values =? length df then inr (zip df values) else inl ValueError.

Section Preprocess.

Variable valence_of : Mol → nat → option (nat * nat).

(** The loop of [conjugates_to_dataframe]. *)
Fixpoint conjugates_loop (df : list Sdf.row) (conjugates : list nat) : M (list nat) :=
  match df with
  | [] => ret conjugates
  | r :: rest =>
      let mol := Sdf.ROMol r in
      let index := Sdf.marvin_atom r in
      let pka := Sdf.marvin_pKa r in
      conj ← create_conjugate valence_of mol index pka default_pH;
      conjugates_loop rest (conjugates ++ [conj])
  end.

(** [conjugates_to_dataframe(df)]: the frame with the column [Conjugates] *)
Definition conjugates_to_dataframe (df : list Sdf.row) : M (list (Sdf.row * nat)) :=
  conjugates ← conjugates_loop df [];
  lift (set_column df conjugates).

End Preprocess.

(** The loop of [sort_conjugates]. *)
Fixpoint sort_loop (df : list (Sdf.row * nat)) (acc : list nat * list nat)
    : M (list nat * list nat) :=
  match df with
  | [] => ret acc
  | r :: rest =>
      let '(prot, deprot) := acc in
      let indx := Sdf.marvin_atom r.1 in
      let mol := Sdf.ROMol r.1 in
      let conj := r.2 in
      atom ← GetAtomWithIdx mol indx;
      let charge_mol := FormalCharge atom in
      atom ← GetAtomWithIdx conj indx;
      let charge_conj := FormalCharge atom in
      if (charge_mol <? charge_conj)%Z then
        sort_loop rest (prot ++ [conj], deprot ++ [mol])
      else if (charge_conj <? charge_mol)%Z then
        sort_loop rest (prot ++ [mol], deprot ++ [conj])
      else sort_loop rest (prot, deprot)
  end.

(** [sort_conjugates(df)] *)
Definition sort_conjugates (df : list (Sdf.row * nat)) : M (list Prepared.row) :=
  lists ← sort_loop df ([], []);
  df ← lift (set_column df lists.1);
  df ← lift (set_column df lists.2);
  ret (map (λ r, Prepared.mk r.1.2 r.2 (Sdf.marvin_atom r.1.1.1) (Sdf.marvin_pKa r.1.1.1)) df).

(** The two preprocessing steps of [preprocess] that follow the import. *)
Definition preprocess_frame (valence_of : Mol → nat → option (nat * nat))
    (df : list Sdf.row) : M (list Prepared.row) :=
  df ← conjugates_to_dataframe valence_of df;
  sort_conjugates df.

(** The formal charge of atom [i] of the molecule a reference points to. *)
Definition site_charge (h : list Mol) (mol i : nat) : option Z :=
  m ← h !! mol; charge_at m i.

(** The row [sort_conjugates] makes of a row whose two charges differ. *)
Definition oriented (h : list Mol) (r : Sdf.row * nat) : option Prepared.row :=
  match site_charge h (Sdf.ROMol r.1) (Sdf.marvin_atom r.1),
        site_charge h r.2 (Sdf.marvin_atom r.1) with
  | Some charge_mol, Some charge_conj =>
      if (charge_mol <? charge_conj)%Z then
        Some (Prepared.mk r.2 (Sdf.ROMol r.1) (Sdf.marvin_atom r.1) (Sdf.marvin_pKa r.1))
      else if (charge_conj <? charge_mol)%Z then
        Some (Prepared.mk (Sdf.ROMol r.1) r.2 (Sdf.marvin_atom r.1) (Sdf.marvin_pKa r.1))
      else None
  | _, _ => None
  end.

(** The molecules of [mols] form a chain of conjugate pairs in the store
    [h]: consecutive molecules differ only at the atom listed for the step,
    the earlier one holding the proton. *)
Definition conjugate_chain (h : list Mol) (mols : list nat) (atoms : list nat) : Prop :=
  Forall2 (λ p i, ∃ P D, h !! p.1 = Some P ∧ h !! p.2 = Some D ∧ differ_only_at i P D)
          (mol_tuples mols) atoms.

(** ** data.py: the train/validation split *)

(** The position a slice bound stands for in a list of length [n]: a
    negative bound counts from the end, and bounds are clipped to the
    list. *)
Definition slice_bound (n : nat) (k : Z) : nat :=
  if (0 <=? k)%Z then Z.to_nat k `min` n else Z.to_nat (Z.of_nat n + k).

(** [l[:k]] and [l[k:]] *)
Definition slice_to {A} (l : list A) (k : Z) : list A := take (slice_bound (length l) k) l.
Definition slice_from {A} (l : list A) (k : Z) : list A := drop (slice_bound (length l) k) l.

(** Comparisons of rationals are decidable. *)
Global Instance Qlt_decision (x y : Q) : Decision (x < y)%Q.
Proof. destruct (Qlt_le_dec x y) as [H|H]; [left; exact H|right; by apply Qle_not_lt]. Defined.

(** [df.iloc[ids, :]]: the rows at the given positions, in that order *)
Definition iloc {A} (df : list A) (ids : list nat) : exn + list A :=
  for_rows (py_get df) ids.

Section Split.

(** [random.seed(seed)] followed by [random.shuffle(ids)]: the order in
    which the generator leaves the list. *)
Variable seeded_shuffle : Z → list nat → list nat.

(** [round(length * ratio)]: the float product, rounded to an integer. *)
Variable round_product : nat → Q → Z.

(** [train_validation_set_split(df, ratio, seed=42)] *)
Definition train_validation_set_split {A} (df : list A) (ratio : Q) (seed : Z)
    : exn + (list A * list A) :=
  if Qlt_bool 0 ratio && Qlt_bool ratio 1 then
    let length_ := length df in
    let split := round_product length_ ratio in
    let ids := seeded_shuffle seed (seq 0 length_) in
    let train_ids := slice_to ids split in
    let val_ids := slice_from ids split in
    match iloc df train_ids with
    | inl e => inl e
    | inr train_df =>
        match iloc df val_ids with
        | inl e => inl e
        | inr val_df => inr (train_df, val_df)
        end
    end
  else inl AssertionError.

End Split.

(** ** chem.py: the fingerprint array *)

(** A numpy array of integers with one or with two dimensions, the latter
    kept as its rows. *)
Inductive ndarray : Type :=
| Vector (v : list Z)
| Matrix (rows : list (list Z)).

(** [np.vstack((array, fp))] for a one-dimensional [fp]: a one-dimensional
    [array] becomes the first of two rows; the rows must be as long as
    [fp]. *)
Definition np_vstack (array : ndarray) (fp : list Z) : exn + ndarray :=
  match array with
  | Vector v =>
      if length v =? length fp then inr (Matrix [v; fp]) else inl ValueError
  | Matrix rows =>
      if forallb (λ r, length r =? length fp) rows then inr (Matrix (rows ++ [fp]))
      else inl ValueError
  end.

Section Fingerprints.

(** [np.array(GetMorganFingerprintAsBitVect(mol, radius=..., nBits=...,
    useFeatures=...))]: the bits of RDKit's Morgan fingerprint. *)
Variable GetMorganFingerprintAsBitVect : Mol → nat → nat → bool → list Z.

(** The loop of [generate_morgan_fp_array]: [i] counts the molecules seen,
    [array] is the local variable of that name, unbound at first. *)
Fixpoint morgan_loop (mols : list Mol) (useFeatures : bool) (i : nat)
    (array : option ndarray) : exn_util + option ndarray :=
  match mols with
  | [] => inr array
  | mol :: rest =>
      let fp := GetMorganFingerprintAsBitVect mol 3 4096 useFeatures in
      if i =? 0 then morgan_loop rest useFeatures (i + 1) (Some (Vector fp))
      else
        match array with
        | None => inl UnboundLocalError
        | Some array =>
            match np_vstack array fp with
            | inl e => inl (Raised e)
            | inr array => morgan_loop rest useFeatures (i + 1) (Some array)
            end
        end
  end.

(** [generate_morgan_fp_array(df, mol_column, nBits=4096, radius=3,
    useFeatures=True)], on the column [df[mol_column]]. *)
Definition generate_morgan_fp_array (column : list Mol) (nBits radius : nat)
    (useFeatures : bool) : exn_util + ndarray :=
  match morgan_loop column useFeatures 0 None with
  | inl e => inl e
  | inr None => inl UnboundLocalError
  | inr (Some array) => inr array
  end.

End Fingerprints.

Global Instance FeatVal_eq_dec : EqDecision FeatVal.
Proof. solve_decision. Defined.

(** ** query.py: writing the result of a query *)

(** What [sdf_query] changes while it writes: the properties of the
    molecules ([SetProp], [GetProp]), a dictionary from names to strings for
    each molecule; the records handed to the writer, each the molecule and
    the properties it has at that moment; and the counter [count]. *)
Record sdf_state : Type := mkSdfState {
  props : nat → list (string * string);
  written : list (nat * list (string * string));
  count : nat
}.

Definition SetProp (mol : nat) (key value : string) (st : sdf_state) : sdf_state :=
  mkSdfState (λ r, if r =? mol then dict_set (props st r) key value else props st r)
             (written st) (count st).

Definition GetProp (mol : nat) (key : string) (st : sdf_state) : exn + string :=
  dict_get (props st mol) key.

(** [writer.write(mol)] *)
Definition write (mol : nat) (st : sdf_state) : sdf_state :=
  mkSdfState (props st) (written st ++ [(mol, props st mol)]) (count st).

(** [count += 1] *)
Definition count_up (st : sdf_state) : sdf_state :=
  mkSdfState (props st) (written st) (count st + 1).

Section SdfQuery.

(** [f"{pka}"] for a float and [f"{n}"] for an integer *)
Variable str_float : float → string.
Variable str_int : nat → string.

(** The loop of the branch [merged_output == True]. *)
Fixpoint merged_loop (mol : nat) (items : list (nat * (float * nat))) (st : sdf_state)
    : sdf_state :=
  match items with
  | [] => st
  | (ii, (pka, atom)) :: rest =>
      let st := count_up st in
      let st := SetProp mol ("pka_" ++ str_int ii) (str_float pka) st in
      let st := SetProp mol ("atom_idx_" ++ str_int ii) (str_int atom) st in
      let st := write mol st in
      merged_loop mol rest st
  end.

(** The loop of the other branch. *)
Fixpoint records_loop (items : list (nat * (nat * nat * float * nat))) (st : sdf_state)
    : sdf_state * (exn + unit) :=
  match items with
  | [] => (st, inr tt)
  | (ii, (mol, pka, atom)) :: rest =>
      let st := count_up st in
      let mol := mol.1 in
      match GetProp mol "_Name" st with
      | inl e => (st, inl e)
      | inr name =>
          let st := SetProp mol "ID" (name ++ "_" ++ str_int ii) st in
          let st := SetProp mol "pka" (str_float pka) st in
          let st := SetProp mol "atom_idx" (str_int atom) st in
          let st := SetProp mol "pka-number" (str_int ii) st in
          let st := write mol st in
          records_loop rest st
      end
  end.

(** The part of the body of the loop of [sdf_query] that follows the query:
    from [mols = res["mol"]] to the last [writer.write(mol)]. *)
Definition write_result (res : query_result) (merged_output : bool) (st : sdf_state)
    : sdf_state * (exn + unit) :=
  let mols := res_mol res in
  let pkas := res_pka res in
  let atoms := res_atom res in
  if merged_output then
    match py_get mols 0 with
    | inl e => (st, inl e)
    | inr first =>
        let mol := first.1 in
        match GetProp mol "_Name" st with
        | inl e => (st, inl e)
        | inr name =>
            let st := SetProp mol "ID" name st in
            (merged_loop mol (enumerate (zip pkas atoms)) st, inr tt)
        end
    end
  else records_loop (enumerate (zip (zip mols pkas) atoms)) st.

End SdfQuery.

(** * Proofs *)

(** ** Comparisons *)

Lemma Qlt_bool_iff x y : Qlt_bool x y = true ↔ (x < y)%Q.
Proof.
  unfold Qlt_bool. rewrite negb_true_iff.
  split.
  - intros H. apply Qnot_le_lt. intros Hle.
    apply Qle_bool_iff in Hle. congruence.
  - intros H. destruct (Qle_bool y x) eqn:E; [|done].
    apply Qle_bool_iff in E. exfalso. revert E. apply Qlt_not_le, H.
Qed.

Lemma Qlt_bool_false_iff x y : Qlt_bool x y = false ↔ (y <= x)%Q.
Proof.
  unfold Qlt_bool. rewrite negb_false_iff. apply Qle_bool_iff.
Qed.

(** ** The monad and the store *)

Lemma bind_inr {A B} (c : M A) (k : A → M B) h h' x :
  c h = (h', inr x) → (c ≫= k) h = k x h'.
Proof. intros H. unfold mbind, M_bind, bind. by rewrite H. Qed.

Lemma bind_inl {A B} (c : M A) (k : A → M B) h h' e :
  c h = (h', inl e) → (c ≫= k) h = (h', inl e).
Proof. intros H. unfold mbind, M_bind, bind. by rewrite H. Qed.

Lemma ret_run {A} (x : A) h : ret x h = (h, inr x).
Proof. done. Qed.

Lemma lookup_snoc_new (h : heap) m : (h ++ [m]) !! length h = Some m.
Proof. rewrite lookup_app_r by lia. by rewrite Nat.sub_diag. Qed.

Lemma insert_snoc_new (h : heap) m m' : <[length h := m']> (h ++ [m]) = h ++ [m'].
Proof. rewrite insert_app_r_alt by lia. by rewrite Nat.sub_diag. Qed.

Lemma deref_run h r m : h !! r = Some m → deref r h = (h, inr m).
Proof. intros H. unfold deref. by rewrite H. Qed.

Lemma modify_run h r m f :
  h !! r = Some m → modify r f h = (<[r := f m]> h, inr tt).
Proof. intros H. unfold modify. by rewrite H. Qed.

Lemma modify_new (h : heap) m f :
  modify (length h) f (h ++ [m]) = (h ++ [f m], inr tt).
Proof.
  rewrite (modify_run _ _ m) by apply lookup_snoc_new.
  by rewrite insert_snoc_new.
Qed.

Lemma deepcopy_run h r m : h !! r = Some m → deepcopy r h = (h ++ [m], inr (length h)).
Proof. intros H. unfold deepcopy. by rewrite (bind_inr _ _ _ _ _ (deref_run _ _ _ H)). Qed.

Lemma RWMol_run h r m :
  h !! r = Some m → RWMol r h = (h ++ [with_sssAtoms None m], inr (length h)).
Proof. intros H. unfold RWMol. by rewrite (bind_inr _ _ _ _ _ (deref_run _ _ _ H)). Qed.

Lemma GetAtomWithIdx_run h r m i :
  h !! r = Some m →
  GetAtomWithIdx r i h =
    (h, match atoms m !! i with Some a => inr a | None => inl RangeError end).
Proof.
  intros H. unfold GetAtomWithIdx.
  rewrite (bind_inr _ _ _ _ _ (deref_run _ _ _ H)). by destruct (atoms m !! i).
Qed.

Lemma alter_atom_put f i m a :
  atoms m !! i = Some a → alter_atom f i m = put_atom i (f a) m.
Proof.
  intros H. unfold alter_atom, put_atom. f_equal.
  apply list_eq. intros j. destruct (decide (i = j)) as [->|Hne].
  - rewrite list_lookup_alter_eq, H. simpl.
    by rewrite list_lookup_insert_eq by (by eapply lookup_lt_Some).
  - by rewrite list_lookup_alter_ne, list_lookup_insert_ne.
Qed.

Lemma put_atom_put i a a' m : put_atom i a' (put_atom i a m) = put_atom i a' m.
Proof. unfold put_atom, with_atoms. simpl. by rewrite list_insert_insert_eq. Qed.

Lemma atoms_put_lookup i a m :
  i < length (atoms m) → atoms (put_atom i a m) !! i = Some a.
Proof. intros H. simpl. by apply list_lookup_insert_eq. Qed.

Lemma UpdatePropertyCache_new valence_of (h : heap) m i :
  UpdatePropertyCache valence_of (length h) i (h ++ [m]) =
    match refresh valence_of m i with
    | Some m' => (h ++ [m'], inr tt)
    | None => (h ++ [m], inl AtomValenceException)
    end.
Proof.
  unfold UpdatePropertyCache, refresh.
  rewrite (bind_inr _ _ _ _ _ (deref_run _ _ _ (lookup_snoc_new h m))).
  destruct (valence_of m i) as [[ev ih]|]; [|done].
  apply modify_new.
Qed.

(** ** The candidate loop of [get_possible_reactions] *)

Section ReactionFacts.
Variable valence_of : Mol → nat → option (nat * nat).

Lemma protonate_new (h : heap) m i a (acc : list pair_tuple) (p : pair_tuple) :
  atoms m !! i = Some a →
  (SetFormalCharge (length h) i (FormalCharge a + 1) ;;
   (if (TotalNumHs a =? 0) || (0 <? NumExplicitHs a)
    then SetNumExplicitHs (length h) i (NumExplicitHs a + 1) else ret tt) ;;
   UpdatePropertyCache valence_of (length h) i ;;
   ret (acc ++ [p])) (h ++ [m]) =
  match refresh valence_of (put_atom i (protonated_atom a) m) i with
  | Some P => (h ++ [P], inr (acc ++ [p]))
  | None => (h ++ [put_atom i (protonated_atom a) m], inl AtomValenceException)
  end.
Proof.
  intros Ha.
  erewrite bind_inr; [|apply modify_new].
  rewrite (alter_atom_put _ _ _ _ Ha).
  assert (Hlt : i < length (atoms m)) by (by eapply lookup_lt_Some).
  unfold protonated_atom.
  destruct ((TotalNumHs a =? 0) || (0 <? NumExplicitHs a)).
  - erewrite bind_inr; [|apply modify_new].
    rewrite (alter_atom_put _ _ _ _ (atoms_put_lookup _ _ _ Hlt)), put_atom_put.
    set (P := put_atom i _ m). unfold mbind, M_bind, bind.
    rewrite UpdatePropertyCache_new.
    by destruct (refresh valence_of P i).
  - erewrite bind_inr; [|apply ret_run].
    set (P := put_atom i _ m). unfold mbind, M_bind, bind.
    rewrite UpdatePropertyCache_new.
    by destruct (refresh valence_of P i).
Qed.

Lemma deprotonate_new (h : heap) m i a (acc : list pair_tuple) (p : pair_tuple) :
  atoms m !! i = Some a →
  (SetFormalCharge (length h) i (FormalCharge a - 1) ;;
   (if 0 <? NumExplicitHs a
    then SetNumExplicitHs (length h) i (NumExplicitHs a - 1) else ret tt) ;;
   UpdatePropertyCache valence_of (length h) i ;;
   ret (acc ++ [p])) (h ++ [m]) =
  match refresh valence_of (put_atom i (deprotonated_atom a) m) i with
  | Some P => (h ++ [P], inr (acc ++ [p]))
  | None => (h ++ [put_atom i (deprotonated_atom a) m], inl AtomValenceException)
  end.
Proof.
  intros Ha.
  erewrite bind_inr; [|apply modify_new].
  rewrite (alter_atom_put _ _ _ _ Ha).
  assert (Hlt : i < length (atoms m)) by (by eapply lookup_lt_Some).
  unfold deprotonated_atom.
  destruct (0 <? NumExplicitHs a).
  - erewrite bind_inr; [|apply modify_new].
    rewrite (alter_atom_put _ _ _ _ (atoms_put_lookup _ _ _ Hlt)), put_atom_put.
    set (P := put_atom i _ m). unfold mbind, M_bind, bind.
    rewrite UpdatePropertyCache_new.
    by destruct (refresh valence_of P i).
  - erewrite bind_inr; [|apply ret_run].
    set (P := put_atom i _ m). unfold mbind, M_bind, bind.
    rewrite UpdatePropertyCache_new.
    by destruct (refresh valence_of P i).
Qed.

Lemma reaction_step_range mol i acc h m :
  h !! mol = Some m → atoms m !! i = None →
  reaction_step valence_of mol i acc h =
    (<[mol := tag i m]> h ++ [tag i m], inl RangeError).
Proof.
  intros Hm Ha. destruct acc as [acid base]. unfold reaction_step.
  assert (Hlt : mol < length h) by (by eapply lookup_lt_Some).
  erewrite bind_inr; [|by apply modify_run].
  fold (tag i m).
  erewrite bind_inr; [|by apply deepcopy_run, list_lookup_insert_eq].
  erewrite bind_inl; [done|].
  erewrite GetAtomWithIdx_run by apply lookup_snoc_new.
  simpl. by rewrite Ha.
Qed.

Lemma reaction_step_run mol i acid base h m a :
  h !! mol = Some m → atoms m !! i = Some a →
  reaction_step valence_of mol i (acid, base) h =
    let h0 := <[mol := tag i m]> h in
    let X := step_acid_obj valence_of m i a in
    let acid' := if acid_product valence_of m i is Some _
                 then acid ++ [(length h, mol, i)] else acid in
    let D := put_atom i (deprotonated_atom a) (tag i m) in
    if base_cond a then
      match refresh valence_of D i with
      | Some D' => (h0 ++ [X; D'], inr (acid', base ++ [(mol, S (length h), i)]))
      | None => (h0 ++ [X; D], inl AtomValenceException)
      end
    else (h0 ++ [X; tag i m], inr (acid', base)).
Proof.
  intros Hm Ha. unfold reaction_step.
  assert (Hlt : mol < length h) by (by eapply lookup_lt_Some).
  erewrite bind_inr; [|by apply modify_run].
  fold (tag i m). set (h0 := <[mol := tag i m]> h).
  assert (H0 : h0 !! mol = Some (tag i m)) by (by apply list_lookup_insert_eq).
  assert (Hl0 : length h0 = length h) by apply length_insert.
  erewrite bind_inr; [|by apply deepcopy_run].
  erewrite bind_inr; [|by erewrite GetAtomWithIdx_run by apply lookup_snoc_new; simpl; rewrite Ha].
  (* the acid branch *)
  assert (Hacid :
    (if acid_cond a
     then try_except
            (SetFormalCharge (length h0) i (FormalCharge a + 1) ;;
             (if (TotalNumHs a =? 0) || (0 <? NumExplicitHs a)
              then SetNumExplicitHs (length h0) i (NumExplicitHs a + 1) else ret tt) ;;
             UpdatePropertyCache valence_of (length h0) i ;;
             ret (acid ++ [(length h0, mol, i)]))
            (ret acid)
     else ret acid) (h0 ++ [tag i m]) =
    (h0 ++ [step_acid_obj valence_of m i a],
     inr (if acid_product valence_of m i is Some _ then acid ++ [(length h, mol, i)] else acid))).
  { unfold step_acid_obj, acid_product. rewrite Ha.
    destruct (acid_cond a); [|done].
    unfold try_except. rewrite (protonate_new h0 (tag i m) i a) by done.
    rewrite Hl0.
    by destruct (refresh valence_of (put_atom i (protonated_atom a) (tag i m)) i). }
  erewrite bind_inr; [|exact Hacid].
  set (X := step_acid_obj valence_of m i a).
  assert (H1 : (h0 ++ [X]) !! mol = Some (tag i m)).
  { rewrite lookup_app_l by lia. done. }
  erewrite bind_inr; [|by apply deepcopy_run].
  erewrite bind_inr; [|by erewrite GetAtomWithIdx_run by apply lookup_snoc_new; simpl; rewrite Ha].
  cbv zeta.
  destruct (base_cond a).
  - unfold mbind at 1, M_bind, bind.
    rewrite (deprotonate_new (h0 ++ [X]) (tag i m) i a) by done.
    rewrite length_app, Hl0. simpl. rewrite Nat.add_1_r.
    destruct (refresh valence_of (put_atom i (deprotonated_atom a) (tag i m)) i);
      by rewrite <- app_assoc.
  - erewrite bind_inr; [|apply ret_run].
    by rewrite <- app_assoc.
Qed.

Lemma reaction_step_facts mol i acid base h m a :
  h !! mol = Some m → atoms m !! i = Some a →
  ∃ X Y,
    reaction_step valence_of mol i (acid, base) h =
      (<[mol := tag i m]> h ++ [X; Y],
       if decide (site_passes valence_of m i)
       then inr (acid ++ new_acid valence_of mol (length h) m i, base ++ new_base mol (length h) m i)
       else inl AtomValenceException)
    ∧ (∀ P, acid_product valence_of m i = Some P → X = P)
    ∧ (∀ D, base_product valence_of m i = Some D → Y = D).
Proof.
  intros Hm Ha. rewrite (reaction_step_run _ _ _ _ _ _ _ Hm Ha). cbv zeta.
  unfold new_acid, new_base, step_acid_obj.
  set (D := put_atom i (deprotonated_atom a) (tag i m)).
  assert (Hbs : base_site m i = base_cond a) by (unfold base_site; by rewrite Ha).
  assert (Hbp : base_product valence_of m i =
                if base_cond a then refresh valence_of D i else None)
    by (unfold base_product; by rewrite Ha).
  assert (HX : ∀ P, acid_product valence_of m i = Some P →
               (if acid_cond a
                then match refresh valence_of (put_atom i (protonated_atom a) (tag i m)) i with
                     | Some P' => P' | None => put_atom i (protonated_atom a) (tag i m) end
                else tag i m) = P).
  { unfold acid_product. rewrite Ha. destruct (acid_cond a); [|done].
    intros P ->. done. }
  assert (Hacid : (if acid_product valence_of m i is Some _
                   then acid ++ [(length h, mol, i)] else acid) =
                  acid ++ (if acid_product valence_of m i is Some _
                           then [(length h, mol, i)] else [])).
  { destruct (acid_product valence_of m i); [done|by rewrite app_nil_r]. }
  rewrite Hacid, Hbs, Hbp.
  destruct (base_cond a).
  - destruct (refresh valence_of D i) as [D'|] eqn:HD.
    + eexists _, D'. split_and!; [|exact HX|by intros ? [= ->]].
      rewrite decide_True; [done|]. split; [by rewrite Ha|].
      intros _. rewrite Hbp. by eexists.
    + eexists _, D. split_and!; [|exact HX|done].
      rewrite decide_False; [done|]. intros [_ H].
      rewrite Hbs, Hbp in H. destruct (H eq_refl) as [? ?]. done.
  - eexists _, (tag i m). split_and!; [|exact HX|done].
    rewrite decide_True; [by rewrite app_nil_r|]. split; [by rewrite Ha|].
    rewrite Hbs. done.
Qed.

Lemma with_sssAtoms_id m : with_sssAtoms (sssAtoms m) m = m.
Proof. by destruct m. Qed.

Lemma last_tag_cons i rest m : last_tag (i :: rest) m = last_tag rest (tag i m).
Proof.
  unfold last_tag. destruct rest as [|n rest]; [reflexivity|].
  change (list.last (i :: n :: rest)) with (list.last (n :: rest)).
  destruct (list.last (n :: rest)) eqn:E; [done|].
  by apply last_None in E.
Qed.

Lemma reaction_loop_post mol matches :
  ∀ h m acid base,
    h !! mol = Some m →
    loop_post valence_of mol m h acid base matches
      (reaction_loop valence_of mol matches (acid, base) h).1
      (reaction_loop valence_of mol matches (acid, base) h).2.
Proof.
  induction matches as [|i rest IH]; intros h m acid base Hm.
  - simpl. split_and!;
      [lia|done|exists (sssAtoms m); by rewrite with_sssAtoms_id
      |done|by rewrite with_sssAtoms_id|].
    exists [], []. by rewrite !app_nil_r.
  - assert (Hlt : mol < length h) by (by eapply lookup_lt_Some).
    cbn [reaction_loop].
    destruct (atoms m !! i) as [a|] eqn:Ha.
    + destruct (reaction_step_facts mol i acid base h m a Hm Ha) as (X & Y & Hrun & HX & HY).
      set (h1 := <[mol := tag i m]> h ++ [X; Y]) in *.
      assert (Hl1 : length h1 = S (S (length h))).
      { unfold h1. rewrite length_app, length_insert. simpl. lia. }
      assert (Hold : ∀ j, j < length h → j ≠ mol → h1 !! j = h !! j).
      { intros j Hj Hne. unfold h1.
        rewrite lookup_app_l by (rewrite length_insert; lia).
        by rewrite list_lookup_insert_ne. }
      assert (Hm1 : h1 !! mol = Some (tag i m)).
      { unfold h1. rewrite lookup_app_l by (rewrite length_insert; lia).
        by apply list_lookup_insert_eq. }
      destruct (decide (site_passes valence_of m i)) as [Hpass|Hfail].
      * erewrite bind_inr; [|exact Hrun].
        specialize (IH h1 (tag i m) (acid ++ new_acid valence_of mol (length h) m i)
                       (base ++ new_base mol (length h) m i) Hm1).
        destruct (reaction_loop valence_of mol rest _ h1) as [h' r].
        destruct IH as (Hlen & Hframe & [s Hs] & Hr). simpl in *.
        split_and!; [lia| |by exists s|].
        { intros j Hj Hne. rewrite Hframe by lia. by apply Hold. }
        destruct r as [e|[acid' base']].
        { destruct Hr as [Hr He]. split; [|done].
          intros HF. apply Hr. by apply Forall_cons_1 in HF as [_ ?]. }
        destruct Hr as (HF & Hmol & na & nb & -> & -> & Hna & Hnb & Hao & Hbo).
        split_and!; [by constructor|by rewrite last_tag_cons|].
        exists (new_acid valence_of mol (length h) m i ++ na), (new_base mol (length h) m i ++ nb).
        rewrite !app_assoc. split_and!; [done|done| | | |].
        -- rewrite fmap_app, Hna, filter_cons. unfold new_acid.
           destruct (acid_product valence_of m i) eqn:E.
           ++ rewrite decide_True by (by eexists). done.
           ++ rewrite decide_False by (by intros [? ?]). done.
        -- rewrite fmap_app, Hnb, filter_cons. unfold new_base.
           destruct (base_site m i) eqn:E.
           ++ rewrite decide_True by exact I. done.
           ++ rewrite decide_False by (intros H; exact H). done.
        -- apply Forall_app. split.
           ++ unfold new_acid. destruct (acid_product valence_of m i) as [P|] eqn:E; [|done].
              apply Forall_singleton. unfold acid_new_ok. simpl.
              rewrite Hframe by lia.
              assert (h1 !! length h = Some P) as ->.
              { unfold h1. rewrite lookup_app_r by (rewrite length_insert; lia).
                rewrite length_insert, Nat.sub_diag. simpl. f_equal. by apply HX. }
              split_and!; [done|lia|by eexists|by rewrite E].
           ++ revert Hao; apply List.Forall_impl.
              intros p (? & ? & ? & ?). split_and!; [done|lia|done|done].
        -- apply Forall_app. split.
           ++ unfold new_base. destruct (base_site m i) eqn:E; [|done].
              destruct Hpass as [_ Hpass]. destruct (Hpass E) as [D HD].
              apply Forall_singleton. unfold base_new_ok. simpl.
              rewrite Hframe by lia.
              assert (h1 !! S (length h) = Some D) as ->.
              { unfold h1. rewrite lookup_app_r by (rewrite length_insert; lia).
                rewrite length_insert.
                replace (S (length h) - length h) with 1 by lia.
                simpl. f_equal. by apply HY. }
              split_and!; [done|lia|by eexists|by rewrite HD].
           ++ revert Hbo; apply List.Forall_impl.
              intros p (? & ? & ? & ?). split_and!; [done|lia|done|done].
      * erewrite bind_inl; [|exact Hrun]. simpl.
        split_and!; [lia|done|by exists (Some [i])| |by right].
        intros HF. by apply Forall_cons_1 in HF as [? _].
    + erewrite bind_inl; [|by apply reaction_step_range]. simpl.
      split_and!.
      * rewrite length_app, length_insert. lia.
      * intros j Hj Hne. rewrite lookup_app_l by (rewrite length_insert; lia).
        by rewrite list_lookup_insert_ne.
      * exists (Some [i]). rewrite lookup_app_l by (rewrite length_insert; lia).
        by apply list_lookup_insert_eq.
      * intros HF. apply Forall_cons_1 in HF as [[[? ?] _] _].
        congruence.
      * by left.
Qed.
End ReactionFacts.

(** ** Comparing floats *)

Lemma nan_or_not (x : float) : x = NaN ∨ x ≠ NaN.
Proof. destruct x; [by left|by right..]. Qed.

Lemma flt_irrefl x : flt x x = false.
Proof.
  destruct x as [| |q|]; try done. simpl. apply Qlt_bool_false_iff. lra.
Qed.

Lemma flt_trans x y z : flt x y = true → flt y z = true → flt x z = true.
Proof.
  destruct x as [| |p|], y as [| |q|], z as [| |r|]; simpl; try done.
  rewrite !Qlt_bool_iff. lra.
Qed.

(** A float that is not NaN lies above [x] or below [z] when [x < z]. *)
Lemma flt_cotrans x y z : flt x z = true → y ≠ NaN → flt x y = true ∨ flt y z = true.
Proof.
  destruct x as [| |p|], y as [| |q|], z as [| |r|]; simpl; try done; try tauto.
  rewrite !Qlt_bool_iff. intros H _. destruct (Qlt_le_dec p q); [by left|right; lra].
Qed.

Lemma flt_asym x y : flt x y = true → flt y x = false.
Proof.
  intros H. destruct (flt y x) eqn:E; [|done].
  pose proof (flt_trans _ _ _ H E) as Hxx. by rewrite flt_irrefl in Hxx.
Qed.

Lemma flt_not_feq x y : flt x y = true → feq x y = false ∧ feq y x = false.
Proof.
  destruct x as [| |p|], y as [| |q|]; simpl; try done.
  rewrite Qlt_bool_iff. intros H.
  split; apply not_true_is_false; rewrite Qeq_bool_iff; lra.
Qed.

Lemma flt_not_nan x y : flt x y = true → x ≠ NaN ∧ y ≠ NaN.
Proof. by destruct x, y. Qed.

(** Among numbers, [x < y], [x == y] or [x > y]. *)
Lemma flt_trichotomy x y :
  x ≠ NaN → y ≠ NaN → flt x y = true ∨ feq x y = true ∨ flt y x = true.
Proof.
  destruct x as [| |p|], y as [| |q|]; simpl; try done; try tauto.
  intros _ _. rewrite !Qlt_bool_iff, Qeq_bool_iff.
  destruct (Q_dec p q) as [[?|?]|?]; tauto.
Qed.

(** ** [max], [min] and [index] *)

Lemma first_max_singleton x : first_max [x] 0 x.
Proof.
  split_and!; [done| |intros; lia|done].
  intros j y Hj. apply list_lookup_singleton_Some in Hj as [_ <-]. apply flt_irrefl.
Qed.

Lemma first_min_singleton x : first_min [x] 0 x.
Proof.
  split_and!; [done| |intros; lia|done].
  intros j y Hj. apply list_lookup_singleton_Some in Hj as [_ <-]. apply flt_irrefl.
Qed.

(** The running best after a prefix. *)
Lemma fold_max_spec
    (step := λ best item : nat * float, if flt best.2 item.2 then item else best) :
  ∀ xs pre best,
    first_max pre best.1 best.2 →
    let r := fold_left step (imap (λ j y, (length pre + j, y)) xs) best in
    first_max (pre ++ xs) r.1 r.2.
Proof.
  induction xs as [|y xs IH]; intros pre [i best] Hfm.
  - simpl. by rewrite app_nil_r.
  - cbn [imap fold_left]. cbv zeta.
    rewrite (imap_ext _ (λ j y0, (length (pre ++ [y]) + j, y0)))
      by (intros; rewrite length_app; simpl; f_equal; lia).
    replace (pre ++ y :: xs) with ((pre ++ [y]) ++ xs) by (by rewrite <- app_assoc).
    apply IH. clear IH.
    destruct Hfm as (Hi & Hmax & Hfirst & Hnan). cbn [fst snd] in *.
    assert (Hlt : i < length pre) by (by eapply lookup_lt_Some).
    unfold step. cbn [fst snd]. destruct (flt best y) eqn:E; cbn [fst snd].
    + destruct (flt_not_nan _ _ E) as [Hb Hy].
      replace (length pre + 0) with (length pre) by lia. split_and!.
      * rewrite lookup_app_r by lia. by rewrite Nat.sub_diag.
      * intros j z Hj. destruct (decide (j < length pre)).
        -- rewrite lookup_app_l in Hj by done. specialize (Hmax _ _ Hj).
           destruct (flt y z) eqn:Hyz; [|done].
           by rewrite (flt_trans _ _ _ E Hyz) in Hmax.
        -- rewrite lookup_app_r in Hj by lia.
           apply list_lookup_singleton_Some in Hj as [_ <-]. apply flt_irrefl.
      * intros j z Hj Hz. rewrite lookup_app_l in Hz by done.
        destruct (nan_or_not z) as [->|Hz']; [by right|left].
        destruct (flt_cotrans _ z _ E Hz') as [Hbz|Hzy]; [|done].
        by rewrite (Hmax _ _ Hz) in Hbz.
      * intros [H0|H0]; [|done].
        rewrite lookup_app_l in H0 by lia.
        assert (i = 0) as -> by (apply Hnan; by left). congruence.
    + split_and!.
      * by rewrite lookup_app_l.
      * intros j z Hj. destruct (decide (j < length pre)).
        -- rewrite lookup_app_l in Hj by done. by eapply Hmax.
        -- rewrite lookup_app_r in Hj by lia.
           by apply list_lookup_singleton_Some in Hj as [_ <-].
      * intros j z Hj Hz. rewrite lookup_app_l in Hz by lia. by eapply Hfirst.
      * intros [H0|H0]; apply Hnan; [left|by right].
        by rewrite lookup_app_l in H0 by lia.
Qed.

Lemma fold_min_spec
    (step := λ best item : nat * float, if flt item.2 best.2 then item else best) :
  ∀ xs pre best,
    first_min pre best.1 best.2 →
    let r := fold_left step (imap (λ j y, (length pre + j, y)) xs) best in
    first_min (pre ++ xs) r.1 r.2.
Proof.
  induction xs as [|y xs IH]; intros pre [i best] Hfm.
  - simpl. by rewrite app_nil_r.
  - cbn [imap fold_left]. cbv zeta.
    rewrite (imap_ext _ (λ j y0, (length (pre ++ [y]) + j, y0)))
      by (intros; rewrite length_app; simpl; f_equal; lia).
    replace (pre ++ y :: xs) with ((pre ++ [y]) ++ xs) by (by rewrite <- app_assoc).
    apply IH. clear IH.
    destruct Hfm as (Hi & Hmin & Hfirst & Hnan). cbn [fst snd] in *.
    assert (Hlt : i < length pre) by (by eapply lookup_lt_Some).
    unfold step. cbn [fst snd]. destruct (flt y best) eqn:E; cbn [fst snd].
    + destruct (flt_not_nan _ _ E) as [Hy Hb].
      replace (length pre + 0) with (length pre) by lia. split_and!.
      * rewrite lookup_app_r by lia. by rewrite Nat.sub_diag.
      * intros j z Hj. destruct (decide (j < length pre)).
        -- rewrite lookup_app_l in Hj by done. specialize (Hmin _ _ Hj).
           destruct (flt z y) eqn:Hzy; [|done].
           by rewrite (flt_trans _ _ _ Hzy E) in Hmin.
        -- rewrite lookup_app_r in Hj by lia.
           apply list_lookup_singleton_Some in Hj as [_ <-]. apply flt_irrefl.
      * intros j z Hj Hz. rewrite lookup_app_l in Hz by done.
        destruct (nan_or_not z) as [->|Hz']; [by right|left].
        destruct (flt_cotrans _ z _ E Hz') as [Hyz|Hzb]; [done|].
        by rewrite (Hmin _ _ Hz) in Hzb.
      * intros [H0|H0]; [|done].
        rewrite lookup_app_l in H0 by lia.
        assert (i = 0) as -> by (apply Hnan; by left). congruence.
    + split_and!.
      * by rewrite lookup_app_l.
      * intros j z Hj. destruct (decide (j < length pre)).
        -- rewrite lookup_app_l in Hj by done. by eapply Hmin.
        -- rewrite lookup_app_r in Hj by lia.
           by apply list_lookup_singleton_Some in Hj as [_ <-].
      * intros j z Hj Hz. rewrite lookup_app_l in Hz by lia. by eapply Hfirst.
      * intros [H0|H0]; apply Hnan; [left|by right].
        by rewrite lookup_app_l in H0 by lia.
Qed.

Lemma py_max_spec l :
  match py_max l with
  | inl e => l = [] ∧ e = ValueError
  | inr x => first_max l x.1 x.2
  end.
Proof.
  destruct l as [|x xs]; [done|]. cbn [py_max].
  apply (fold_max_spec xs [x] (0, x)), first_max_singleton.
Qed.

Lemma py_min_spec l :
  match py_min l with
  | inl e => l = [] ∧ e = ValueError
  | inr x => first_min l x.1 x.2
  end.
Proof.
  destruct l as [|x xs]; [done|]. cbn [py_min].
  apply (fold_min_spec xs [x] (0, x)), first_min_singleton.
Qed.

(** [index] finds the object that [max] or [min] returned where it is. *)
Lemma py_index_from_spec l : ∀ k i x,
  k ≤ i → i - k < length l →
  (∀ j y, l !! j = Some y → k + j < i → feq y x = false) →
  py_index_from k (i, x) l = inr i.
Proof.
  induction l as [|y ys IH]; intros k i x Hk Hlen Hbefore; [simpl in Hlen; lia|].
  cbn [py_index_from fst snd].
  destruct (decide (k = i)) as [->|Hne].
  - by rewrite Nat.eqb_refl.
  - rewrite (proj2 (Nat.eqb_neq _ _) Hne), (Hbefore 0 y eq_refl) by lia. cbn [orb].
    apply IH; [lia|simpl in Hlen; lia|].
    intros j z Hj Hlt. apply (Hbefore (S j)); [done|lia].
Qed.

Lemma py_index_first_max l i x : first_max l i x → py_index (i, x) l = inr i.
Proof.
  intros (Hi & _ & Hfirst & _). apply py_index_from_spec; [lia| |].
  - apply lookup_lt_Some in Hi. lia.
  - intros j y Hj Hlt. destruct (Hfirst j y ltac:(lia) Hj) as [H| ->]; [|done].
    by apply flt_not_feq in H as [? _].
Qed.

Lemma py_index_first_min l i x : first_min l i x → py_index (i, x) l = inr i.
Proof.
  intros (Hi & _ & Hfirst & _). apply py_index_from_spec; [lia| |].
  - apply lookup_lt_Some in Hi. lia.
  - intros j y Hj Hlt. destruct (Hfirst j y ltac:(lia) Hj) as [H| ->]; [|done].
    by apply flt_not_feq in H as [_ ?].
Qed.

(** A list has one first largest and one first smallest element. *)
Lemma first_max_unique l i x i' x' : first_max l i x → first_max l i' x' → i = i'.
Proof.
  intros (Hi & Hmax & Hfirst & Hnan) (Hi' & Hmax' & Hfirst' & Hnan').
  destruct (nan_or_not x) as [->|Hx].
  { assert (i = 0) as -> by (apply Hnan; by right). symmetry. apply Hnan'. by left. }
  destruct (nan_or_not x') as [->|Hx'].
  { assert (i' = 0) as -> by (apply Hnan'; by right). apply Hnan. by left. }
  destruct (Nat.lt_trichotomy i i') as [Hlt|[->|Hlt]]; [|done|].
  - destruct (Hfirst' _ _ Hlt Hi) as [H|H]; [|done]. by rewrite (Hmax _ _ Hi') in H.
  - destruct (Hfirst _ _ Hlt Hi') as [H|H]; [|done]. by rewrite (Hmax' _ _ Hi) in H.
Qed.

Lemma first_min_unique l i x i' x' : first_min l i x → first_min l i' x' → i = i'.
Proof.
  intros (Hi & Hmin & Hfirst & Hnan) (Hi' & Hmin' & Hfirst' & Hnan').
  destruct (nan_or_not x) as [->|Hx].
  { assert (i = 0) as -> by (apply Hnan; by right). symmetry. apply Hnan'. by left. }
  destruct (nan_or_not x') as [->|Hx'].
  { assert (i' = 0) as -> by (apply Hnan'; by right). apply Hnan. by left. }
  destruct (Nat.lt_trichotomy i i') as [Hlt|[->|Hlt]]; [|done|].
  - destruct (Hfirst' _ _ Hlt Hi) as [H|H]; [|done]. by rewrite (Hmin _ _ Hi') in H.
  - destruct (Hfirst _ _ Hlt Hi') as [H|H]; [|done]. by rewrite (Hmin' _ _ Hi) in H.
Qed.

Section SearchFacts.
Variable valence_of : Mol → nat → option (nat * nat).
Variable encoded : Type.
Variable paired_mol_data : Mol → Mol → nat → exn + encoded.
Variable predict : list encoded → exn + list float.
Variable np_round : float → Z → float.

(** Scoring reads the store and leaves it as it is. *)
Lemma pair_data_loop_store pair_tuples : ∀ pair_data h,
  (pair_data_loop paired_mol_data pair_tuples pair_data h).1 = h.
Proof.
  induction pair_tuples as [|[[prot deprot] atom_idx] rest IH]; intros pair_data h; [done|].
  cbn [pair_data_loop]. unfold mbind, M_bind, bind, deref, lift.
  destruct (h !! prot); [|done]. destruct (h !! deprot); [|done].
  destruct (paired_mol_data _ _ _); [done|]. apply IH.
Qed.

Lemma match_pka_store pair_tuples h :
  (match_pka paired_mol_data predict np_round pair_tuples h).1 = h.
Proof.
  unfold match_pka, mbind, M_bind, bind, lift.
  pose proof (pair_data_loop_store pair_tuples [] h) as H.
  destruct (pair_data_loop _ _ _ _) as [h' [e|data]]; simpl in H; subst h'; [done|].
  by destruct (predict data).
Qed.

(** What [match_pka] returns is what [predict] returned, each value passed
    through [np.round]. *)
Lemma match_pka_rounded pair_tuples h scores :
  (match_pka paired_mol_data predict np_round pair_tuples h).2 = inr scores →
  ∃ data raw, predict data = inr raw ∧ scores = map (λ x, np_round x 3%Z) raw.
Proof.
  unfold match_pka, mbind, M_bind, bind, lift.
  destruct (pair_data_loop _ _ _ _) as [h' [e|data]]; [done|].
  destruct (predict data) as [e|raw] eqn:E; [done|].
  intros [= <-]. by exists data, raw.
Qed.

Lemma match_pka_eta pair_tuples h :
  match_pka paired_mol_data predict np_round pair_tuples h
  = (h, (match_pka paired_mol_data predict np_round pair_tuples h).2).
Proof.
  rewrite <- (match_pka_store pair_tuples h) at 2. by destruct (match_pka _ _ _ _ _).
Qed.

(** What [acid_sequence] does, case by case. *)
Lemma acid_sequence_run acid_pairs mols pkas atoms h :
  acid_sequence paired_mol_data predict np_round acid_pairs (mols, pkas, atoms) h =
    (h,
     if 0 <? length acid_pairs then
       match (match_pka paired_mol_data predict np_round acid_pairs h).2 with
       | inl e => inl e
       | inr acid_pkas =>
           match py_max acid_pkas with
           | inl e => inl e
           | inr pka =>
               if flt pka.2 (Fin (1 # 2)) then inr (mols, pkas, atoms)
               else match acid_pairs !! pka.1 with
                    | Some p => inr (p.1.1 :: mols, pka.2 :: pkas, p.2 :: atoms)
                    | None => inl IndexError
                    end
           end
       end
     else inr (mols, pkas, atoms)).
Proof.
  unfold acid_sequence. destruct (0 <? length acid_pairs); [|done].
  unfold mbind, M_bind, bind. rewrite match_pka_eta. cbn [snd].
  destruct ((match_pka _ _ _ _ _).2) as [e|acid_pkas]; [done|].
  unfold lift, py_get.
  pose proof (py_max_spec acid_pkas) as Hmax.
  destruct (py_max acid_pkas) as [e|[i pka]]; [done|]. cbn [fst snd] in *.
  destruct (flt pka (Fin (1 # 2))); [done|].
  rewrite (py_index_first_max _ _ _ Hmax).
  by destruct (acid_pairs !! i).
Qed.

Lemma base_sequence_run base_pairs mols pkas atoms h :
  base_sequence paired_mol_data predict np_round base_pairs (mols, pkas, atoms) h =
    (h,
     if 0 <? length base_pairs then
       match (match_pka paired_mol_data predict np_round base_pairs h).2 with
       | inl e => inl e
       | inr base_pkas =>
           match py_min base_pkas with
           | inl e => inl e
           | inr pka =>
               if flt (Fin (27 # 2)) pka.2 then inr (mols, pkas, atoms)
               else match base_pairs !! pka.1 with
                    | Some p => inr (mols ++ [p.1.2], pkas ++ [pka.2], atoms ++ [p.2])
                    | None => inl IndexError
                    end
           end
       end
     else inr (mols, pkas, atoms)).
Proof.
  unfold base_sequence. destruct (0 <? length base_pairs); [|done].
  unfold mbind, M_bind, bind. rewrite match_pka_eta. cbn [snd].
  destruct ((match_pka _ _ _ _ _).2) as [e|base_pkas]; [done|].
  unfold lift, py_get.
  pose proof (py_min_spec base_pkas) as Hmin.
  destruct (py_min base_pkas) as [e|[i pka]]; [done|]. cbn [fst snd] in *.
  destruct (flt (Fin (27 # 2)) pka); [done|].
  rewrite (py_index_first_min _ _ _ Hmin).
  by destruct (base_pairs !! i).
Qed.
End SearchFacts.

(** ** What the products look like *)

Section ProductFacts.
Variable valence_of : Mol → nat → option (nat * nat).

Lemma refresh_atoms m i m' :
  refresh valence_of m i = Some m' →
  bonds m' = bonds m ∧ sssAtoms m' = sssAtoms m ∧
  length (atoms m') = length (atoms m) ∧
  (∀ j, j ≠ i → atoms m' !! j = atoms m !! j) ∧
  (∀ a, atoms m !! i = Some a →
     ∃ ev ih, atoms m' !! i = Some (with_cache ev ih a)).
Proof.
  unfold refresh. destruct (valence_of m i) as [[ev ih]|]; [|done].
  intros [= <-]. simpl. split_and!; [done|done|by rewrite length_alter| |].
  - intros j Hj. by rewrite list_lookup_alter_ne.
  - intros a Ha. exists ev, ih. by rewrite list_lookup_alter_eq, Ha.
Qed.

Lemma acid_product_spec m i P :
  acid_product valence_of m i = Some P →
  ∃ a ev ih,
    atoms m !! i = Some a ∧ acid_cond a = true ∧
    atoms P !! i = Some (with_cache ev ih (protonated_atom a)) ∧
    (∀ j, j ≠ i → atoms P !! j = atoms m !! j) ∧
    length (atoms P) = length (atoms m) ∧ bonds P = bonds m.
Proof.
  unfold acid_product. destruct (atoms m !! i) as [a|] eqn:Ha; [|done].
  destruct (acid_cond a) eqn:Hc; [|done].
  intros HP. apply refresh_atoms in HP as (Hb & _ & Hl & Hne & Hi).
  assert (Hlt : i < length (atoms m)) by (by eapply lookup_lt_Some).
  destruct (Hi (protonated_atom a)) as (ev & ih & Hev).
  { simpl. by apply list_lookup_insert_eq. }
  exists a, ev, ih. split_and!; [done|done|done| | |done].
  - intros j Hj. rewrite Hne by done. simpl. by rewrite list_lookup_insert_ne.
  - rewrite Hl. simpl. by rewrite length_insert.
Qed.

Lemma base_product_spec m i P :
  base_product valence_of m i = Some P →
  ∃ a ev ih,
    atoms m !! i = Some a ∧ base_cond a = true ∧
    atoms P !! i = Some (with_cache ev ih (deprotonated_atom a)) ∧
    (∀ j, j ≠ i → atoms P !! j = atoms m !! j) ∧
    length (atoms P) = length (atoms m) ∧ bonds P = bonds m.
Proof.
  unfold base_product. destruct (atoms m !! i) as [a|] eqn:Ha; [|done].
  destruct (base_cond a) eqn:Hc; [|done].
  intros HP. apply refresh_atoms in HP as (Hb & _ & Hl & Hne & Hi).
  assert (Hlt : i < length (atoms m)) by (by eapply lookup_lt_Some).
  destruct (Hi (deprotonated_atom a)) as (ev & ih & Hev).
  { simpl. by apply list_lookup_insert_eq. }
  exists a, ev, ih. split_and!; [done|done|done| | |done].
  - intros j Hj. rewrite Hne by done. simpl. by rewrite list_lookup_insert_ne.
  - rewrite Hl. simpl. by rewrite length_insert.
Qed.

Lemma FormalCharge_protonated a ev ih :
  FormalCharge (with_cache ev ih (protonated_atom a)) = (FormalCharge a + 1)%Z.
Proof. unfold protonated_atom. by destruct (_ || _). Qed.

Lemma FormalCharge_deprotonated a ev ih :
  FormalCharge (with_cache ev ih (deprotonated_atom a)) = (FormalCharge a - 1)%Z.
Proof. unfold deprotonated_atom. by destruct (0 <? _). Qed.

Lemma AtomicNum_protonated a ev ih :
  AtomicNum (with_cache ev ih (protonated_atom a)) = AtomicNum a.
Proof. unfold protonated_atom. by destruct (_ || _). Qed.

Lemma AtomicNum_deprotonated a ev ih :
  AtomicNum (with_cache ev ih (deprotonated_atom a)) = AtomicNum a.
Proof. unfold deprotonated_atom. by destruct (0 <? _). Qed.

Lemma acid_room_protonated a ev ih :
  acid_cond a = true →
  S (acid_room (with_cache ev ih (protonated_atom a))) = acid_room a.
Proof.
  unfold acid_room, acid_cond.
  rewrite FormalCharge_protonated, AtomicNum_protonated.
  destruct (AtomicNum a =? 7); simpl; lia.
Qed.

Lemma base_room_deprotonated a ev ih :
  base_cond a = true →
  S (base_room (with_cache ev ih (deprotonated_atom a))) = base_room a.
Proof.
  unfold base_room, base_cond. rewrite FormalCharge_deprotonated.
  intros H. apply andb_prop in H as [H _]. apply andb_prop in H as [_ H]. lia.
Qed.

(** Changing one site that occurs in [matches] lowers the sum. *)
Lemma room_sum_lower room m P i matches :
  i ∈ matches →
  S (site_room room P i) = site_room room m i →
  (∀ j, j ≠ i → atoms P !! j = atoms m !! j) →
  room_sum room P matches < room_sum room m matches.
Proof.
  intros Hin Hi Hne. unfold room_sum.
  assert (Hle : ∀ l, sum_list (map (site_room room P) l)
                     ≤ sum_list (map (site_room room m) l)).
  { induction l as [|j l IH]; [done|]. simpl.
    destruct (decide (j = i)) as [->|Hj]; [lia|].
    unfold site_room at 1 3. rewrite (Hne j Hj). lia. }
  induction matches as [|j l IH]; [by apply elem_of_nil in Hin|].
  simpl. apply elem_of_cons in Hin as [<-|Hin].
  - specialize (Hle l). lia.
  - specialize (IH Hin).
    destruct (decide (j = i)) as [->|Hj]; [lia|].
    unfold site_room at 1 3. rewrite (Hne j Hj). lia.
Qed.

Lemma acid_product_lower m i P matches :
  acid_product valence_of m i = Some P → i ∈ matches →
  room_sum acid_room P matches < room_sum acid_room m matches.
Proof.
  intros HP Hin.
  destruct (acid_product_spec _ _ _ HP) as (a & ev & ih & Ha & Hc & HPi & Hne & _).
  apply (room_sum_lower _ _ _ i); [done| |done].
  unfold site_room. rewrite HPi, Ha. by apply acid_room_protonated.
Qed.

Lemma base_product_lower m i P matches :
  base_product valence_of m i = Some P → i ∈ matches →
  room_sum base_room P matches < room_sum base_room m matches.
Proof.
  intros HP Hin.
  destruct (base_product_spec _ _ _ HP) as (a & ev & ih & Ha & Hc & HPi & Hne & _).
  apply (room_sum_lower _ _ _ i); [done| |done].
  unfold site_room. rewrite HPi, Ha. by apply base_room_deprotonated.
Qed.
End ProductFacts.

(** ** The two loops of [mol_query] *)

Lemma store_grows_refl h : store_grows h h.
Proof.
  split; [done|]. intros j m Hj. exists (sssAtoms m). by rewrite with_sssAtoms_id.
Qed.

Lemma store_grows_trans h1 h2 h3 :
  store_grows h1 h2 → store_grows h2 h3 → store_grows h1 h3.
Proof.
  intros [Hl1 H1] [Hl2 H2]. split; [lia|].
  intros j m Hj. destruct (H1 _ _ Hj) as [s Hs]. destruct (H2 _ _ Hs) as [s' Hs'].
  exists s'. by rewrite Hs'.
Qed.

Lemma map_is_fmap {A B} (f : A → B) (l : list A) : map f l = f <$> l.
Proof. induction l as [|x l IH]; [done|]. simpl. by rewrite IH. Qed.

Section TurnFacts.
Variable valence_of : Mol → nat → option (nat * nat).
Variable encoded : Type.
Variable paired_mol_data : Mol → Mol → nat → exn + encoded.
Variable predict : list encoded → exn + list float.
Variable np_round : float → Z → float.

Lemma loop_post_grows mol m h acid base matches h' r :
  h !! mol = Some m →
  loop_post valence_of mol m h acid base matches h' r → store_grows h h'.
Proof.
  intros Hm (Hlen & Hframe & [s Hs] & _). split; [done|].
  intros j mj Hj. destruct (decide (j = mol)) as [->|Hne].
  - exists s. congruence.
  - exists (sssAtoms mj). rewrite with_sssAtoms_id, Hframe; [done| |done].
    by eapply lookup_lt_Some.
Qed.

Lemma acid_turn_spec matches mols pkas atoms h front m :
  mols !! 0 = Some front → h !! front = Some m →
  let res := acid_turn valence_of paired_mol_data predict np_round matches
               (mols, pkas, atoms) h in
  store_grows h res.1 ∧
  match res.2 with
  | inl _ => True
  | inr s' =>
      s' = (mols, pkas, atoms) ∨
      ∃ p i raw P,
        s' = (p :: mols, np_round raw 3%Z :: pkas, i :: atoms) ∧ i ∈ matches ∧
        acid_product valence_of m i = Some P ∧ res.1 !! p = Some P ∧
        flt (np_round raw 3%Z) (Fin (1 # 2)) = false
  end.
Proof.
  intros Hfront Hm. unfold acid_turn. cbn [fst snd].
  erewrite bind_inr; [|by unfold lift, py_get; rewrite Hfront].
  unfold get_possible_reactions.
  pose proof (reaction_loop_post valence_of front matches h m [] [] Hm) as Hpost.
  destruct (reaction_loop valence_of front matches ([], []) h) as [h' r] eqn:Hrun.
  simpl in Hpost.
  pose proof (loop_post_grows _ _ _ _ _ _ _ _ Hm Hpost) as Hgrow.
  destruct r as [e|[acid base]].
  { erewrite bind_inl; [|exact Hrun]. done. }
  erewrite bind_inr; [|exact Hrun]. cbn [fst snd].
  rewrite acid_sequence_run. cbn [fst snd]. split; [done|].
  destruct (0 <? length acid); [|by left].
  destruct ((match_pka _ _ _ _ _).2) as [e|acid_pkas] eqn:Hscore; [done|].
  apply match_pka_rounded in Hscore as (data & raws & _ & ->).
  pose proof (py_max_spec (map (λ x, np_round x 3%Z) raws)) as Hmax.
  destruct (py_max _) as [e|[idx pka]]; [done|]. cbn [fst snd] in *.
  destruct (flt pka (Fin (1 # 2))) eqn:Hthr; [by left|].
  destruct (acid !! idx) as [[[p d] i]|] eqn:Hp; [|done].
  right. destruct Hpost as (_ & _ & _ & _ & _ & na & nb & Hna & _ & Hsites & _ & Hok & _).
  simpl in Hna. subst na.
  assert (Hin : (p, d, i) ∈ acid) by (by eapply list_elem_of_lookup_2).
  rewrite list.Forall_forall in Hok. destruct (Hok _ Hin) as (_ & _ & [P HP] & Heq).
  simpl in *.
  destruct Hmax as (Hidx & _).
  rewrite map_is_fmap in Hidx.
  apply list_lookup_fmap_Some in Hidx as (raw & -> & Hraw).
  exists p, i, raw, P. split_and!; [done| |congruence|done|done].
  assert (i ∈ acid.*2) by (by apply (list_elem_of_fmap_2 snd _ (p, d, i))).
  rewrite Hsites in H. by apply list_elem_of_filter in H as [_ ?].
Qed.

Lemma base_turn_spec matches mols pkas atoms h back m :
  list.last mols = Some back → h !! back = Some m →
  let res := base_turn valence_of paired_mol_data predict np_round matches
               (mols, pkas, atoms) h in
  store_grows h res.1 ∧
  match res.2 with
  | inl _ => True
  | inr s' =>
      s' = (mols, pkas, atoms) ∨
      ∃ p i raw P,
        s' = (mols ++ [p], pkas ++ [np_round raw 3%Z], atoms ++ [i]) ∧ i ∈ matches ∧
        base_product valence_of m i = Some P ∧ res.1 !! p = Some P ∧
        flt (Fin (27 # 2)) (np_round raw 3%Z) = false
  end.
Proof.
  intros Hback Hm. unfold base_turn. cbn [fst snd].
  erewrite bind_inr; [|by unfold lift, py_last; rewrite Hback].
  unfold get_possible_reactions.
  pose proof (reaction_loop_post valence_of back matches h m [] [] Hm) as Hpost.
  destruct (reaction_loop valence_of back matches ([], []) h) as [h' r] eqn:Hrun.
  simpl in Hpost.
  pose proof (loop_post_grows _ _ _ _ _ _ _ _ Hm Hpost) as Hgrow.
  destruct r as [e|[acid base]].
  { erewrite bind_inl; [|exact Hrun]. done. }
  erewrite bind_inr; [|exact Hrun]. cbn [fst snd].
  rewrite base_sequence_run. cbn [fst snd]. split; [done|].
  destruct (0 <? length base); [|by left].
  destruct ((match_pka _ _ _ _ _).2) as [e|base_pkas] eqn:Hscore; [done|].
  apply match_pka_rounded in Hscore as (data & raws & _ & ->).
  pose proof (py_min_spec (map (λ x, np_round x 3%Z) raws)) as Hmin.
  destruct (py_min _) as [e|[idx pka]]; [done|]. cbn [fst snd] in *.
  destruct (flt (Fin (27 # 2)) pka) eqn:Hthr; [by left|].
  destruct (base !! idx) as [[[p d] i]|] eqn:Hp; [|done].
  right. destruct Hpost as (_ & _ & _ & _ & _ & na & nb & _ & Hnb & _ & Hsites & _ & Hok).
  simpl in Hnb. subst nb.
  assert (Hin : (p, d, i) ∈ base) by (by eapply list_elem_of_lookup_2).
  rewrite list.Forall_forall in Hok. destruct (Hok _ Hin) as (_ & _ & [P HP] & Heq).
  simpl in *.
  destruct Hmin as (Hidx & _).
  rewrite map_is_fmap in Hidx.
  apply list_lookup_fmap_Some in Hidx as (raw & -> & Hraw).
  exists d, i, raw, P. split_and!; [done| |congruence|done|done].
  assert (i ∈ base.*2) by (by apply (list_elem_of_fmap_2 snd _ (p, d, i))).
  rewrite Hsites in H. by apply list_elem_of_filter in H as [_ ?].
Qed.

Lemma acid_loop_spec fuel matches :
  ∀ mols pkas atoms turns h front m,
    mols !! 0 = Some front → h !! front = Some m →
    let res := acid_loop valence_of paired_mol_data predict np_round fuel matches
                 (mols, pkas, atoms) turns h in
    store_grows h res.1 ∧
    match res.2 with
    | inl _ => True
    | inr None => fuel ≤ room_sum acid_room m matches
    | inr (Some ((mols', pkas', atoms'), n)) =>
        ∃ newm newp newa,
          mols' = newm ++ mols ∧ pkas' = newp ++ pkas ∧ atoms' = newa ++ atoms ∧
          phase_added np_round acid_room m matches turns n newm newp newa ∧
          Forall (λ q, flt q (Fin (1 # 2)) = false) newp
    end.
Proof.
  induction fuel as [|fuel IH]; intros mols pkas atoms turns h front m Hfront Hm;
    [split; [apply store_grows_refl|simpl; lia]|].
  cbn [acid_loop fst snd].
  pose proof (acid_turn_spec matches mols pkas atoms h front m Hfront Hm) as Hturn.
  destruct (acid_turn valence_of paired_mol_data predict np_round matches (mols, pkas, atoms) h)
    as [h1 r] eqn:Hrun.
  cbn [fst snd] in Hturn. destruct Hturn as [Hgrow Hr].
  destruct r as [e|s'].
  { erewrite bind_inl; [|exact Hrun]. done. }
  erewrite bind_inr; [|exact Hrun].
  destruct Hr as [->|(p & i & raw & P & -> & Hi & HP & Hp & Hthr)].
  - cbn [fst snd]. rewrite (proj2 (Nat.leb_le _ _)) by lia.
    split; [done|]. exists [], [], []. split_and!; try done.
    unfold phase_added. split_and!; try done; simpl; lia.
  - cbn [fst snd length]. rewrite (proj2 (Nat.leb_gt _ _)) by lia.
    pose proof (acid_product_lower valence_of m i P matches HP Hi) as Hlow.
    specialize (IH (p :: mols) (np_round raw 3%Z :: pkas) (i :: atoms) (S turns) h1 p P
                   eq_refl Hp).
    destruct (acid_loop valence_of paired_mol_data predict np_round fuel matches _ (S turns) h1)
      as [h2 r2].
    cbn [fst snd] in *. destruct IH as [Hgrow2 Hr2].
    split; [by eapply store_grows_trans|].
    destruct r2 as [e|[[[[mols' pkas'] atoms'] n]|]]; [done| |lia].
    destruct Hr2 as (newm & newp & newa & -> & -> & -> & Hadd & Hge).
    destruct Hadd as (Hl1 & Hl2 & Hn & Hcap & Hround & Hin).
    exists (newm ++ [p]), (newp ++ [np_round raw 3%Z]), (newa ++ [i]).
    rewrite <- !app_assoc. split_and!; try done.
    + unfold phase_added. rewrite !length_app. simpl. split_and!; try lia.
      * apply list.Forall_app. split; [done|]. apply Forall_singleton. by eexists.
      * apply list.Forall_app. split; [done|]. by apply Forall_singleton.
    + apply list.Forall_app. split; [done|]. by apply Forall_singleton.
Qed.

Lemma base_loop_spec fuel matches :
  ∀ mols pkas atoms turns h back m,
    list.last mols = Some back → h !! back = Some m →
    let res := base_loop valence_of paired_mol_data predict np_round fuel matches
                 (mols, pkas, atoms) turns h in
    store_grows h res.1 ∧
    match res.2 with
    | inl _ => True
    | inr None => fuel ≤ room_sum base_room m matches
    | inr (Some ((mols', pkas', atoms'), n)) =>
        ∃ newm newp newa,
          mols' = mols ++ newm ∧ pkas' = pkas ++ newp ∧ atoms' = atoms ++ newa ∧
          phase_added np_round base_room m matches turns n newm newp newa ∧
          Forall (λ q, flt (Fin (27 # 2)) q = false) newp
    end.
Proof.
  induction fuel as [|fuel IH]; intros mols pkas atoms turns h back m Hback Hm;
    [split; [apply store_grows_refl|simpl; lia]|].
  cbn [base_loop fst snd].
  pose proof (base_turn_spec matches mols pkas atoms h back m Hback Hm) as Hturn.
  destruct (base_turn valence_of paired_mol_data predict np_round matches (mols, pkas, atoms) h)
    as [h1 r] eqn:Hrun.
  cbn [fst snd] in Hturn. destruct Hturn as [Hgrow Hr].
  destruct r as [e|s'].
  { erewrite bind_inl; [|exact Hrun]. done. }
  erewrite bind_inr; [|exact Hrun].
  destruct Hr as [->|(p & i & raw & P & -> & Hi & HP & Hp & Hthr)].
  - cbn [fst snd]. rewrite (proj2 (Nat.leb_le _ _)) by lia.
    split; [done|]. exists [], [], []. rewrite !app_nil_r. split_and!; try done.
    unfold phase_added. split_and!; try done; simpl; lia.
  - cbn [fst snd]. rewrite length_app. simpl.
    rewrite (proj2 (Nat.leb_gt _ _)) by lia.
    pose proof (base_product_lower valence_of m i P matches HP Hi) as Hlow.
    specialize (IH (mols ++ [p]) (pkas ++ [np_round raw 3%Z]) (atoms ++ [i]) (S turns) h1 p P
                   (last_snoc _ _) Hp).
    destruct (base_loop valence_of paired_mol_data predict np_round fuel matches _ (S turns) h1)
      as [h2 r2].
    cbn [fst snd] in *. destruct IH as [Hgrow2 Hr2].
    split; [by eapply store_grows_trans|].
    destruct r2 as [e|[[[[mols' pkas'] atoms'] n]|]]; [done| |lia].
    destruct Hr2 as (newm & newp & newa & -> & -> & -> & Hadd & Hge).
    destruct Hadd as (Hl1 & Hl2 & Hn & Hcap & Hround & Hin).
    exists (p :: newm), (np_round raw 3%Z :: newp), (i :: newa).
    rewrite <- !app_assoc. split_and!; try done.
    + unfold phase_added. simpl. split_and!; try lia.
      * constructor; [by eexists|done].
      * by constructor.
    + by constructor.
Qed.
End TurnFacts.

(** ** [create_conjugate] *)

Section ChemFacts.
Variable valence_of : Mol → nat → option (nat * nat).

Lemma set_charge_hs_new (h : heap) m i a c (b : bool) n :
  atoms m !! i = Some a →
  (SetFormalCharge (length h) i c ;;
   if b then SetNumExplicitHs (length h) i n else ret tt) (h ++ [m]) =
  (h ++ [put_atom i (if b then with_NumExplicitHs n (with_FormalCharge c a)
                     else with_FormalCharge c a) m], inr tt).
Proof.
  intros Ha.
  assert (Hlt : i < length (atoms m)) by (by eapply lookup_lt_Some).
  erewrite bind_inr; [|apply modify_new].
  rewrite (alter_atom_put _ _ _ _ Ha).
  destruct b; [|done].
  unfold SetNumExplicitHs. rewrite modify_new.
  by rewrite (alter_atom_put _ _ _ _ (atoms_put_lookup _ _ _ Hlt)), put_atom_put.
Qed.

(** The outcome of [create_conjugate], case by case. *)
Lemma create_conjugate_run mol id pka pH h :
  create_conjugate valence_of mol id pka pH h =
    match h !! mol with
    | None => (h, inl DanglingRef)
    | Some m =>
        let c := with_sssAtoms None m in
        match atoms m !! id with
        | None => (h ++ [c], inl RangeError)
        | Some a =>
            match apply_action (first_match decision_table a pka pH) a with
            | None => (h ++ [c], inl RuntimeError)
            | Some a' =>
                match refresh valence_of (put_atom id a' c) id with
                | Some c' => (h ++ [c'], inr (length h))
                | None => (h ++ [put_atom id a' c], inl AtomValenceException)
                end
            end
        end
    end.
Proof.
  unfold create_conjugate.
  destruct (h !! mol) as [m|] eqn:Hm.
  2:{ erewrite bind_inl; [done|]. unfold RWMol.
      erewrite bind_inl; [done|]. unfold deref. by rewrite Hm. }
  erewrite bind_inr; [|by apply RWMol_run].
  set (c := with_sssAtoms None m). cbv zeta.
  destruct (atoms m !! id) as [a|] eqn:Ha.
  2:{ erewrite bind_inl; [done|].
      erewrite GetAtomWithIdx_run by apply lookup_snoc_new. simpl. by rewrite Ha. }
  erewrite bind_inr;
    [|by erewrite GetAtomWithIdx_run by apply lookup_snoc_new; simpl; rewrite Ha].
  assert (Hac : atoms c !! id = Some a) by done.
  cbn [decision_table first_match].
  replace (1 <=? TotalNumHs a) with (0 <? TotalNumHs a)
    by (destruct (TotalNumHs a); done).
  destruct ((flt pH pka && (0 <? TotalNumHs a)) || (0 <? FormalCharge a)%Z).
  { erewrite bind_inr; [|by apply set_charge_hs_new].
    cbn [apply_action]. fold (deprotonated_atom a).
    unfold mbind, M_bind, bind. rewrite UpdatePropertyCache_new.
    unfold deprotonated_atom.
    by destruct (refresh valence_of _ id). }
  destruct (flt pka pH && (FormalCharge a <=? 0)%Z).
  { erewrite bind_inr; [|by apply set_charge_hs_new].
    cbn [apply_action].
    unfold mbind, M_bind, bind. rewrite UpdatePropertyCache_new.
    unfold protonated_atom.
    by destruct (refresh valence_of _ id). }
  destruct (flt pH pka && (TotalNumHs a =? 0)).
  { erewrite bind_inr; [|by apply set_charge_hs_new].
    cbn [apply_action].
    unfold mbind, M_bind, bind. rewrite UpdatePropertyCache_new.
    unfold protonated_atom.
    by destruct (refresh valence_of _ id). }
  erewrite bind_inl; [done|]. done.
Qed.
End ChemFacts.

(** ** C1, C5, C6: the conjugate generator and the candidate pairs *)

Lemma edits_charge_and_hydrogens a :
  FormalCharge (deprotonated_atom a) = (FormalCharge a - 1)%Z ∧
  NumExplicitHs (deprotonated_atom a) =
    (if 0 <? NumExplicitHs a then NumExplicitHs a - 1 else NumExplicitHs a) ∧
  FormalCharge (protonated_atom a) = (FormalCharge a + 1)%Z ∧
  NumExplicitHs (protonated_atom a) =
    (if (TotalNumHs a =? 0) || (0 <? NumExplicitHs a)
     then NumExplicitHs a + 1 else NumExplicitHs a) ∧
  AtomicNum (deprotonated_atom a) = AtomicNum a ∧
  AtomicNum (protonated_atom a) = AtomicNum a.
Proof.
  unfold deprotonated_atom, protonated_atom.
  destruct (0 <? NumExplicitHs a), (TotalNumHs a =? 0); done.
Qed.

Lemma refresh_after_put valence_of m i a' c' :
  i < length (atoms m) →
  refresh valence_of (put_atom i a' m) i = Some c' →
  bonds c' = bonds m ∧ length (atoms c') = length (atoms m) ∧
  (∀ j, j ≠ i → atoms c' !! j = atoms m !! j) ∧
  ∃ ev ih, atoms c' !! i = Some (with_cache ev ih a').
Proof.
  intros Hlt Hr. apply refresh_atoms in Hr as (Hb & _ & Hl & Hne & Hi).
  split_and!; [done|by rewrite Hl; simpl; rewrite length_insert| |].
  - intros j Hj. rewrite Hne by done. simpl. by rewrite list_lookup_insert_ne.
  - apply Hi. simpl. by apply list_lookup_insert_eq.
Qed.

(** C1, for [chem.py] with the comparison [Tot_Hs == 0] on its line 28 (the
    file itself has [Tot_Hs = 0] there): [create_conjugate] takes a copy of
    the molecule, finds the first row of the decision table whose condition
    holds for the atom, fails with [RuntimeError] on the last row, and
    otherwise applies the row's edit to that atom of the copy and refreshes
    the atom's cache; the edits change the formal charge by one and the
    explicit hydrogen count as the table says; every other atom and every
    bond of the returned molecule is that of the input. *)
Theorem create_conjugate_decision_table
    (valence_of : Mol → nat → option (nat * nat)) mol id pka pH h :
  create_conjugate valence_of mol id pka pH h =
    match h !! mol with
    | None => (h, inl DanglingRef)
    | Some m =>
        let c := with_sssAtoms None m in
        match atoms m !! id with
        | None => (h ++ [c], inl RangeError)
        | Some a =>
            match apply_action (first_match decision_table a pka pH) a with
            | None => (h ++ [c], inl RuntimeError)
            | Some a' =>
                match refresh valence_of (put_atom id a' c) id with
                | Some c' => (h ++ [c'], inr (length h))
                | None => (h ++ [put_atom id a' c], inl AtomValenceException)
                end
            end
        end
    end
  ∧ (∀ a,
       FormalCharge (deprotonated_atom a) = (FormalCharge a - 1)%Z ∧
       NumExplicitHs (deprotonated_atom a) =
         (if 0 <? NumExplicitHs a then NumExplicitHs a - 1 else NumExplicitHs a) ∧
       FormalCharge (protonated_atom a) = (FormalCharge a + 1)%Z ∧
       NumExplicitHs (protonated_atom a) =
         (if (TotalNumHs a =? 0) || (0 <? NumExplicitHs a)
          then NumExplicitHs a + 1 else NumExplicitHs a))
  ∧ (∀ m a' c',
       id < length (atoms m) →
       refresh valence_of (put_atom id a' (with_sssAtoms None m)) id = Some c' →
       bonds c' = bonds m ∧ length (atoms c') = length (atoms m) ∧
       (∀ j, j ≠ id → atoms c' !! j = atoms m !! j) ∧
       ∃ ev ih, atoms c' !! id = Some (with_cache ev ih a')).
Proof.
  split_and!.
  - apply create_conjugate_run.
  - intros a. pose proof (edits_charge_and_hydrogens a). tauto.
  - intros m a' c' Hlt Hr. by apply (refresh_after_put valence_of (with_sssAtoms None m)).
Qed.

(** The third row at work (with [==] on line 28): the nitrogen of
    trimethylamine, pKa 9 against pH 7.4, gains a proton as an explicit
    hydrogen. *)
Example create_conjugate_trimethylamine :
  first_match decision_table (mkAtom 7 0 0 0 3 3 4 false false) (Fin 9) default_pH
    = IncrementCharge ∧
  (create_conjugate rdkit_valence 0 0 (Fin 9) default_pH [trimethylamine]).2 = inr 1 ∧
  (λ m, (FormalCharge <$> atoms m !! 0, NumExplicitHs <$> atoms m !! 0)) <$>
    (create_conjugate rdkit_valence 0 0 (Fin 9) default_pH [trimethylamine]).1 !! 1
    = Some (Some 1%Z, Some 1).
Proof. by vm_compute. Qed.

(** ** C5 *)

Lemma create_conjugate_keeps_store valence_of mol id pka pH h j :
  j < length h →
  (create_conjugate valence_of mol id pka pH h).1 !! j = h !! j.
Proof.
  intros Hj. rewrite create_conjugate_run.
  destruct (h !! mol) as [m|]; [|done]. cbv zeta.
  destruct (atoms m !! id) as [a|]; [|by simpl; rewrite lookup_app_l].
  destruct (apply_action _ a) as [a'|]; [|by simpl; rewrite lookup_app_l].
  destruct (refresh _ _ _); by simpl; rewrite lookup_app_l.
Qed.

(** C5 as the code has it: [create_conjugate] leaves every molecule already
    in the store as it is, the input among them.  [get_possible_reactions]
    leaves every other molecule as it is and keeps the atoms and bonds of
    its input (all edits go to deep copies), but it assigns the input's
    [__sssAtoms] attribute: when it returns, the attribute holds the last
    candidate site (and is untouched only for an empty site list). *)
Theorem conjugates_keep_input_graph (valence_of : Mol → nat → option (nat * nat)) :
  (∀ mol id pka pH h j,
     j < length h →
     (create_conjugate valence_of mol id pka pH h).1 !! j = h !! j)
  ∧ (∀ mol matches h m,
       h !! mol = Some m →
       let res := get_possible_reactions valence_of mol matches h in
       (∀ j, j < length h → j ≠ mol → res.1 !! j = h !! j) ∧
       (∃ m', res.1 !! mol = Some m' ∧ atoms m' = atoms m ∧ bonds m' = bonds m) ∧
       (∀ pairs, res.2 = inr pairs →
          res.1 !! mol = Some (with_sssAtoms (last_tag matches m) m))).
Proof.
  split.
  - intros. by apply create_conjugate_keeps_store.
  - intros mol matches h m Hm res.
    pose proof (reaction_loop_post valence_of mol matches h m [] [] Hm) as Hpost.
    fold (get_possible_reactions valence_of mol matches) in Hpost. fold res in Hpost.
    destruct Hpost as (_ & Hframe & [s Hs] & Hr).
    split_and!; [done|by exists (with_sssAtoms s m)|].
    intros pairs Hp. rewrite Hp in Hr. destruct pairs. tauto.
Qed.

(** On ammonia with the single candidate site 0, the input object comes
    back with [__sssAtoms = [0]], which it did not have. *)
Lemma get_possible_reactions_marks_input :
  [ammonia] !! 0 = Some ammonia ∧
  (get_possible_reactions rdkit_valence 0 [0] [ammonia]).1 !! 0
    = Some (with_sssAtoms (Some [0]) ammonia) ∧
  (get_possible_reactions rdkit_valence 0 [0] [ammonia]).1 !! 0 ≠ [ammonia] !! 0.
Proof. split_and!; [done|by vm_compute|by vm_compute]. Qed.

Lemma conjugates_keep_input_graph_witness :
  (get_possible_reactions rdkit_valence 0 [0] [ammonia]).1 !! 0
    = Some (with_sssAtoms (last_tag [0] ammonia) ammonia).
Proof.
  apply (proj2 (proj2 (proj2 (conjugates_keep_input_graph rdkit_valence)
                               0 [0] [ammonia] ammonia eq_refl))
           ([(1, 0, 0)], [(0, 2, 0)])).
  by vm_compute.
Defined.

(** ** C6 *)

Lemma differ_only_at_acid valence_of m i P s :
  acid_product valence_of m i = Some P → differ_only_at i P (with_sssAtoms s m).
Proof.
  intros HP. destruct (acid_product_spec _ _ _ _ HP) as (a & ev & ih & Ha & _ & HPi & Hne & Hl & _).
  split_and!; [done|done|]. exists (with_cache ev ih (protonated_atom a)), a.
  split_and!; [done|done|]. rewrite FormalCharge_protonated. lia.
Qed.

Lemma differ_only_at_base valence_of m i P s :
  base_product valence_of m i = Some P → differ_only_at i (with_sssAtoms s m) P.
Proof.
  intros HP. destruct (base_product_spec _ _ _ _ HP) as (a & ev & ih & Ha & _ & HPi & Hne & Hl & _).
  split_and!; [done|by intros; symmetry; apply Hne|].
  exists a, (with_cache ev ih (deprotonated_atom a)).
  split_and!; [done|done|]. rewrite FormalCharge_deprotonated. lia.
Qed.

(** From "same molecule except at [i], charge one apart there" to the words
    of the claim: the formal charges differ at [i] and nowhere else, and
    they differ by one in absolute value. *)
Lemma differ_only_at_charges i prot deprot :
  differ_only_at i prot deprot →
  (∀ j, charge_at prot j ≠ charge_at deprot j ↔ j = i) ∧
  ∃ cp cd, charge_at prot i = Some cp ∧ charge_at deprot i = Some cd ∧
           Z.abs (cp - cd) = 1%Z.
Proof.
  intros (Hl & Hne & ap & ad & Hp & Hd & Hdiff). unfold charge_at. split.
  - intros j. split.
    + intros Hj. destruct (decide (j = i)); [done|]. by rewrite Hne in Hj.
    + intros ->. rewrite Hp, Hd. simpl. intros [= H]. lia.
  - exists (FormalCharge ap), (FormalCharge ad). rewrite Hp, Hd. split_and!; [done|done|lia].
Qed.

Lemma create_conjugate_pair valence_of mol id pka pH h r :
  (create_conjugate valence_of mol id pka pH h).2 = inr r →
  ∃ m c,
    h !! mol = Some m ∧
    (create_conjugate valence_of mol id pka pH h).1 !! mol = Some m ∧
    (create_conjugate valence_of mol id pka pH h).1 !! r = Some c ∧
    (differ_only_at id c m ∨ differ_only_at id m c).
Proof.
  rewrite create_conjugate_run.
  destruct (h !! mol) as [m|] eqn:Hm; [|done]. cbv zeta.
  destruct (atoms m !! id) as [a|] eqn:Ha; [|done].
  assert (Hlt : id < length (atoms m)) by (by eapply lookup_lt_Some).
  destruct (apply_action _ a) as [a'|] eqn:Hact; [|done].
  destruct (refresh _ _ _) as [c'|] eqn:Hr; [|done].
  simpl. intros [= <-]. exists m, c'.
  assert (Hmol : mol < length h) by (by eapply lookup_lt_Some).
  split_and!; [done|by rewrite lookup_app_l|apply lookup_snoc_new|].
  apply (refresh_after_put valence_of (with_sssAtoms None m)) in Hr
    as (_ & Hl & Hne & ev & ih & Hc); [|done].
  simpl in Hl, Hne.
  destruct (first_match decision_table a pka pH); simpl in Hact;
    [injection Hact as <-|injection Hact as <-|done].
  - right. split_and!; [done|by intros; symmetry; apply Hne|].
    exists a, (with_cache ev ih (deprotonated_atom a)).
    split_and!; [done|done|]. rewrite FormalCharge_deprotonated. lia.
  - left. split_and!; [done|done|].
    exists (with_cache ev ih (protonated_atom a)), a.
    split_and!; [done|done|]. rewrite FormalCharge_protonated. lia.
Qed.

Lemma reaction_pairs_differ valence_of mol matches h m acid base :
  h !! mol = Some m →
  (get_possible_reactions valence_of mol matches h).2 = inr (acid, base) →
  ∀ p d i, (p, d, i) ∈ acid ++ base →
    ∃ mp md,
      (get_possible_reactions valence_of mol matches h).1 !! p = Some mp ∧
      (get_possible_reactions valence_of mol matches h).1 !! d = Some md ∧
      differ_only_at i mp md.
Proof.
  intros Hm Hres p d i Hin.
  pose proof (reaction_loop_post valence_of mol matches h m [] [] Hm) as Hpost.
  fold (get_possible_reactions valence_of mol matches) in Hpost.
  rewrite Hres in Hpost.
  destruct Hpost as (_ & _ & _ & _ & Hmol & na & nb & Hna & Hnb & _ & _ & Hao & Hbo).
  simpl in Hna, Hnb. subst na nb.
  rewrite list.Forall_forall in Hao, Hbo.
  apply elem_of_app in Hin as [Hin|Hin].
  - destruct (Hao _ Hin) as (Hd & _ & [P HP] & Heq). simpl in *. subst d.
    exists P, (with_sssAtoms (last_tag matches m) m). split_and!; [done|done|].
    apply (differ_only_at_acid valence_of). congruence.
  - destruct (Hbo _ Hin) as (Hp & _ & [P HP] & Heq). simpl in *. subst p.
    exists (with_sssAtoms (last_tag matches m) m), P. split_and!; [done|done|].
    apply (differ_only_at_base valence_of). congruence.
Qed.

(** C6: the molecule [create_conjugate] returns and its input are the same
    except at the given atom, where the formal charges are one apart; and
    for every pair (protonated, deprotonated, centre) that
    [get_possible_reactions] returns, the two molecules are the same except
    at the centre, where the protonated one has the formal charge one
    higher.  So the formal charge differs at the centre and nowhere else,
    by one in absolute value. *)
Theorem conjugate_pairs_differ_at_center (valence_of : Mol → nat → option (nat * nat)) :
  (∀ mol id pka pH h r,
     (create_conjugate valence_of mol id pka pH h).2 = inr r →
     ∃ m c,
       h !! mol = Some m ∧
       (create_conjugate valence_of mol id pka pH h).1 !! mol = Some m ∧
       (create_conjugate valence_of mol id pka pH h).1 !! r = Some c ∧
       (differ_only_at id c m ∨ differ_only_at id m c) ∧
       (∀ j, charge_at c j ≠ charge_at m j ↔ j = id) ∧
       ∃ x y, charge_at c id = Some x ∧ charge_at m id = Some y ∧ Z.abs (x - y) = 1%Z)
  ∧ (∀ mol matches h m acid base,
       h !! mol = Some m →
       (get_possible_reactions valence_of mol matches h).2 = inr (acid, base) →
       ∀ p d i, (p, d, i) ∈ acid ++ base →
         ∃ mp md,
           (get_possible_reactions valence_of mol matches h).1 !! p = Some mp ∧
           (get_possible_reactions valence_of mol matches h).1 !! d = Some md ∧
           differ_only_at i mp md ∧
           (∀ j, charge_at mp j ≠ charge_at md j ↔ j = i) ∧
           ∃ x y, charge_at mp i = Some x ∧ charge_at md i = Some y ∧
                  Z.abs (x - y) = 1%Z).
Proof.
  split.
  - intros mol id pka pH h r Hr.
    destruct (create_conjugate_pair _ _ _ _ _ _ _ Hr) as (m & c & Hm & Hm' & Hc & Hd).
    exists m, c. split_and!; [done|done|done|done| |].
    + destruct Hd as [Hd|Hd].
      * apply (differ_only_at_charges _ _ _ Hd).
      * intros j. destruct (differ_only_at_charges _ _ _ Hd) as [H _].
        rewrite <- H. split; intros ? ?; congruence.
    + destruct Hd as [Hd|Hd]; destruct (differ_only_at_charges _ _ _ Hd)
        as (_ & x & y & Hx & Hy & Habs).
      * by exists x, y.
      * exists y, x. split_and!; [done|done|lia].
  - intros mol matches h m acid base Hm Hres p d i Hin.
    destruct (reaction_pairs_differ _ _ _ _ _ _ _ Hm Hres _ _ _ Hin) as (mp & md & Hp & Hd & Hdiff).
    exists mp, md. split_and!; [done|done|done| |];
      apply (differ_only_at_charges _ _ _ Hdiff).
Qed.

Lemma conjugate_pairs_differ_at_center_witness :
  (∃ m c,
     [acetic_acid] !! 0 = Some m ∧
     (create_conjugate rdkit_valence 0 3 (Fin (476 # 100)) default_pH [acetic_acid]).1 !! 0 = Some m ∧
     (create_conjugate rdkit_valence 0 3 (Fin (476 # 100)) default_pH [acetic_acid]).1 !! 1 = Some c ∧
     (differ_only_at 3 c m ∨ differ_only_at 3 m c) ∧
     (∀ j, charge_at c j ≠ charge_at m j ↔ j = 3) ∧
     ∃ x y, charge_at c 3 = Some x ∧ charge_at m 3 = Some y ∧ Z.abs (x - y) = 1%Z)
  ∧ ∃ mp md,
      (get_possible_reactions rdkit_valence 0 [0] [ammonia]).1 !! 1 = Some mp ∧
      (get_possible_reactions rdkit_valence 0 [0] [ammonia]).1 !! 0 = Some md ∧
      differ_only_at 0 mp md ∧
      (∀ j, charge_at mp j ≠ charge_at md j ↔ j = 0) ∧
      ∃ x y, charge_at mp 0 = Some x ∧ charge_at md 0 = Some y ∧ Z.abs (x - y) = 1%Z.
Proof.
  split.
  - apply (proj1 (conjugate_pairs_differ_at_center rdkit_valence)
             0 3 (Fin (476 # 100)) default_pH [acetic_acid] 1).
    by vm_compute.
  - apply (proj2 (conjugate_pairs_differ_at_center rdkit_valence)
             0 [0] [ammonia] ammonia [(1, 0, 0)] [(0, 2, 0)] eq_refl).
    + by vm_compute.
    + by vm_compute; left.
Defined.

(** ** C2, C3: candidate pairs and the choice among them *)

Section PairFacts.
Variable valence_of : Mol → nat → option (nat * nat).

Lemma get_possible_reactions_spec mol matches h m :
  h !! mol = Some m →
  let res := get_possible_reactions valence_of mol matches h in
  match res.2 with
  | inl e => ¬ Forall (site_passes valence_of m) matches
  | inr (acid, base) =>
      Forall (site_passes valence_of m) matches ∧
      acid.*2 = filter (λ i, is_Some (acid_product valence_of m i)) matches ∧
      base.*2 = filter (λ i, base_site m i) matches ∧
      (∀ p d i, (p, d, i) ∈ acid →
         d = mol ∧ is_Some (res.1 !! p) ∧ res.1 !! p = acid_product valence_of m i) ∧
      (∀ p d i, (p, d, i) ∈ base →
         p = mol ∧ is_Some (res.1 !! d) ∧ res.1 !! d = base_product valence_of m i)
  end.
Proof.
  intros Hm res.
  pose proof (reaction_loop_post valence_of mol matches h m [] [] Hm) as Hpost.
  fold (get_possible_reactions valence_of mol matches) in Hpost. fold res in Hpost.
  destruct Hpost as (_ & _ & _ & Hr).
  destruct (res.2) as [e|[acid base]]; [tauto|].
  destruct Hr as (HF & _ & na & nb & Hna & Hnb & Hsa & Hsb & Hao & Hbo).
  simpl in Hna, Hnb. subst na nb. rewrite list.Forall_forall in Hao, Hbo.
  split_and!; [done|done|done| |].
  - intros p d i Hin. destruct (Hao _ Hin) as (? & _ & ? & ?). simpl in *.
    by split_and!.
  - intros p d i Hin. destruct (Hbo _ Hin) as (? & _ & ? & ?). simpl in *.
    by split_and!.
Qed.

Lemma acid_product_is_Some m i :
  is_Some (acid_product valence_of m i) ↔
  ∃ a, atoms m !! i = Some a ∧ acid_cond a = true ∧
       is_Some (valence_of (put_atom i (protonated_atom a) (tag i m)) i).
Proof.
  unfold acid_product, refresh. split.
  - destruct (atoms m !! i) as [a|]; [|intros [? H]; discriminate H].
    destruct (acid_cond a) eqn:Hc; [|intros [? H]; discriminate H].
    intros H. exists a. split_and!; [done|done|].
    destruct (valence_of _ i) as [[? ?]|]; [by eexists|destruct H as [? H]; discriminate H].
  - intros (a & -> & -> & [[ev ih] ->]). by eexists.
Qed.

Lemma base_site_true m i :
  base_site m i = true ↔ ∃ a, atoms m !! i = Some a ∧ base_cond a = true.
Proof.
  unfold base_site. destruct (atoms m !! i) as [a|].
  - split; [by exists a|by intros (? & [= <-] & ?)].
  - split; [done|by intros (? & ? & ?)].
Qed.

End PairFacts.

Section ChoiceFacts.
Variable encoded : Type.
Variable paired_mol_data : Mol → Mol → nat → exn + encoded.
Variable predict : list encoded → exn + list float.
Variable np_round : float → Z → float.

Lemma acid_sequence_choice acid_pairs mols pkas atoms h :
  let res := acid_sequence paired_mol_data predict np_round acid_pairs (mols, pkas, atoms) h in
  res.1 = h ∧
  (acid_pairs = [] → res.2 = inr (mols, pkas, atoms)) ∧
  (acid_pairs ≠ [] →
   match (match_pka paired_mol_data predict np_round acid_pairs h).2 with
   | inl e => res.2 = inl e
   | inr scores =>
       (∃ data raw, predict data = inr raw ∧ scores = map (λ x, np_round x 3%Z) raw) ∧
       match scores with
       | [] => res.2 = inl ValueError
       | _ :: _ =>
           ∃ idx pka,
             first_max scores idx pka ∧
             res.2 = if flt pka (Fin (1 # 2)) then inr (mols, pkas, atoms)
                     else match acid_pairs !! idx with
                          | Some (p, d, i) => inr (p :: mols, pka :: pkas, i :: atoms)
                          | None => inl IndexError
                          end
       end
   end).
Proof.
  intros res. unfold res. rewrite acid_sequence_run. cbn [fst snd].
  split_and!; [done|by intros ->|]. intros Hne.
  destruct acid_pairs as [|p0 rest]; [done|]. cbn [length Nat.ltb Nat.leb].
  destruct ((match_pka _ _ _ _ _).2) as [e|scores] eqn:Hscore; [done|].
  split; [by eapply match_pka_rounded|].
  pose proof (py_max_spec scores) as Hmax.
  destruct scores as [|s0 scores']; [done|].
  destruct (py_max (s0 :: scores')) as [e|[idx pka]]; [by destruct Hmax|].
  cbn [fst snd] in *. exists idx, pka. split; [done|].
  destruct (flt pka (Fin (1 # 2))); [done|].
  by destruct ((p0 :: rest) !! idx) as [[[p d] i]|].
Qed.

Lemma base_sequence_choice base_pairs mols pkas atoms h :
  let res := base_sequence paired_mol_data predict np_round base_pairs (mols, pkas, atoms) h in
  res.1 = h ∧
  (base_pairs = [] → res.2 = inr (mols, pkas, atoms)) ∧
  (base_pairs ≠ [] →
   match (match_pka paired_mol_data predict np_round base_pairs h).2 with
   | inl e => res.2 = inl e
   | inr scores =>
       (∃ data raw, predict data = inr raw ∧ scores = map (λ x, np_round x 3%Z) raw) ∧
       match scores with
       | [] => res.2 = inl ValueError
       | _ :: _ =>
           ∃ idx pka,
             first_min scores idx pka ∧
             res.2 = if flt (Fin (27 # 2)) pka then inr (mols, pkas, atoms)
                     else match base_pairs !! idx with
                          | Some (p, d, i) => inr (mols ++ [d], pkas ++ [pka], atoms ++ [i])
                          | None => inl IndexError
                          end
       end
   end).
Proof.
  intros res. unfold res. rewrite base_sequence_run. cbn [fst snd].
  split_and!; [done|by intros ->|]. intros Hne.
  destruct base_pairs as [|p0 rest]; [done|]. cbn [length Nat.ltb Nat.leb].
  destruct ((match_pka _ _ _ _ _).2) as [e|scores] eqn:Hscore; [done|].
  split; [by eapply match_pka_rounded|].
  pose proof (py_min_spec scores) as Hmin.
  destruct scores as [|s0 scores']; [done|].
  destruct (py_min (s0 :: scores')) as [e|[idx pka]]; [by destruct Hmin|].
  cbn [fst snd] in *. exists idx, pka. split; [done|].
  destruct (flt (Fin (27 # 2)) pka); [done|].
  by destruct ((p0 :: rest) !! idx) as [[[p d] i]|].
Qed.

End ChoiceFacts.

(** C2 as the code has it.  When [get_possible_reactions] returns, the
    sites of its acid pairs are, in the order of [matches], the sites whose
    atom is a nitrogen with formal charge <= 0 or has a negative formal
    charge and whose protonated copy the property-cache update accepts (a
    copy it rejects is dropped by the [try]/[except]; under a valence model
    that rejects nothing the charge test alone decides); each pair holds
    the protonated copy and the input molecule.  [acid_sequence] leaves the
    sequence unchanged for an empty pair list.  Otherwise it scores the
    pairs: when [match_pka] raises, so does [acid_sequence]; when it
    returns, the scores are rounded predictions, and [acid_sequence] takes
    the first largest of them (a NaN score is neither larger nor smaller
    than any other), leaves the sequence unchanged if that is below 0.5,
    and else puts the score, the protonated molecule and the site in front
    of the three lists. *)
Theorem acid_phase_as_coded
    (valence_of : Mol → nat → option (nat * nat))
    (encoded : Type) (paired_mol_data : Mol → Mol → nat → exn + encoded)
    (predict : list encoded → exn + list float) (np_round : float → Z → float) :
  (∀ mol matches h m acid base,
     h !! mol = Some m →
     (get_possible_reactions valence_of mol matches h).2 = inr (acid, base) →
     acid.*2 = filter (λ i, is_Some (acid_product valence_of m i)) matches ∧
     (∀ i, is_Some (acid_product valence_of m i) ↔
           ∃ a, atoms m !! i = Some a ∧
                ((AtomicNum a =? 7) && (FormalCharge a <=? 0)%Z)
                || (FormalCharge a <? 0)%Z = true ∧
                is_Some (valence_of (put_atom i (protonated_atom a) (tag i m)) i)) ∧
     (∀ p d i, (p, d, i) ∈ acid →
        d = mol ∧
        (get_possible_reactions valence_of mol matches h).1 !! p
          = acid_product valence_of m i) ∧
     ((∀ m' i, is_Some (valence_of m' i)) →
      acid.*2 = filter (λ i, acid_site m i) matches))
  ∧ (∀ acid_pairs mols pkas atoms h,
       let res := acid_sequence paired_mol_data predict np_round acid_pairs
                    (mols, pkas, atoms) h in
       res.1 = h ∧
       (acid_pairs = [] → res.2 = inr (mols, pkas, atoms)) ∧
       (acid_pairs ≠ [] →
        match (match_pka paired_mol_data predict np_round acid_pairs h).2 with
        | inl e => res.2 = inl e
        | inr scores =>
            (∃ data raw, predict data = inr raw ∧ scores = map (λ x, np_round x 3%Z) raw) ∧
            match scores with
            | [] => res.2 = inl ValueError
            | _ :: _ =>
                ∃ idx pka,
                  first_max scores idx pka ∧
                  res.2 = if flt pka (Fin (1 # 2)) then inr (mols, pkas, atoms)
                          else match acid_pairs !! idx with
                               | Some (p, d, i) => inr (p :: mols, pka :: pkas, i :: atoms)
                               | None => inl IndexError
                               end
            end
        end)).
Proof.
  split.
  - intros mol matches h m acid base Hm Hres.
    pose proof (get_possible_reactions_spec valence_of mol matches h m Hm) as H.
    cbv zeta in H. rewrite Hres in H.
    destruct H as (_ & Hsa & _ & Ha & _).
    split_and!; [done|apply acid_product_is_Some| |].
    + intros p d i Hin. destruct (Ha _ _ _ Hin) as (? & _ & ?). done.
    + intros Hok. rewrite Hsa. apply list_filter_iff. intros i.
      rewrite acid_product_is_Some. unfold acid_site.
      destruct (atoms m !! i) as [a|].
      * split.
        -- intros (a' & [= <-] & Hc & _). by rewrite Hc.
        -- intros Hc. exists a. split_and!; [done|by destruct (acid_cond a)|apply Hok].
      * split; [intros (? & ? & _); discriminate|intros []].
  - intros. by apply acid_sequence_choice.
Qed.

(** The boron of tetrafluoroborate has a negative formal charge, so the
    site qualifies by the charge test; its protonated copy would give boron
    five bonds, the update rejects it, and no acid pair is returned. *)
Lemma acid_site_without_pair :
  acid_site tetrafluoroborate 0 = true ∧
  (get_possible_reactions rdkit_valence 0 [0] [tetrafluoroborate]).2 = inr ([], []) ∧
  rdkit_valence
    (put_atom 0 (protonated_atom (mkAtom 5 (-1) 0 0 4 4 4 false false))
       (tag 0 tetrafluoroborate)) 0 = None.
Proof. by vm_compute. Qed.

(** Hydrazine with both nitrogens as sites: each gives an acid pair; with
    the predictions 7 and 7 the first pair is taken. *)
Lemma acid_phase_as_coded_witness :
  ([(1, 0, 0); (3, 0, 1)] : list pair_tuple).*2
    = filter (λ i, is_Some (acid_product rdkit_valence hydrazine i)) [0; 1]
  ∧ (∃ (data : list PairData) raw,
       const_predict (Fin 7) data = inr raw ∧
       [Fin (7000 # 1000); Fin (7000 # 1000)] = map (λ x, decimal_round x 3) raw)
  ∧ ∃ idx pka,
      first_max [Fin (7000 # 1000); Fin (7000 # 1000)] idx pka ∧
      (acid_sequence (row_callee ring_flag conjugation_flag) (const_predict (Fin 7))
         decimal_round [(1, 0, 0); (3, 0, 1)] ([0], [], [])
         (get_possible_reactions rdkit_valence 0 [0; 1] [hydrazine]).1).2
        = if flt pka (Fin (1 # 2)) then inr ([0], [], [])
          else match ([(1, 0, 0); (3, 0, 1)] : list pair_tuple) !! idx with
               | Some (p, d, i) => inr (p :: [0], pka :: [], i :: [])
               | None => inl IndexError
               end.
Proof.
  split.
  - refine (proj1 (proj1 (acid_phase_as_coded rdkit_valence PairData
                            (row_callee ring_flag conjugation_flag) (const_predict (Fin 7))
                            decimal_round)
                     0 [0; 1] [hydrazine] hydrazine [(1, 0, 0); (3, 0, 1)]
                     [(0, 2, 0); (0, 4, 1)] eq_refl _)).
    by vm_compute.
  - apply (proj2 (proj2 (proj2 (acid_phase_as_coded rdkit_valence PairData
                            (row_callee ring_flag conjugation_flag) (const_predict (Fin 7))
                            decimal_round)
             [(1, 0, 0); (3, 0, 1)] [0] [] []
             (get_possible_reactions rdkit_valence 0 [0; 1] [hydrazine]).1))).
    done.
Defined.

(** C3 as the code has it.  [get_possible_reactions] returns exactly when
    every site is in range and every copy it deprotonates is accepted by
    the property-cache update.  When it returns, the sites of its base
    pairs are, in the order of [matches], the sites whose atom has at least
    one hydrogen, a formal charge >= 0, and is not a neutral nitrogen with
    exactly one hydrogen; each pair holds the input molecule and the
    deprotonated copy.  [base_sequence] leaves the sequence unchanged for
    an empty pair list.  Otherwise it scores the pairs: when [match_pka]
    raises, so does [base_sequence]; when it returns, the scores are
    rounded predictions, and [base_sequence] takes the first smallest of
    them, leaves the sequence unchanged if that is above 13.5, and else
    appends the score, the deprotonated molecule and the site to the three
    lists. *)
Theorem base_phase_as_coded
    (valence_of : Mol → nat → option (nat * nat))
    (encoded : Type) (paired_mol_data : Mol → Mol → nat → exn + encoded)
    (predict : list encoded → exn + list float) (np_round : float → Z → float) :
  (∀ mol matches h m,
     h !! mol = Some m →
     ((∃ pairs, (get_possible_reactions valence_of mol matches h).2 = inr pairs)
      ↔ Forall (site_passes valence_of m) matches) ∧
     ∀ acid base,
       (get_possible_reactions valence_of mol matches h).2 = inr (acid, base) →
       base.*2 = filter (λ i, base_site m i) matches ∧
       (∀ i, base_site m i = true ↔
             ∃ a, atoms m !! i = Some a ∧
                  (0 <? TotalNumHs a) && (0 <=? FormalCharge a)%Z
                  && negb ((AtomicNum a =? 7) && (FormalCharge a =? 0)%Z
                           && (TotalNumHs a =? 1)) = true) ∧
       (∀ p d i, (p, d, i) ∈ base →
          p = mol ∧
          is_Some (base_product valence_of m i) ∧
          (get_possible_reactions valence_of mol matches h).1 !! d
            = base_product valence_of m i))
  ∧ (∀ base_pairs mols pkas atoms h,
       let res := base_sequence paired_mol_data predict np_round base_pairs
                    (mols, pkas, atoms) h in
       res.1 = h ∧
       (base_pairs = [] → res.2 = inr (mols, pkas, atoms)) ∧
       (base_pairs ≠ [] →
        match (match_pka paired_mol_data predict np_round base_pairs h).2 with
        | inl e => res.2 = inl e
        | inr scores =>
            (∃ data raw, predict data = inr raw ∧ scores = map (λ x, np_round x 3%Z) raw) ∧
            match scores with
            | [] => res.2 = inl ValueError
            | _ :: _ =>
                ∃ idx pka,
                  first_min scores idx pka ∧
                  res.2 = if flt (Fin (27 # 2)) pka then inr (mols, pkas, atoms)
                          else match base_pairs !! idx with
                               | Some (p, d, i) =>
                                   inr (mols ++ [d], pkas ++ [pka], atoms ++ [i])
                               | None => inl IndexError
                               end
            end
        end)).
Proof.
  split.
  - intros mol matches h m Hm.
    pose proof (get_possible_reactions_spec valence_of mol matches h m Hm) as H.
    cbv zeta in H.
    destruct ((get_possible_reactions valence_of mol matches h).2) as [e|[acid base]] eqn:Hres.
    + split; [|done]. split; [by intros [? ?]|done].
    + destruct H as (HF & _ & Hsb & _ & Hb).
      split; [split; [done|by eexists]|].
      intros acid' base' [= <- <-].
      split_and!; [done|apply (base_site_true)|].
      intros p d i Hin. destruct (Hb _ _ _ Hin) as (? & ? & Heq).
      split_and!; [done|by rewrite <- Heq|done].
  - intros. by apply base_sequence_choice.
Qed.

(** One turn of the base loop on hydrazine with both nitrogens as sites.
    With the raw predictions 4.7564 and 4.7559 both scores are 4.756 after
    rounding and the first pair is taken, although the second prediction is
    the smaller one; with the raw predictions 13.5004 and 14 the first pair
    is accepted with the score 13.5, although no prediction is at most
    13.5. *)
Lemma base_choice_follows_rounding :
  (base_turn rdkit_valence (row_callee ring_flag conjugation_flag)
     (list_predict [Fin (47564 # 10000); Fin (47559 # 10000)]) decimal_round
     [0; 1] ([0], [], []) [hydrazine]).2
    = inr ([0; 2], [Fin (4756 # 1000)], [0])
  ∧ flt (Fin (47559 # 10000)) (Fin (47564 # 10000)) = true
  ∧ (base_turn rdkit_valence (row_callee ring_flag conjugation_flag)
       (list_predict [Fin (135004 # 10000); Fin 14]) decimal_round
       [0; 1] ([0], [], []) [hydrazine]).2
      = inr ([0; 2], [Fin (13500 # 1000)], [0])
  ∧ flt (Fin (27 # 2)) (Fin (135004 # 10000)) = true
  ∧ flt (Fin (27 # 2)) (Fin 14) = true.
Proof. by vm_compute. Qed.

(** Hydrazine again: both nitrogens give a base pair; with the prediction
    4.756 for both the first pair is taken. *)
Lemma base_phase_as_coded_witness :
  ([(0, 2, 0); (0, 4, 1)] : list pair_tuple).*2
    = filter (λ i, base_site hydrazine i) [0; 1]
  ∧ (∃ (data : list PairData) raw,
       const_predict (Fin (4756 # 1000)) data = inr raw ∧
       [Fin (4756 # 1000); Fin (4756 # 1000)] = map (λ x, decimal_round x 3) raw)
  ∧ ∃ idx pka,
      first_min [Fin (4756 # 1000); Fin (4756 # 1000)] idx pka ∧
      (base_sequence (row_callee ring_flag conjugation_flag)
         (const_predict (Fin (4756 # 1000)))
         decimal_round [(0, 2, 0); (0, 4, 1)] ([0], [], [])
         (get_possible_reactions rdkit_valence 0 [0; 1] [hydrazine]).1).2
        = if flt (Fin (27 # 2)) pka then inr ([0], [], [])
          else match ([(0, 2, 0); (0, 4, 1)] : list pair_tuple) !! idx with
               | Some (p, d, i) => inr ([0] ++ [d], [] ++ [pka], [] ++ [i])
               | None => inl IndexError
               end.
Proof.
  split.
  - apply (proj2 (proj1 (base_phase_as_coded rdkit_valence PairData
                           (row_callee ring_flag conjugation_flag)
                           (const_predict (Fin (4756 # 1000))) decimal_round)
                    0 [0; 1] [hydrazine] hydrazine eq_refl)
             [(1, 0, 0); (3, 0, 1)] [(0, 2, 0); (0, 4, 1)]).
    by vm_compute.
  - apply (proj2 (proj2 (proj2 (base_phase_as_coded rdkit_valence PairData
                           (row_callee ring_flag conjugation_flag)
                           (const_predict (Fin (4756 # 1000))) decimal_round)
             [(0, 2, 0); (0, 4, 1)] [0] [] []
             (get_possible_reactions rdkit_valence 0 [0; 1] [hydrazine]).1))).
    done.
Defined.

(** ** C4, C10: the search as a whole *)

Lemma length_mol_tuples (mols : list nat) : length (mol_tuples mols) = length mols - 1.
Proof.
  induction mols as [|a [|b rest] IH]; [done|done|].
  change (mol_tuples (a :: b :: rest)) with ((a, b) :: mol_tuples (b :: rest)).
  simpl in *. lia.
Qed.

Section QueryFacts.
Variable valence_of : Mol → nat → option (nat * nat).
Variable encoded : Type.
Variable paired_mol_data : Mol → Mol → nat → exn + encoded.
Variable predict : list encoded → exn + list float.
Variable np_round : float → Z → float.

Lemma mol_query_search_spec fuel mol matches h m :
  h !! mol = Some m →
  match (mol_query_search valence_of paired_mol_data predict np_round fuel mol matches h).2 with
  | inl _ => True
  | inr None =>
      fuel ≤ room_sum acid_room m matches ∨ fuel ≤ room_sum base_room m matches
  | inr (Some res) =>
      turns res = length (res_pka res) + 2 ∧
      length (res_pka res)
        ≤ room_sum acid_room m matches + room_sum base_room m matches ∧
      length (res_mol res) = length (res_pka res) ∧
      length (res_atom res) = length (res_pka res) ∧
      Forall (λ q, ∃ raw, q = np_round raw 3) (res_pka res) ∧
      Forall (λ i, i ∈ matches) (res_atom res)
  end.
Proof.
  intros Hm. unfold mol_query_search.
  pose proof (acid_loop_spec valence_of encoded paired_mol_data predict np_round
                fuel matches [mol] [] [] 0 h mol m eq_refl Hm) as Hacid.
  destruct (acid_loop valence_of paired_mol_data predict np_round fuel matches
              ([mol], [], []) 0 h) as [h1 r1] eqn:Hrun1.
  cbn [fst snd] in Hacid. destruct Hacid as [Hgrow1 Hr1].
  destruct r1 as [e|[[[[mols1 pkas1] atoms1] n1]|]].
  - erewrite bind_inl; [|exact Hrun1]. done.
  - erewrite bind_inr; [|exact Hrun1].
    destruct Hr1 as (newm & newp & newa & -> & -> & -> & Hadd1 & _).
    rewrite !app_nil_r.
    destruct Hgrow1 as [_ Hkeep]. destruct (Hkeep _ _ Hm) as [s Hs].
    pose proof (base_loop_spec valence_of encoded paired_mol_data predict np_round
                  fuel matches (newm ++ [mol]) newp newa 0
                  h1 mol (with_sssAtoms s m) (last_snoc _ _) Hs) as Hbase.
    destruct (base_loop valence_of paired_mol_data predict np_round fuel matches _ 0 h1)
      as [h2 r2] eqn:Hrun2.
    cbn [fst snd] in Hbase. destruct Hbase as [_ Hr2].
    destruct r2 as [e|[[[[mols2 pkas2] atoms2] n2]|]].
    + erewrite bind_inl; [|exact Hrun2]. done.
    + erewrite bind_inr; [|exact Hrun2]. cbn [snd ret].
      destruct Hr2 as (newm2 & newp2 & newa2 & -> & -> & -> & Hadd2 & _).
      destruct Hadd1 as (Hl1 & Hl1' & Hn1 & Hcap1 & Hround1 & Hin1).
      destruct Hadd2 as (Hl2 & Hl2' & Hn2 & Hcap2 & Hround2 & Hin2).
      change (room_sum base_room (with_sssAtoms s m) matches)
        with (room_sum base_room m matches) in Hcap2.
      cbn [turns res_pka res_mol res_atom].
      rewrite length_mol_tuples, !length_app. simpl.
      split_and!; [lia|lia|lia|lia| |]; by apply list.Forall_app.
    + erewrite bind_inr; [|exact Hrun2]. cbn [snd ret]. by right.
  - erewrite bind_inr; [|exact Hrun1]. cbn [snd ret]. by left.
Qed.

(** With distinct sites whose formal charges lie between -1 and 1, the two
    phases have room for at most two steps per site. *)
Lemma rooms_bounded m matches :
  NoDup matches →
  (∀ i, i ∈ matches → ∃ a, atoms m !! i = Some a ∧ (-1 <= FormalCharge a <= 1)%Z) →
  room_sum acid_room m matches + room_sum base_room m matches ≤ 2 * length matches ∧
  length matches ≤ length (atoms m).
Proof.
  intros Hnd Hsites. split.
  - clear Hnd. unfold room_sum. induction matches as [|i l IH]; [done|].
    simpl. destruct (Hsites i) as (a & Ha & Hc); [by left|].
    specialize (IH ltac:(intros j Hj; apply Hsites; by right)).
    assert (site_room acid_room m i + site_room base_room m i ≤ 2); [|lia].
    unfold site_room. rewrite Ha. unfold acid_room, base_room.
    destruct (AtomicNum a =? 7); lia.
  - assert (Hsub : matches ⊆ seq 0 (length (atoms m))).
    { intros i Hi. destruct (Hsites i Hi) as (a & Ha & _).
      apply elem_of_seq. apply lookup_lt_Some in Ha. lia. }
    apply NoDup_submseteq in Hsub; [|done].
    apply submseteq_length in Hsub. by rewrite length_seq in Hsub.
Qed.

(** Two regressors whose predictions agree after rounding give the same
    scores. *)
Lemma match_pka_rounded_ext (predict' : list encoded → exn + list float) pair_tuples h :
  (∀ data, rounded_predict np_round predict data = rounded_predict np_round predict' data) →
  match_pka paired_mol_data predict np_round pair_tuples h
  = match_pka paired_mol_data predict' np_round pair_tuples h.
Proof.
  intros Hext. unfold match_pka, mbind, M_bind, bind, lift.
  destruct (pair_data_loop _ _ _ _) as [h' [e|data]]; [done|].
  specialize (Hext data). unfold rounded_predict in Hext.
  destruct (predict data), (predict' data); simpl in *; congruence.
Qed.
End QueryFacts.

(** C4 as the code has it.  Both loops end, whatever the regressor
    predicts and whether or not scoring raises: with more fuel than the
    formal charges of the candidate sites leave room for, the search
    returns a result or raises (it never runs out of fuel), and so does
    [mol_query] once its inputs are prepared.  Each loop ends with the
    first turn that does not lengthen the pKa list, so the two loops
    together take two turns more than there are pKa values in the result.
    The number of values is bounded by the room the charges leave; for
    distinct sites with formal charges between -1 and 1 that is at most
    twice the number of sites, hence at most twice the atom count, and the
    number of turns at most that plus two. *)
Theorem search_terminates
    (valence_of : Mol → nat → option (nat * nat))
    (encoded : Type) (paired_mol_data : Mol → Mol → nat → exn + encoded)
    (predict : list encoded → exn + list float) (np_round : float → Z → float) :
  (∀ fuel mol matches h m,
     h !! mol = Some m →
     room_sum acid_room m matches < fuel →
     room_sum base_room m matches < fuel →
     match (mol_query_search valence_of paired_mol_data predict np_round
              fuel mol matches h).2 with
     | inl _ => True
     | inr None => False
     | inr (Some res) =>
         turns res = length (res_pka res) + 2 ∧
         length (res_pka res)
           ≤ room_sum acid_room m matches + room_sum base_room m matches
     end)
  ∧ (∀ m matches,
       NoDup matches →
       (∀ i, i ∈ matches →
             ∃ a, atoms m !! i = Some a ∧ (-1 <= FormalCharge a <= 1)%Z) →
       room_sum acid_room m matches + room_sum base_room m matches
         ≤ 2 * length matches ∧
       length matches ≤ length (atoms m))
  ∧ (∀ run_with_mol_list smiles_round_trip fuel mol h h1 mol' matches m,
       mol_query_inputs run_with_mol_list smiles_round_trip mol h
         = (h1, inr (mol', matches)) →
       h1 !! mol' = Some m →
       room_sum acid_room m matches < fuel →
       room_sum base_room m matches < fuel →
       (mol_query valence_of paired_mol_data predict np_round
          run_with_mol_list smiles_round_trip fuel mol h).2
         ≠ inr None)
  ∧ (∀ fuel matches s n h,
       acid_loop valence_of paired_mol_data predict np_round (S fuel) matches s n h =
         match acid_turn valence_of paired_mol_data predict np_round matches s h with
         | (h', inl e) => (h', inl e)
         | (h', inr s') =>
             if length s'.1.2 <=? length s.1.2 then (h', inr (Some (s', S n)))
             else acid_loop valence_of paired_mol_data predict np_round fuel matches s' (S n) h'
         end)
  ∧ (∀ fuel matches s n h,
       base_loop valence_of paired_mol_data predict np_round (S fuel) matches s n h =
         match base_turn valence_of paired_mol_data predict np_round matches s h with
         | (h', inl e) => (h', inl e)
         | (h', inr s') =>
             if length s'.1.2 <=? length s.1.2 then (h', inr (Some (s', S n)))
             else base_loop valence_of paired_mol_data predict np_round fuel matches s' (S n) h'
         end).
Proof.
  split_and!.
  - intros fuel mol matches h m Hm Hf1 Hf2.
    pose proof (mol_query_search_spec valence_of encoded paired_mol_data predict np_round
                  fuel mol matches h m Hm) as H.
    destruct ((mol_query_search valence_of paired_mol_data predict np_round
                 fuel mol matches h).2) as [e|[res|]]; [done|tauto|lia].
  - apply rooms_bounded.
  - intros run_with_mol_list smiles_round_trip fuel mol h h1 mol' matches m Hin Hm Hf1 Hf2.
    unfold mol_query. erewrite bind_inr; [|exact Hin]. cbn [fst snd].
    pose proof (mol_query_search_spec valence_of encoded paired_mol_data predict np_round
                  fuel mol' matches h1 m Hm) as H.
    destruct ((mol_query_search valence_of paired_mol_data predict np_round
                 fuel mol' matches h1).2) as [e|[res|]]; [done|done|lia].
  - intros fuel matches s n h. cbn [acid_loop]. unfold mbind, M_bind, bind.
    destruct (acid_turn valence_of paired_mol_data predict np_round matches s h)
      as [h' [e|s']]; [done|].
    by destruct (length s'.1.2 <=? length s.1.2).
  - intros fuel matches s n h. cbn [base_loop]. unfold mbind, M_bind, bind.
    destruct (base_turn valence_of paired_mol_data predict np_round matches s h)
      as [h' [e|s']]; [done|].
    by destruct (length s'.1.2 <=? length s.1.2).
Qed.

(** Each loop runs its body at least once.  On a molecule without atoms
    (and so without candidate sites) nothing is scored, each loop takes its
    one closing turn, and the two turns exceed twice the atom count. *)
Lemma empty_molecule_takes_two_turns :
  (mol_query_search rdkit_valence three_parameter_callee (const_predict (Fin 7))
     decimal_round 10 0 [] [mkMol [] [] None]).2
    = inr (Some (mkResult [] [] [] 2)) ∧
  length (atoms (mkMol [] [] None)) = 0 ∧
  ¬ (2 ≤ 2 * length (atoms (mkMol [] [] None))).
Proof. split_and!; [by vm_compute|done|simpl; lia]. Qed.

(** Hydrazine with both nitrogens as candidate sites, a callee that
    returns and a regressor that predicts 7 for every pair: the acid loop
    takes three turns and the base loop three, six turns for a molecule of
    two atoms and four pKa values. *)
Lemma search_terminates_witness :
  match (mol_query_search rdkit_valence (row_callee ring_flag conjugation_flag)
           (const_predict (Fin 7)) decimal_round 10 0 [0; 1] [hydrazine]).2 with
  | inl _ => True
  | inr None => False
  | inr (Some res) =>
      turns res = length (res_pka res) + 2 ∧
      length (res_pka res)
        ≤ room_sum acid_room hydrazine [0; 1] + room_sum base_room hydrazine [0; 1]
  end
  ∧ (mol_query_search rdkit_valence (row_callee ring_flag conjugation_flag)
       (const_predict (Fin 7)) decimal_round 10 0 [0; 1] [hydrazine]).2
      = inr (Some (mkResult [(7, 1); (1, 0); (0, 14); (14, 20)]
                     [Fin (7000 # 1000); Fin (7000 # 1000); Fin (7000 # 1000);
                      Fin (7000 # 1000)]
                     [1; 0; 0; 1] 6)).
Proof.
  split; [|by vm_compute].
  apply (proj1 (search_terminates rdkit_valence PairData
                  (row_callee ring_flag conjugation_flag) (const_predict (Fin 7))
                  decimal_round)
           10 0 [0; 1] [hydrazine] hydrazine eq_refl).
  - vm_compute. lia.
  - vm_compute. lia.
Defined.

(** ** C10 *)

(** C10: whatever [match_pka] returns has passed through [np.round(., 3)];
    the value [acid_sequence] and [base_sequence] pick, test against 0.5
    and 13.5 and store is such a rounded prediction; every pKa value in the
    result of the search is one; and the two functions see the predictions
    through [np.round] only: regressors whose predictions agree after
    rounding give the same outcome.  So raw predictions that round to the
    same value tie, and the first pair is taken although its raw prediction
    is the smaller one (hydrazine, raw predictions 1.0001 and 1.0004). *)
Theorem pkas_are_rounded
    (valence_of : Mol → nat → option (nat * nat))
    (encoded : Type) (paired_mol_data : Mol → Mol → nat → exn + encoded)
    (predict : list encoded → exn + list float) (np_round : float → Z → float) :
  (∀ pair_tuples h scores,
     (match_pka paired_mol_data predict np_round pair_tuples h).2 = inr scores →
     ∃ data raw, predict data = inr raw ∧ scores = map (λ x, np_round x 3%Z) raw)
  ∧ (∀ acid_pairs s h s',
       (acid_sequence paired_mol_data predict np_round acid_pairs s h).2 = inr s' →
       s' = s ∨ ∃ data raws raw,
                  predict data = inr raws ∧ raw ∈ raws ∧
                  s'.1.2 = np_round raw 3%Z :: s.1.2 ∧
                  flt (np_round raw 3%Z) (Fin (1 # 2)) = false)
  ∧ (∀ base_pairs s h s',
       (base_sequence paired_mol_data predict np_round base_pairs s h).2 = inr s' →
       s' = s ∨ ∃ data raws raw,
                  predict data = inr raws ∧ raw ∈ raws ∧
                  s'.1.2 = s.1.2 ++ [np_round raw 3%Z] ∧
                  flt (Fin (27 # 2)) (np_round raw 3%Z) = false)
  ∧ (∀ fuel mol matches h m res,
       h !! mol = Some m →
       (mol_query_search valence_of paired_mol_data predict np_round fuel mol matches h).2
         = inr (Some res) →
       Forall (λ q, ∃ raw, q = np_round raw 3%Z) (res_pka res))
  ∧ (∀ predict' : list encoded → exn + list float,
       (∀ data, rounded_predict np_round predict data
                = rounded_predict np_round predict' data) →
       ∀ pairs s h,
         acid_sequence paired_mol_data predict np_round pairs s h
           = acid_sequence paired_mol_data predict' np_round pairs s h ∧
         base_sequence paired_mol_data predict np_round pairs s h
           = base_sequence paired_mol_data predict' np_round pairs s h)
  ∧ flt (Fin (10001 # 10000)) (Fin (10004 # 10000)) = true
  ∧ decimal_round (Fin (10001 # 10000)) 3 = decimal_round (Fin (10004 # 10000)) 3
  ∧ (acid_turn rdkit_valence (row_callee ring_flag conjugation_flag)
       (list_predict [Fin (10001 # 10000); Fin (10004 # 10000)]) decimal_round
       [0; 1] ([0], [], []) [hydrazine]).2
      = inr ([1; 0], [Fin (1000 # 1000)], [0]).
Proof.
  split_and!.
  - intros pair_tuples h scores. apply match_pka_rounded.
  - intros acid_pairs [[mols pkas] atoms] h s'. rewrite acid_sequence_run. cbn [snd].
    destruct (0 <? length acid_pairs); [|by intros [= <-]; left].
    destruct ((match_pka _ _ _ _ _).2) as [e|scores] eqn:Hscore; [done|].
    apply match_pka_rounded in Hscore as (data & raws & Hraws & ->).
    pose proof (py_max_spec (map (λ x, np_round x 3%Z) raws)) as Hmax.
    destruct (py_max _) as [e|[idx pka]]; [done|]. cbn [fst snd] in *.
    destruct (flt pka (Fin (1 # 2))) eqn:Hthr; [by intros [= <-]; left|].
    destruct (acid_pairs !! idx) as [p|]; [|done].
    intros [= <-]. right. destruct Hmax as [Hidx _].
    rewrite map_is_fmap in Hidx. apply list_lookup_fmap_Some in Hidx as (raw & -> & Hraw).
    exists data, raws, raw. split_and!; [done|by eapply list_elem_of_lookup_2|done|done].
  - intros base_pairs [[mols pkas] atoms] h s'. rewrite base_sequence_run. cbn [snd].
    destruct (0 <? length base_pairs); [|by intros [= <-]; left].
    destruct ((match_pka _ _ _ _ _).2) as [e|scores] eqn:Hscore; [done|].
    apply match_pka_rounded in Hscore as (data & raws & Hraws & ->).
    pose proof (py_min_spec (map (λ x, np_round x 3%Z) raws)) as Hmin.
    destruct (py_min _) as [e|[idx pka]]; [done|]. cbn [fst snd] in *.
    destruct (flt (Fin (27 # 2)) pka) eqn:Hthr; [by intros [= <-]; left|].
    destruct (base_pairs !! idx) as [p|]; [|done].
    intros [= <-]. right. destruct Hmin as [Hidx _].
    rewrite map_is_fmap in Hidx. apply list_lookup_fmap_Some in Hidx as (raw & -> & Hraw).
    exists data, raws, raw. split_and!; [done|by eapply list_elem_of_lookup_2|done|done].
  - intros fuel mol matches h m res Hm Hres.
    pose proof (mol_query_search_spec valence_of encoded paired_mol_data predict np_round
                  fuel mol matches h m Hm) as H.
    rewrite Hres in H. by destruct H as (_ & _ & _ & _ & Hround & _).
  - intros predict' Hext pairs [[mols pkas] atoms] h.
    rewrite !acid_sequence_run, !base_sequence_run.
    by rewrite (match_pka_rounded_ext _ _ _ _ predict' pairs h Hext).
  - reflexivity.
  - reflexivity.
  - by vm_compute.
Qed.

(** The four values of the search on hydrazine are rounded predictions. *)
Lemma pkas_are_rounded_witness :
  Forall (λ q, ∃ raw, q = decimal_round raw 3)
    [Fin (7000 # 1000); Fin (7000 # 1000); Fin (7000 # 1000); Fin (7000 # 1000)].
Proof.
  apply (proj1 (proj2 (proj2 (proj2 (pkas_are_rounded rdkit_valence PairData
                  (row_callee ring_flag conjugation_flag) (const_predict (Fin 7))
                  decimal_round))))
           10 0 [0; 1] [hydrazine] hydrazine
           (mkResult [(7, 1); (1, 0); (0, 14); (14, 20)]
              [Fin (7000 # 1000); Fin (7000 # 1000); Fin (7000 # 1000); Fin (7000 # 1000)]
              [1; 0; 0; 1] 6) eq_refl).
  by vm_compute.
Defined.

(** ** C7: the ionization-site enumerator *)

Lemma len_set_gt_one {A} `{EqDecision A} (l : list A) :
  1 < len_set l ↔ ∃ x y, x ∈ l ∧ y ∈ l ∧ x ≠ y.
Proof.
  unfold len_set. pose proof (NoDup_remove_dups l) as Hnd.
  split.
  - destruct (remove_dups l) as [|x [|y k]] eqn:E; simpl; [lia|lia|]. intros _.
    exists x, y. rewrite <- !(elem_of_remove_dups l), E.
    split_and!; [by left|by right; left|].
    intros ->. apply list.NoDup_cons in Hnd as [Hx _]. apply Hx. by left.
  - intros (x & y & Hx & Hy & Hne).
    rewrite <- (elem_of_remove_dups l) in Hx, Hy.
    destruct (remove_dups l) as [|z [|z' k]]; simpl; [|exfalso|lia].
    + by apply elem_of_nil in Hx.
    + apply list_elem_of_singleton in Hx, Hy. congruence.
Qed.

Lemma len_set_one {A} `{EqDecision A} (l : list A) :
  len_set l = 1 ↔ l ≠ [] ∧ ∀ x y, x ∈ l → y ∈ l → x = y.
Proof.
  split.
  - intros H1. split.
    + intros ->. done.
    + intros x y Hx Hy. destruct (decide (x = y)) as [|Hne]; [done|].
      assert (1 < len_set l) by (apply len_set_gt_one; eauto). lia.
  - intros [Hne Hall].
    assert (¬ 1 < len_set l).
    { rewrite len_set_gt_one. intros (x & y & Hx & Hy & Hxy). by apply Hxy, Hall. }
    assert (len_set l ≠ 0).
    { unfold len_set. destruct l as [|x l]; [done|].
      intros H0. apply length_zero_iff_nil in H0.
      assert (x ∈ remove_dups (x :: l)) by (apply elem_of_remove_dups; by left).
      rewrite H0 in H1. by apply elem_of_nil in H1. }
    lia.
Qed.

Lemma fold_append_filter (f : nat → bool) (l acc : list nat) :
  fold_left (λ ion_idx i, if f i then ion_idx ++ [i] else ion_idx) l acc
    = acc ++ List.filter f l.
Proof.
  revert acc. induction l as [|i l IH]; intros acc; simpl; [by rewrite app_nil_r|].
  rewrite IH. destruct (f i); [by rewrite <- app_assoc|done].
Qed.

Lemma filter_seq_sorted (f : nat → bool) n : ∀ a,
  StronglySorted lt (List.filter f (seq a n)) ∧
  ∀ i, i ∈ List.filter f (seq a n) ↔ (a ≤ i < a + n ∧ f i = true).
Proof.
  induction n as [|n IH]; intros a; simpl.
  - split; [constructor|]. intros i. split; [by intros ?%elem_of_nil|lia].
  - destruct (IH (S a)) as [Hs Hin]. destruct (f a) eqn:Hfa.
    + split.
      * constructor; [done|]. apply List.Forall_forall. intros i Hi.
        apply list_elem_of_In, Hin in Hi. lia.
      * intros i. rewrite elem_of_cons, Hin. split.
        -- intros [->|[? ?]]; [split; [lia|done]|split; [lia|done]].
        -- intros [? ?]. destruct (decide (i = a)); [by left|right; split; [lia|done]].
    + split; [done|]. intros i. rewrite Hin. split.
      * intros [? ?]. split; [lia|done].
      * intros [? ?]. destruct (decide (i = a)) as [->|]; [congruence|split; [lia|done]].
Qed.

Lemma nth_charge m i :
  i < length (atoms m) →
  charge_at m i = Some (nth i (map FormalCharge (atoms m)) 0%Z).
Proof.
  intros Hi. unfold charge_at.
  destruct (lookup_lt_is_Some_2 _ _ Hi) as [a Ha]. rewrite Ha. simpl. f_equal.
  rewrite map_is_fmap. symmetry. apply nth_lookup_Some. by rewrite list_lookup_fmap, Ha.
Qed.

Lemma elem_of_column (mol_lst : list Mol) i x :
  x ∈ map (λ row, nth i row 0%Z) (map (λ mol, map FormalCharge (atoms mol)) mol_lst) ↔
  ∃ m, m ∈ mol_lst ∧ x = nth i (map FormalCharge (atoms m)) 0%Z.
Proof.
  rewrite map_map, map_is_fmap, list_elem_of_fmap. split.
  - intros (m & -> & Hm). by exists m.
  - intros (m & Hm & ->). by exists m.
Qed.

(** C7: on a non-empty list of molecules with the same atom count [n],
    [get_ionization_indices] returns a strictly ascending list holding
    exactly the atom indices below [n] at which two of the molecules have
    different formal charges; on one or more copies of the same molecule it
    returns the empty list; and it fails (the assertion) on the empty list
    and whenever two of the molecules differ in atom count. *)
Theorem get_ionization_indices_spec :
  (∀ mol_lst n,
     mol_lst ≠ [] →
     Forall (λ m, length (atoms m) = n) mol_lst →
     ∃ l, get_ionization_indices mol_lst = inr l ∧
          StronglySorted lt l ∧
          ∀ i, i ∈ l ↔
               i < n ∧ ∃ m1 m2, m1 ∈ mol_lst ∧ m2 ∈ mol_lst ∧
                                charge_at m1 i ≠ charge_at m2 i)
  ∧ (∀ m k, get_ionization_indices (replicate (S k) m) = inr [])
  ∧ (∀ mol_lst m1 m2,
       m1 ∈ mol_lst → m2 ∈ mol_lst → length (atoms m1) ≠ length (atoms m2) →
       get_ionization_indices mol_lst = inl AssertionError)
  ∧ get_ionization_indices [] = inl AssertionError.
Proof.
  assert (Hmain : ∀ mol_lst n,
     mol_lst ≠ [] →
     Forall (λ m, length (atoms m) = n) mol_lst →
     ∃ l, get_ionization_indices mol_lst = inr l ∧
          StronglySorted lt l ∧
          ∀ i, i ∈ l ↔
               i < n ∧ ∃ m1 m2, m1 ∈ mol_lst ∧ m2 ∈ mol_lst ∧
                                charge_at m1 i ≠ charge_at m2 i).
  { intros mol_lst n Hne Hall. rewrite list.Forall_forall in Hall.
    unfold get_ionization_indices.
    assert (Hone : len_set (map (λ mol, length (atoms mol)) mol_lst) = 1).
    { apply len_set_one. split.
      - destruct mol_lst; done.
      - intros x y. rewrite !map_is_fmap, !list_elem_of_fmap.
        intros (mx & -> & Hx) (my & -> & Hy). by rewrite !Hall. }
    rewrite Hone. simpl.
    set (atoms_arr := map (λ mol, map FormalCharge (atoms mol)) mol_lst).
    assert (Hshape : length (hd [] atoms_arr) = n).
    { unfold atoms_arr. destruct mol_lst as [|m0 rest]; [done|]. simpl.
      rewrite length_map. apply Hall. by left. }
    rewrite Hshape.
    set (f := λ i, 1 <? len_set (map (λ row, nth i row 0%Z) atoms_arr)).
    rewrite (fold_append_filter f). simpl.
    destruct (filter_seq_sorted f n 0) as [Hs Hin].
    eexists. split_and!; [done|done|].
    intros i. rewrite Hin. unfold f. rewrite Nat.ltb_lt, len_set_gt_one.
    split.
    - intros [Hi (x & y & Hx & Hy & Hxy)]. split; [lia|].
      apply elem_of_column in Hx as (m1 & H1 & ->), Hy as (m2 & H2 & ->).
      exists m1, m2. split_and!; [done|done|].
      rewrite !nth_charge by (rewrite Hall by done; lia). congruence.
    - intros [Hi (m1 & m2 & H1 & H2 & Hne12)]. split; [lia|].
      rewrite !nth_charge in Hne12 by (rewrite Hall by done; lia).
      exists (nth i (map FormalCharge (atoms m1)) 0%Z),
             (nth i (map FormalCharge (atoms m2)) 0%Z).
      split_and!; [apply elem_of_column; by exists m1
                  |apply elem_of_column; by exists m2|congruence]. }
  split_and!.
  - exact Hmain.
  - intros m k.
    destruct (Hmain (replicate (S k) m) (length (atoms m))) as (l & Hl & _ & Hin).
    { done. }
    { apply Forall_replicate. done. }
    rewrite Hl. f_equal. destruct l as [|i l]; [done|].
    destruct (proj1 (Hin i) ltac:(by left)) as (_ & m1 & m2 & H1 & H2 & Hne).
    apply elem_of_replicate in H1 as [-> _], H2 as [-> _]. done.
  - intros mol_lst m1 m2 H1 H2 Hne. unfold get_ionization_indices.
    assert (1 < len_set (map (λ mol, length (atoms mol)) mol_lst)) as Hgt.
    { apply len_set_gt_one. exists (length (atoms m1)), (length (atoms m2)).
      rewrite !map_is_fmap. split_and!; [|  |done].
      - apply list_elem_of_fmap. by exists m1.
      - apply list_elem_of_fmap. by exists m2. }
    destruct (len_set _ =? 1) eqn:E; [|done]. apply Nat.eqb_eq in E. lia.
  - done.
Qed.

Lemma get_ionization_indices_spec_witness :
  ∃ l, get_ionization_indices [ammonium; ammonia] = inr l ∧
       StronglySorted lt l ∧
       ∀ i, i ∈ l ↔
            i < 1 ∧ ∃ m1 m2, m1 ∈ [ammonium; ammonia] ∧ m2 ∈ [ammonium; ammonia] ∧
                             charge_at m1 i ≠ charge_at m2 i.
Proof.
  apply (proj1 get_ionization_indices_spec [ammonium; ammonia] 1).
  - done.
  - by repeat constructor.
Defined.

(** Ammonium and ammonia differ in the charge of their only atom. *)
Example get_ionization_indices_ammonium :
  get_ionization_indices [ammonium; ammonia] = inr [0] ∧
  get_ionization_indices [ammonia; ammonia] = inr [] ∧
  get_ionization_indices [ammonia; acetic_acid] = inl AssertionError.
Proof. by vm_compute. Qed.

(** ** C8, C9: the feature encoder and the pair builder *)

Lemma make_nodes_shape mol c (feats : list (string * node_feature)) :
  length (make_nodes mol c feats) = length (atoms mol) ∧
  Forall (λ row, length row = length feats) (make_nodes mol c feats).
Proof.
  unfold make_nodes. split; [by rewrite length_imap|].
  apply list.Forall_forall. intros row Hrow.
  apply list_elem_of_lookup in Hrow as [i Hi].
  rewrite list_lookup_imap in Hi.
  destruct (atoms mol !! i) as [a|]; [|done]. injection Hi as <-.
  by rewrite length_map.
Qed.

Lemma make_edges_and_attr_run mol (feats : list (string * edge_feature)) :
  make_edges_and_attr mol feats =
    (concat (map (λ b, [(BeginAtomIdx b, EndAtomIdx b); (EndAtomIdx b, BeginAtomIdx b)])
                 (bonds mol)),
     concat (map (λ b, [map (λ feat, feat.2 mol b) feats; map (λ feat, feat.2 mol b) feats])
                 (bonds mol))).
Proof.
  unfold make_edges_and_attr.
  assert (H : ∀ bs edges attr,
    fold_left
      (λ '(edges, edge_attr) bond,
         let edges := edges ++ [(BeginAtomIdx bond, EndAtomIdx bond)] in
         let edges := edges ++ [(EndAtomIdx bond, BeginAtomIdx bond)] in
         let edge := map (λ feat, feat.2 mol bond) feats in
         (edges, edge_attr ++ [edge; edge])) bs (edges, attr) =
    (edges ++ concat (map (λ b, [(BeginAtomIdx b, EndAtomIdx b);
                                 (EndAtomIdx b, BeginAtomIdx b)]) bs),
     attr ++ concat (map (λ b, [map (λ feat, feat.2 mol b) feats;
                                map (λ feat, feat.2 mol b) feats]) bs))).
  { induction bs as [|b bs IH]; intros edges attr; simpl.
    - by rewrite !app_nil_r.
    - rewrite IH. by rewrite <- !app_assoc. }
  apply (H (bonds mol) [] []).
Qed.

Lemma length_concat_pairs {A B} (f : A → list B) (l : list A) :
  (∀ x, length (f x) = 2) → length (concat (map f l)) = 2 * length l.
Proof.
  intros Hf. induction l as [|x l IH]; [done|].
  simpl. rewrite length_app, Hf, IH. lia.
Qed.

(** C8 on the code.  [make_nodes] returns one row per atom, and each row
    holds one entry per selected feature: the feature function's result as
    it is, a flag list for a one-hot feature, not its flags side by side.
    For toluene with the features "element" and "formal_charge" every row is
    the two lists of 11 and of 3 flags, where the feature widths add up to
    14 columns.  [make_edges_and_attr] lists, bond after bond, the forward
    edge and then the reversed one, and the bond's feature row twice. *)
Theorem make_nodes_one_entry_per_feature
    (GetSubstructMatches : Mol → string → list (list nat)) :
  (∀ mol c (feats : list (string * node_feature)),
     length (make_nodes mol c feats) = length (atoms mol) ∧
     Forall (λ row, length row = length feats) (make_nodes mol c feats))
  ∧ match make_features_dicts (NODE_FEATURES GetSubstructMatches)
            ["element"; "formal_charge"]%string with
    | inr feats =>
        make_nodes toluene 1 feats
          = replicate 7 [FList [0; 1; 0; 0; 0; 0; 0; 0; 0; 0; 0]; FList [0; 1; 0]]
    | inl _ => False
    end
  ∧ feature_width node_feature_values ["element"; "formal_charge"]%string = 14
  ∧ (∀ mol (feats : list (string * edge_feature)),
       make_edges_and_attr mol feats =
         (concat (map (λ b, [(BeginAtomIdx b, EndAtomIdx b);
                             (EndAtomIdx b, BeginAtomIdx b)]) (bonds mol)),
          concat (map (λ b, [map (λ feat, feat.2 mol b) feats;
                             map (λ feat, feat.2 mol b) feats]) (bonds mol))) ∧
       length (make_edges_and_attr mol feats).1 = 2 * length (bonds mol) ∧
       length (make_edges_and_attr mol feats).2 = 2 * length (bonds mol)).
Proof.
  split_and!.
  - apply make_nodes_shape.
  - by vm_compute.
  - by vm_compute.
  - intros mol feats. rewrite make_edges_and_attr_run. cbn [fst snd].
    split_and!; [done| |]; by apply length_concat_pairs.
Qed.

Lemma fold_add_shift l : ∀ a b,
  fold_left Z.add l (a + b)%Z = (a + fold_left Z.add l b)%Z.
Proof.
  induction l as [|y l IH]; intros a b; simpl; [done|].
  rewrite <- Z.add_assoc. apply IH.
Qed.

Lemma np_sum_cons x l : np_sum (x :: l) = (x + np_sum l)%Z.
Proof.
  unfold np_sum. cbn [fold_left].
  rewrite <- (fold_add_shift l x 0). f_equal. lia.
Qed.

Lemma make_edge_index_run mol ef :
  make_edge_index mol ef
  = if bonds mol is [] then inl ValueError else inr (edge_rows mol ef).
Proof.
  unfold make_edge_index, edge_rows. rewrite make_edges_and_attr_run. cbn [fst].
  by destruct (bonds mol).
Qed.

(** One molecule encodes, as [mol_to_features] does it, exactly when its
    feature rows are rectangular and it has a bond; what fails otherwise is
    the packing, with [ValueError]. *)
Lemma encode_one mol c nf ef :
  match make_nodes_tensor mol c nf with
  | inl e => inl e
  | inr node =>
      match make_edges_and_attr_tensors mol ef with
      | inl e => inl e
      | inr (edge_index, edge_attr) =>
          inr (node, edge_index, edge_attr, np_sum (map FormalCharge (atoms mol)))
      end
  end
  = if encodes mol c nf ef
    then inr (make_nodes mol c nf, edge_rows mol ef, (make_edges_and_attr mol ef).2,
              net_charge mol)
    else inl ValueError.
Proof.
  unfold make_nodes_tensor, make_edges_and_attr_tensors, torch_tensor, encodes.
  rewrite make_edge_index_run.
  destruct (rectangular (make_nodes mol c nf)); [|done].
  destruct (bonds mol); [done|].
  by destruct (rectangular (make_edges_and_attr mol ef).2).
Qed.

Lemma mol_to_features_protonated row nf ef :
  mol_to_features row nf ef "protonated"%string
  = if encodes (protonated row) (marvin_atom row) nf ef
    then inr (make_nodes (protonated row) (marvin_atom row) nf,
              edge_rows (protonated row) ef, (make_edges_and_attr (protonated row) ef).2,
              net_charge (protonated row))
    else inl ValueError.
Proof. unfold mol_to_features. cbn [String.eqb Ascii.eqb Bool.eqb]. apply encode_one. Qed.

Lemma mol_to_features_deprotonated row nf ef :
  mol_to_features row nf ef "deprotonated"%string
  = if encodes (deprotonated row) (marvin_atom row) nf ef
    then inr (make_nodes (deprotonated row) (marvin_atom row) nf,
              edge_rows (deprotonated row) ef, (make_edges_and_attr (deprotonated row) ef).2,
              net_charge (deprotonated row))
    else inl ValueError.
Proof. unfold mol_to_features. cbn [String.eqb Ascii.eqb Bool.eqb]. apply encode_one. Qed.

Lemma mol_to_paired_mol_data_run row nf ef :
  mol_to_paired_mol_data row nf ef =
    if encodes (protonated row) (marvin_atom row) nf ef
       && encodes (deprotonated row) (marvin_atom row) nf ef
    then inr (pair_data row nf ef) else inl ValueError.
Proof.
  unfold mol_to_paired_mol_data.
  rewrite mol_to_features_protonated, mol_to_features_deprotonated.
  destruct (encodes (protonated row) _ _ _); [|done].
  by destruct (encodes (deprotonated row) _ _ _).
Qed.

(** C9 as the code has it: [mol_to_paired_mol_data] checks nothing.  It
    encodes the two molecules one after the other and returns whenever each
    of them can be packed (rectangular feature rows, at least one bond),
    with [ValueError] from the packing otherwise; the atom counts are not
    compared.  When it returns, each node matrix has as many rows as its
    own molecule has atoms (the row counts agree exactly when the atom
    counts do), [num_nodes] is the row count of the protonated one, and
    each stored charge is the sum of the formal charges of that molecule's
    atoms. *)
Theorem pair_builder_checks_nothing row
    (n_features : list (string * node_feature))
    (e_features : list (string * edge_feature)) :
  mol_to_paired_mol_data row n_features e_features
    = (if encodes (protonated row) (marvin_atom row) n_features e_features
          && encodes (deprotonated row) (marvin_atom row) n_features e_features
       then inr (pair_data row n_features e_features) else inl ValueError)
  ∧ (∀ data,
       mol_to_paired_mol_data row n_features e_features = inr data →
       length (x_p data) = length (atoms (protonated row)) ∧
       length (x_d data) = length (atoms (deprotonated row)) ∧
       num_nodes data = length (atoms (protonated row)) ∧
       charge_prot data = np_sum (map FormalCharge (atoms (protonated row))) ∧
       charge_deprot data = np_sum (map FormalCharge (atoms (deprotonated row))))
  ∧ np_sum [] = 0%Z ∧ (∀ x l, np_sum (x :: l) = (x + np_sum l)%Z).
Proof.
  split_and!; [apply mol_to_paired_mol_data_run| |done|apply np_sum_cons].
  intros data. rewrite mol_to_paired_mol_data_run.
  destruct (_ && _); [|done]. intros [= <-]. simpl.
  split_and!; try done; apply make_nodes_shape.
Qed.

(** A row pairing methylamine (2 atoms) with ethylamine (3 atoms): the pair
    is built, with 2 and 3 node rows. *)
Lemma mismatched_pair_is_built :
  length (atoms methylamine) ≠ length (atoms ethylamine) ∧
  ∃ data,
    mol_to_paired_mol_data (mkRow methylamine ethylamine 1)
      [("is_in_ring"%string, λ _ atom _ _, FBool (IsInRing atom))]
      [("is_conjugated"%string, λ _ bond, FBool (IsConjugated bond))] = inr data ∧
    length (x_p data) = 2 ∧ length (x_d data) = 3.
Proof. split; [by vm_compute|]. eexists. split; [by vm_compute|done]. Qed.

Lemma pair_builder_checks_nothing_witness :
  length (x_p (pair_data (mkRow methylamine ethylamine 1) ring_flag conjugation_flag))
    = length (atoms (protonated (mkRow methylamine ethylamine 1))) ∧
  length (x_d (pair_data (mkRow methylamine ethylamine 1) ring_flag conjugation_flag))
    = length (atoms (deprotonated (mkRow methylamine ethylamine 1))) ∧
  num_nodes (pair_data (mkRow methylamine ethylamine 1) ring_flag conjugation_flag)
    = length (atoms (protonated (mkRow methylamine ethylamine 1))) ∧
  charge_prot (pair_data (mkRow methylamine ethylamine 1) ring_flag conjugation_flag)
    = np_sum (map FormalCharge (atoms (protonated (mkRow methylamine ethylamine 1)))) ∧
  charge_deprot (pair_data (mkRow methylamine ethylamine 1) ring_flag conjugation_flag)
    = np_sum (map FormalCharge (atoms (deprotonated (mkRow methylamine ethylamine 1)))).
Proof.
  apply (proj1 (proj2 (pair_builder_checks_nothing (mkRow methylamine ethylamine 1)
                         ring_flag conjugation_flag))).
  reflexivity.
Defined.

(** * Proofs for the utilities *)

(** ** [slice_list] and [cross_val_lists] *)

Lemma slice_fill_run {A} n : ∀ (slice it : list A),
  n ≤ length it → slice_fill n slice it = inr (slice ++ take n it, drop n it).
Proof.
  induction n as [|n IH]; intros slice it Hn.
  - simpl. by rewrite take_0, app_nil_r, drop_0.
  - destruct it as [|x it]; [simpl in Hn; lia|].
    simpl in *. rewrite IH by lia. by rewrite <- app_assoc.
Qed.

(** What the outer loop returns when the iterator holds exactly the items
    the remaining turns will ask for. *)
Lemma slice_loop_run {A} q todo : ∀ (result : list (list A)) (it : list A) (r : nat),
  r ≤ todo → length it = todo * q + r →
  ∃ new, slice_loop todo q result it (Z.of_nat r) = inr (result ++ new) ∧
         concat new = it ∧ length new = todo ∧
         ∀ i s, new !! i = Some s → length s = q + (if decide (i < r) then 1 else 0).
Proof.
  induction todo as [|todo IH]; intros result it r Hr Hlen.
  - exists []. simpl. rewrite app_nil_r. assert (r = 0) as -> by lia.
    simpl in Hlen. apply nil_length_inv in Hlen as ->. done.
  - cbn [slice_loop]. rewrite slice_fill_run by (simpl in Hlen; lia). simpl app.
    destruct r as [|r].
    + change (Z.of_nat 0 =? 0)%Z with true. cbv iota.
      destruct (IH (result ++ [take q it]) (drop q it) 0 ltac:(lia)) as (new & Hrun & Hcat & Hnew & Hlens).
      { rewrite length_drop. simpl in Hlen. lia. }
      exists (take q it :: new). rewrite Hrun, <- app_assoc. split_and!; [done| | |].
      * simpl. by rewrite Hcat, take_drop.
      * simpl. by rewrite Hnew.
      * intros [|i] s; simpl.
        -- intros [= <-]. rewrite length_take. simpl in Hlen.
           destruct (decide (0 < 0)); lia.
        -- intros Hs. rewrite (Hlens _ _ Hs).
           destruct (decide (i < 0)), (decide (S i < 0)); lia.
    + replace (Z.of_nat (S r) =? 0)%Z with false by (symmetry; apply Z.eqb_neq; lia).
      destruct (drop q it) as [|x rest] eqn:Hdrop.
      { apply (f_equal length) in Hdrop. rewrite length_drop in Hdrop. simpl in *. lia. }
      cbn [py_next]. replace (Z.of_nat (S r) - 1)%Z with (Z.of_nat r) by lia.
      destruct (IH (result ++ [take q it ++ [x]]) rest r ltac:(lia)) as (new & Hrun & Hcat & Hnew & Hlens).
      { apply (f_equal length) in Hdrop. rewrite length_drop in Hdrop. simpl in *. lia. }
      exists ((take q it ++ [x]) :: new). rewrite Hrun, <- app_assoc. split_and!; [done| | |].
      * simpl. rewrite Hcat, <- app_assoc. simpl. rewrite <- Hdrop. by rewrite take_drop.
      * simpl. by rewrite Hnew.
      * intros [|i] s; simpl.
        -- intros [= <-]. rewrite length_app, length_take. simpl in *.
           destruct (decide (0 < S r)); lia.
        -- intros Hs. rewrite (Hlens _ _ Hs).
           destruct (decide (i < r)), (decide (S i < S r)); lia.
Qed.

Lemma slice_list_run {A} (l : list A) (size : Z) :
  (0 < size)%Z →
  ∃ r, slice_list l size = inr r ∧ concat r = l ∧ length r = Z.to_nat size ∧
       ∀ i s, r !! i = Some s →
         length s = length l / Z.to_nat size
                    + (if decide (i < length l mod Z.to_nat size) then 1 else 0).
Proof.
  intros Hsize. unfold slice_list.
  replace (size =? 0)%Z with false by (symmetry; apply Z.eqb_neq; lia).
  set (n := Z.to_nat size). assert (Hn : size = Z.of_nat n) by lia.
  assert (Hn0 : n ≠ 0) by lia.
  rewrite Hn, <- Nat2Z.inj_div, <- Nat2Z.inj_mod, Nat2Z.id.
  destruct (slice_loop_run (length l / n) n [] l (length l mod n)) as (new & Hrun & Hcat & Hlen & Hs).
  - pose proof (Nat.mod_upper_bound (length l) n Hn0). lia.
  - pose proof (Nat.div_mod (length l) n Hn0). lia.
  - exists new. rewrite Hrun. done.
Qed.

Lemma enumerate_filter_ne {A} (l : list A) (n : nat) : ∀ k,
  map snd (List.filter (λ ix : nat * A, negb (Z.of_nat ix.1 =? Z.of_nat n)%Z)
             (imap (λ i, pair (k + i)) l))
  = if decide (k ≤ n) then take (n - k) l ++ drop (S (n - k)) l else l.
Proof.
  induction l as [|x l IH]; intros k.
  - simpl. destruct (decide (k ≤ n)); [|done]. by rewrite take_nil.
  - rewrite imap_cons. cbn [List.filter fst].
    rewrite (imap_ext _ (λ i, pair (S k + i))) by (intros; simpl; f_equal; lia).
    specialize (IH (S k)).
    destruct (decide (k ≤ n)) as [Hle|Hgt].
    + destruct (decide (k = n)) as [->|Hne].
      * replace (n + 0) with n by lia. rewrite Z.eqb_refl. cbn [negb].
        rewrite IH. destruct (decide (S n ≤ n)); [lia|].
        by replace (n - n) with 0 by lia.
      * replace (Z.of_nat (k + 0) =? Z.of_nat n)%Z with false by (symmetry; apply Z.eqb_neq; lia).
        cbn [negb map snd]. rewrite IH. destruct (decide (S k ≤ n)); [|lia].
        replace (n - k) with (S (n - S k)) by lia. done.
    + replace (Z.of_nat (k + 0) =? Z.of_nat n)%Z with false by (symmetry; apply Z.eqb_neq; lia).
      cbn [negb map snd]. rewrite IH. destruct (decide (S k ≤ n)); [lia|done].
Qed.

Lemma enumerate_filter_neg {A} (l : list A) (num : Z) : (num < 0)%Z → ∀ k,
  map snd (List.filter (λ ix : nat * A, negb (Z.of_nat ix.1 =? num)%Z)
             (imap (λ i, pair (k + i)) l)) = l.
Proof.
  intros Hneg. induction l as [|x l IH]; intros k; [done|].
  rewrite imap_cons. cbn [List.filter fst].
  replace (Z.of_nat (k + 0) =? num)%Z with false by (symmetry; apply Z.eqb_neq; lia).
  cbn [negb map snd].
  rewrite (imap_ext _ (λ i, pair (S k + i))) by (intros; simpl; f_equal; lia).
  by rewrite IH.
Qed.

Lemma not_flattend_nat {A} (sliced : list (list A)) (n : nat) :
  map snd (List.filter (λ ix : nat * list A, negb (Z.of_nat ix.1 =? Z.of_nat n)%Z)
             (enumerate sliced))
  = take n sliced ++ drop (S n) sliced.
Proof.
  unfold enumerate. rewrite (imap_ext _ (λ i, pair (0 + i))) by done.
  rewrite enumerate_filter_ne. destruct (decide (0 ≤ n)); [|lia].
  by replace (n - 0) with n by lia.
Qed.

Lemma concat_is_mjoin {A} (l : list (list A)) : concat l = mjoin l.
Proof. induction l as [|x l IH]; [done|]. simpl. by rewrite IH. Qed.

Lemma concat_split_at {A} (sliced : list (list A)) n val :
  sliced !! n = Some val →
  concat (take n sliced ++ drop (S n) sliced) ++ val ≡ₚ concat sliced.
Proof.
  intros Hn. rewrite <- (take_drop_middle sliced n val Hn) at 3.
  rewrite !concat_app. simpl. rewrite <- app_assoc.
  apply Permutation_app_head. apply Permutation_app_comm.
Qed.

Lemma NoDup_concat_unique {A} (r : list (list A)) : 
  NoDup (concat r) → ∀ i j s t x,
  r !! i = Some s → r !! j = Some t → x ∈ s → x ∈ t → i = j.
Proof.
  induction r as [|a r IH]; intros Hnd i j s t x Hi Hj Hs Ht; [done|].
  simpl in Hnd. apply list.NoDup_app in Hnd as (Ha & Hdis & Hr).
  assert (Hin : ∀ k u, r !! k = Some u → x ∈ u → x ∈ concat r).
  { intros k u Hk Hu. rewrite concat_is_mjoin. apply list_elem_of_join.
    exists u. split; [done|]. by eapply list_elem_of_lookup_2. }
  destruct i as [|i], j as [|j]; simpl in *.
  - done.
  - injection Hi as <-. exfalso. eapply Hdis; [exact Hs|]. by eapply Hin.
  - injection Hj as <-. exfalso. eapply Hdis; [exact Ht|]. by eapply Hin.
  - f_equal. by eapply IH.
Qed.

(** X1: for a positive [size], [slice_list] returns (the iterator never
    runs dry) exactly [size] slices which, laid end to end, are the input
    list: no item is lost, repeated or moved. *)
Theorem slice_list_partitions {A} (input_list : list A) (size : Z) :
  (0 < size)%Z →
  ∃ result, slice_list input_list size = inr result ∧
            length result = Z.to_nat size ∧ concat result = input_list.
Proof.
  intros Hsize. destruct (slice_list_run input_list size Hsize) as (r & Hr & Hcat & Hlen & _).
  by exists r.
Qed.

Lemma slice_list_partitions_witness :
  ∃ result, slice_list [10; 20; 30; 40; 50] 2 = inr result ∧
            length result = Z.to_nat 2 ∧ concat result = [10; 20; 30; 40; 50].
Proof. apply (slice_list_partitions [10; 20; 30; 40; 50] 2). lia. Defined.

(** X2: for a positive [size], slice [i] of [slice_list] holds the integer
    quotient of the list length by [size], and one item more when [i] is
    below the remainder: the slices differ in length by at most one and the
    longer ones come first (with [size] above the length the last slices are
    empty). *)
Theorem slice_list_balanced {A} (input_list : list A) (size : Z) result i slice :
  (0 < size)%Z →
  slice_list input_list size = inr result →
  result !! i = Some slice →
  length slice = length input_list / Z.to_nat size
                 + (if decide (i < length input_list mod Z.to_nat size) then 1 else 0).
Proof.
  intros Hsize Hrun Hi.
  destruct (slice_list_run input_list size Hsize) as (r & Hr & _ & _ & Hlens).
  rewrite Hr in Hrun. injection Hrun as <-. by apply Hlens.
Qed.

Lemma slice_list_balanced_witness :
  length [10; 20; 30] = length [10; 20; 30; 40; 50] / Z.to_nat 2
     + (if decide (0 < length [10; 20; 30; 40; 50] mod Z.to_nat 2) then 1 else 0).
Proof.
  apply (slice_list_balanced [10; 20; 30; 40; 50] 2 [[10; 20; 30]; [40; 50]] 0 [10; 20; 30]).
  - lia.
  - reflexivity.
  - reflexivity.
Defined.

(** X3: [slice_list] divides by [size] before anything else, so a [size] of
    zero raises [ZeroDivisionError]; a negative [size] gives an empty
    [range] and the result is the empty list of slices, whatever the input
    holds. *)
Theorem slice_list_without_slices {A} (input_list : list A) (size : Z) :
  (size <= 0)%Z →
  slice_list input_list size = if (size =? 0)%Z then inl ZeroDivisionError else inr [].
Proof.
  intros Hsize. unfold slice_list. destruct (size =? 0)%Z eqn:E; [done|].
  apply Z.eqb_neq in E. by replace (Z.to_nat size) with 0 by lia.
Qed.

Lemma slice_list_without_slices_witness :
  slice_list [10; 20; 30] (-2) = inr [].
Proof. apply (slice_list_without_slices [10; 20; 30] (-2)). lia. Defined.

(** X4: for a position [num] inside [sliced_lists], [cross_val_lists]
    returns slice [num] as the validation list and the other slices, in
    their order and flattened, as the training list; together the two are a
    rearrangement of all the items. *)
Theorem cross_val_lists_fold {A} (sliced_lists : list (list A)) (num : nat) val_list :
  sliced_lists !! num = Some val_list →
  cross_val_lists sliced_lists (Z.of_nat num)
    = inr (concat (take num sliced_lists ++ drop (S num) sliced_lists), val_list)
  ∧ concat (take num sliced_lists ++ drop (S num) sliced_lists) ++ val_list
      ≡ₚ concat sliced_lists.
Proof.
  intros Hnum. split; [|by apply concat_split_at].
  unfold cross_val_lists. rewrite not_flattend_nat.
  unfold py_get_Z. replace (0 <=? Z.of_nat num)%Z with true by (symmetry; apply Z.leb_le; lia).
  unfold py_get. by rewrite Nat2Z.id, Hnum.
Qed.

Lemma cross_val_lists_fold_witness :
  cross_val_lists [[1; 2]; [3; 4]; [5]] (Z.of_nat 1)
    = inr (concat (take 1 [[1; 2]; [3; 4]; [5]] ++ drop 2 [[1; 2]; [3; 4]; [5]]), [3; 4])
  ∧ concat (take 1 [[1; 2]; [3; 4]; [5]] ++ drop 2 [[1; 2]; [3; 4]; [5]]) ++ [3; 4]
      ≡ₚ concat [[1; 2]; [3; 4]; [5]].
Proof. apply (cross_val_lists_fold [[1; 2]; [3; 4]; [5]] 1 [3; 4]). reflexivity. Defined.

(** X5: a negative [num] not below minus the number of slices selects a
    validation slice counted from the end, as Python indexing does, but no
    position of [enumerate] equals it: the training list is then every
    slice flattened, the validation slice included. *)
Theorem cross_val_lists_negative_fold {A} (sliced_lists : list (list A)) (num : Z) :
  (- Z.of_nat (length sliced_lists) <= num < 0)%Z →
  ∃ val_list,
    sliced_lists !! Z.to_nat (Z.of_nat (length sliced_lists) + num) = Some val_list ∧
    cross_val_lists sliced_lists num = inr (concat sliced_lists, val_list) ∧
    ∀ x, x ∈ val_list → x ∈ concat sliced_lists.
Proof.
  intros Hnum.
  destruct (lookup_lt_is_Some_2 sliced_lists (Z.to_nat (Z.of_nat (length sliced_lists) + num)))
    as [val Hval]; [lia|].
  exists val. split_and!; [done| |].
  - unfold cross_val_lists, enumerate.
    rewrite (imap_ext _ (λ i, pair (0 + i))) by done.
    rewrite enumerate_filter_neg by lia.
    unfold py_get_Z. replace (0 <=? num)%Z with false by (symmetry; apply Z.leb_gt; lia).
    replace (- Z.of_nat (length sliced_lists) <=? num)%Z with true
      by (symmetry; apply Z.leb_le; lia).
    unfold py_get. by rewrite Hval.
  - intros x Hx. rewrite concat_is_mjoin. apply list_elem_of_join. exists val.
    split; [done|]. by eapply list_elem_of_lookup_2.
Qed.

Lemma cross_val_lists_negative_fold_witness :
  ∃ val_list,
    [[1; 2]; [3; 4]; [5]] !! Z.to_nat (Z.of_nat (length [[1; 2]; [3; 4]; [5]]) + -1) = Some val_list ∧
    cross_val_lists [[1; 2]; [3; 4]; [5]] (-1) = inr (concat [[1; 2]; [3; 4]; [5]], val_list) ∧
    ∀ x, x ∈ val_list → x ∈ concat [[1; 2]; [3; 4]; [5]].
Proof. apply (cross_val_lists_negative_fold [[1; 2]; [3; 4]; [5]] (-1)). simpl. lia. Defined.

(** X6: cross-validation folds.  Slicing a list into [size] > 0 slices and
    taking fold [num] (0 <= num < size) always succeeds and splits the list:
    training and validation list together are a rearrangement of it; if the
    list has no repeated item, no validation item is in the training list,
    and every item is a validation item of exactly one fold. *)
Theorem cross_validation_folds {A} (input_list : list A) (size : Z) :
  (0 < size)%Z →
  ∃ sliced_lists,
    slice_list input_list size = inr sliced_lists ∧
    (∀ num, (0 <= num < size)%Z →
       ∃ train_list val_list,
         cross_val_lists sliced_lists num = inr (train_list, val_list) ∧
         train_list ++ val_list ≡ₚ input_list ∧
         (NoDup input_list → ∀ x, x ∈ val_list → x ∉ train_list)) ∧
    (NoDup input_list → ∀ x, x ∈ input_list →
       ∃ num, (0 <= num < size)%Z ∧
         ∀ num', (0 <= num' < size)%Z →
           (∃ train_list val_list,
              cross_val_lists sliced_lists num' = inr (train_list, val_list) ∧ x ∈ val_list)
           ↔ num' = num).
Proof.
  intros Hsize.
  destruct (slice_list_run input_list size Hsize) as (r & Hr & Hcat & Hlen & _).
  exists r. split; [done|].
  assert (Hfold : ∀ num, (0 <= num < size)%Z →
            ∃ val, r !! Z.to_nat num = Some val ∧
              cross_val_lists r num
                = inr (concat (take (Z.to_nat num) r ++ drop (S (Z.to_nat num)) r), val) ∧
              concat (take (Z.to_nat num) r ++ drop (S (Z.to_nat num)) r) ++ val ≡ₚ input_list).
  { intros num Hnum.
    destruct (lookup_lt_is_Some_2 r (Z.to_nat num)) as [val Hval]; [lia|].
    exists val. split; [done|].
    revert Hval. generalize (Z.to_nat num) (Z2Nat.id num (proj1 Hnum)).
    intros n <- Hval. unfold cross_val_lists.
    rewrite not_flattend_nat. unfold py_get_Z.
    replace (0 <=? Z.of_nat n)%Z with true by (symmetry; apply Z.leb_le; lia).
    unfold py_get. rewrite Nat2Z.id, Hval. split; [done|].
    rewrite <- Hcat. by apply concat_split_at. }
  split.
  - intros num Hnum. destruct (Hfold num Hnum) as (val & Hval & Hrun & Hperm).
    eexists _, val. split_and!; [exact Hrun|exact Hperm|].
    intros Hnd x Hx Hx'. rewrite <- Hperm in Hnd.
    apply list.NoDup_app in Hnd as (_ & Hdis & _). by eapply Hdis.
  - intros Hnd x Hx. rewrite <- Hcat in Hx, Hnd.
    rewrite concat_is_mjoin in Hx. apply list_elem_of_join in Hx as (s & Hxs & Hs).
    apply list_elem_of_lookup_1 in Hs as [i Hi].
    pose proof (lookup_lt_Some _ _ _ Hi) as Hlt.
    exists (Z.of_nat i). split; [lia|]. intros num' Hnum'. split.
    + intros (train & val & Hrun & Hxv).
      destruct (Hfold num' Hnum') as (val' & Hval' & Hrun' & _).
      rewrite Hrun' in Hrun. injection Hrun as _ <-.
      pose proof (NoDup_concat_unique r Hnd _ _ _ _ _ Hval' Hi Hxv Hxs). lia.
    + intros ->. destruct (Hfold (Z.of_nat i) ltac:(lia)) as (val' & Hval' & Hrun' & _).
      rewrite Nat2Z.id in Hval'. eexists _, val'. split; [exact Hrun'|]. congruence.
Qed.

Lemma cross_validation_folds_witness :
  ∃ sliced_lists,
    slice_list [10; 20; 30; 40; 50] 2 = inr sliced_lists ∧
    (∀ num, (0 <= num < 2)%Z →
       ∃ train_list val_list,
         cross_val_lists sliced_lists num = inr (train_list, val_list) ∧
         train_list ++ val_list ≡ₚ [10; 20; 30; 40; 50] ∧
         (NoDup [10; 20; 30; 40; 50] → ∀ x, x ∈ val_list → x ∉ train_list)) ∧
    (NoDup [10; 20; 30; 40; 50] → ∀ x, x ∈ [10; 20; 30; 40; 50] →
       ∃ num, (0 <= num < 2)%Z ∧
         ∀ num', (0 <= num' < 2)%Z →
           (∃ train_list val_list,
              cross_val_lists sliced_lists num' = inr (train_list, val_list) ∧ x ∈ val_list)
           ↔ num' = num).
Proof. apply (cross_validation_folds [10; 20; 30; 40; 50] 2). lia. Defined.

(** ** [calculate_tanimoto_coefficient] *)

Lemma elem_of_nonzero_from (fp : list Z) : ∀ k i,
  i ∈ map fst (List.filter (λ ix : nat * Z, negb (ix.2 =? 0)%Z) (imap (λ j, pair (k + j)) fp))
  ↔ ∃ j v, i = k + j ∧ fp !! j = Some v ∧ v ≠ 0%Z.
Proof.
  induction fp as [|x fp IH]; intros k i.
  - simpl. split; [by intros ?%elem_of_nil|]. by intros (j & v & _ & ? & _).
  - rewrite imap_cons. cbn [List.filter snd].
    rewrite (imap_ext _ (λ j, pair (S k + j))) by (intros; simpl; f_equal; lia).
    destruct (x =? 0)%Z eqn:E; cbn [negb map fst].
    + apply Z.eqb_eq in E. rewrite IH. split.
      * intros (j & v & -> & Hj & Hv). exists (S j), v. split_and!; [lia|done|done].
      * intros ([|j] & v & -> & Hj & Hv); simpl in Hj; [congruence|].
        exists j, v. split_and!; [lia|done|done].
    + apply Z.eqb_neq in E. rewrite elem_of_cons, IH. split.
      * intros [->|(j & v & -> & Hj & Hv)].
        -- exists 0, x. split_and!; [lia|done|done].
        -- exists (S j), v. split_and!; [lia|done|done].
      * intros ([|j] & v & -> & Hj & Hv); simpl in Hj.
        -- left. lia.
        -- right. exists j, v. split_and!; [lia|done|done].
Qed.

Lemma elem_of_nonzero (fp : list Z) i :
  i ∈ nonzero fp ↔ ∃ v, fp !! i = Some v ∧ v ≠ 0%Z.
Proof.
  unfold nonzero, enumerate. rewrite (imap_ext _ (λ j, pair (0 + j))) by done.
  rewrite elem_of_nonzero_from. split.
  - intros (j & v & -> & ? & ?). by exists v.
  - intros (v & ? & ?). by exists i, v.
Qed.

Lemma nonzero_nil_iff (fp : list Z) : nonzero fp = [] ↔ Forall (λ v, v = 0%Z) fp.
Proof.
  split.
  - intros Hnil. apply list.Forall_forall. intros v Hv.
    apply list_elem_of_lookup_1 in Hv as [i Hi].
    destruct (decide (v = 0%Z)) as [|Hne]; [done|].
    assert (Hin : i ∈ nonzero fp) by (apply elem_of_nonzero; by exists v).
    rewrite Hnil in Hin. by apply elem_of_nil in Hin.
  - intros Hall. destruct (nonzero fp) as [|i l] eqn:E; [done|].
    assert (Hin : i ∈ nonzero fp) by (rewrite E; left).
    apply elem_of_nonzero in Hin as (v & Hv & Hne).
    rewrite list.Forall_forall in Hall. exfalso. apply Hne, Hall.
    by eapply list_elem_of_lookup_2.
Qed.

Lemma same_elements_length {A} (l k : list A) :
  NoDup l → NoDup k → (∀ x, x ∈ l ↔ x ∈ k) → length l = length k.
Proof. intros Hl Hk Hlk. apply Permutation_length. by apply NoDup_Permutation. Qed.

Lemma subset_full_length {A} (l k : list A) :
  NoDup l → (∀ x, x ∈ l → x ∈ k) → length k ≤ length l → ∀ x, x ∈ k → x ∈ l.
Proof.
  intros Hl Hsub Hlen x Hx.
  pose proof (NoDup_submseteq l k Hl Hsub) as Hs.
  pose proof (submseteq_length_Permutation _ _ Hs Hlen) as Hp.
  by rewrite Hp.
Qed.

Lemma tanimoto_sets (fp1 fp2 : list Z) :
  NoDup (py_set (nonzero fp1)) ∧ NoDup (py_set (nonzero fp2)) ∧
  NoDup (list_intersection (py_set (nonzero fp1)) (py_set (nonzero fp2))) ∧
  NoDup (list_union (py_set (nonzero fp1)) (py_set (nonzero fp2))) ∧
  (∀ i, i ∈ py_set (nonzero fp1) ↔ i ∈ nonzero fp1) ∧
  (∀ i, i ∈ py_set (nonzero fp2) ↔ i ∈ nonzero fp2) ∧
  length (list_intersection (py_set (nonzero fp1)) (py_set (nonzero fp2)))
    ≤ length (list_union (py_set (nonzero fp1)) (py_set (nonzero fp2))).
Proof.
  assert (H1 : NoDup (py_set (nonzero fp1))) by apply NoDup_remove_dups.
  assert (H2 : NoDup (py_set (nonzero fp2))) by apply NoDup_remove_dups.
  split_and!; try done.
  - by apply NoDup_list_intersection.
  - by apply NoDup_list_union.
  - intros i. apply elem_of_remove_dups.
  - intros i. apply elem_of_remove_dups.
  - apply submseteq_length, NoDup_submseteq; [by apply NoDup_list_intersection|].
    intros x Hx. apply list_elem_of_intersection in Hx as [Hx _].
    apply list_elem_of_union. by left.
Qed.

(** X7: when [calculate_tanimoto_coefficient] returns, its value lies
    between 0 and 1, does not depend on the order of the two fingerprints,
    is 1 exactly when both have the same non-zero positions and 0 exactly
    when they share none. *)
Theorem tanimoto_is_a_similarity (fp1 fp2 : list Z) (q : Q) :
  calculate_tanimoto_coefficient fp1 fp2 = inr q →
  (0 <= q <= 1)%Q ∧
  calculate_tanimoto_coefficient fp2 fp1 = inr q ∧
  ((q == 1)%Q ↔ ∀ i, i ∈ nonzero fp1 ↔ i ∈ nonzero fp2) ∧
  ((q == 0)%Q ↔ ∀ i, ¬ (i ∈ nonzero fp1 ∧ i ∈ nonzero fp2)).
Proof.
  unfold calculate_tanimoto_coefficient.
  destruct (tanimoto_sets fp1 fp2) as (Hn1 & Hn2 & Hni & Hnu & Hs1 & Hs2 & Hle).
  destruct (tanimoto_sets fp2 fp1) as (_ & _ & Hni' & Hnu' & _ & _ & _).
  set (set1 := py_set (nonzero fp1)) in *. set (set2 := py_set (nonzero fp2)) in *.
  assert (Hi : length (list_intersection set2 set1) = length (list_intersection set1 set2)).
  { apply same_elements_length; [done|done|]. intros x.
    rewrite !list_elem_of_intersection. tauto. }
  assert (Hu : length (list_union set2 set1) = length (list_union set1 set2)).
  { apply same_elements_length; [done|done|]. intros x.
    rewrite !list_elem_of_union. tauto. }
  rewrite Hi, Hu.
  set (a := length (list_intersection set1 set2)) in *.
  set (b := length (list_union set1 set2)) in *.
  destruct (b =? 0) eqn:Eb; [done|]. apply Nat.eqb_neq in Eb.
  intros [= <-]. split_and!.
  - unfold Qle. simpl. lia.
  - unfold Qle. simpl. lia.
  - done.
  - unfold Qeq. simpl. rewrite Z.mul_1_r, Z.mul_1_l.
    replace (Z.pos (Pos.of_nat b)) with (Z.of_nat b) by lia.
    split.
    + intros Hab. assert (Hba : b ≤ a) by lia.
      pose proof (subset_full_length (list_intersection set1 set2) (list_union set1 set2)
                    Hni) as Hfull.
      assert (Hall : ∀ x, x ∈ list_union set1 set2 → x ∈ list_intersection set1 set2).
      { apply Hfull; [|done]. intros x Hx. apply list_elem_of_intersection in Hx as [Hx _].
        apply list_elem_of_union. by left. }
      intros i. rewrite <- Hs1, <- Hs2. split; intros Hx.
      * assert (i ∈ list_union set1 set2) as Hin by (apply list_elem_of_union; by left).
        apply Hall, list_elem_of_intersection in Hin. tauto.
      * assert (i ∈ list_union set1 set2) as Hin by (apply list_elem_of_union; by right).
        apply Hall, list_elem_of_intersection in Hin. tauto.
    + intros Hsame. f_equal. apply same_elements_length; [done|done|].
      intros x. rewrite list_elem_of_intersection, list_elem_of_union, !Hs1, !Hs2.
      specialize (Hsame x). tauto.
  - unfold Qeq. simpl. rewrite Z.mul_1_r. split.
    + intros Ha i [H1 H2]. assert (Ha0 : a = 0) by lia.
      apply nil_length_inv in Ha0.
      assert (i ∈ list_intersection set1 set2) as Hin.
      { apply list_elem_of_intersection. by rewrite Hs1, Hs2. }
      rewrite Ha0 in Hin. by apply elem_of_nil in Hin.
    + intros Hdis. subst a.
      destruct (list_intersection set1 set2) as [|x l] eqn:E; [done|].
      exfalso. apply (Hdis x). rewrite <- Hs1, <- Hs2. apply list_elem_of_intersection.
      rewrite E. left.
Qed.

Lemma tanimoto_is_a_similarity_witness :
  (0 <= 1 # 3 <= 1)%Q ∧
  calculate_tanimoto_coefficient [0; 1; 1; 0]%Z [1; 1; 0; 0]%Z = inr (1 # 3) ∧
  ((1 # 3 == 1)%Q ↔ ∀ i, i ∈ nonzero [1; 1; 0; 0]%Z ↔ i ∈ nonzero [0; 1; 1; 0]%Z) ∧
  ((1 # 3 == 0)%Q ↔ ∀ i, ¬ (i ∈ nonzero [1; 1; 0; 0]%Z ∧ i ∈ nonzero [0; 1; 1; 0]%Z)).
Proof.
  apply (tanimoto_is_a_similarity [1; 1; 0; 0]%Z [0; 1; 1; 0]%Z (1 # 3)). reflexivity.
Defined.

(** X8: [calculate_tanimoto_coefficient] raises [ZeroDivisionError] exactly
    when both fingerprints are zero everywhere (no bit set in either), and
    it raises nothing else. *)
Theorem tanimoto_division_by_zero (fp1 fp2 : list Z) :
  (calculate_tanimoto_coefficient fp1 fp2 = inl ZeroDivisionError
   ↔ Forall (λ v, v = 0%Z) fp1 ∧ Forall (λ v, v = 0%Z) fp2)
  ∧ (∀ e, calculate_tanimoto_coefficient fp1 fp2 = inl e → e = ZeroDivisionError).
Proof.
  unfold calculate_tanimoto_coefficient.
  destruct (tanimoto_sets fp1 fp2) as (_ & _ & _ & _ & Hs1 & Hs2 & _).
  set (set1 := py_set (nonzero fp1)) in *. set (set2 := py_set (nonzero fp2)) in *.
  split.
  - rewrite <- !nonzero_nil_iff. split.
    + destruct (length (list_union set1 set2) =? 0) eqn:E; [|done]. intros _.
      apply Nat.eqb_eq, nil_length_inv in E.
      assert (Hnone : ∀ i, i ∉ list_union set1 set2) by (intros i; rewrite E; apply not_elem_of_nil).
      split.
      * destruct (nonzero fp1) as [|i l] eqn:E1; [done|]. exfalso. apply (Hnone i).
        apply list_elem_of_union. left. apply Hs1. left.
      * destruct (nonzero fp2) as [|i l] eqn:E2; [done|]. exfalso. apply (Hnone i).
        apply list_elem_of_union. right. apply Hs2. left.
    + intros [H1 H2]. subst set1 set2. by rewrite H1, H2.
  - intros e. by destruct (length (list_union set1 set2) =? 0); [intros [= <-]|].
Qed.

(** ** [bond_smarts_query] *)

Lemma set_eqb_true (l1 l2 : list nat) :
  set_eqb l1 l2 = true ↔ ∀ x, x ∈ l1 ↔ x ∈ l2.
Proof.
  unfold set_eqb. rewrite andb_true_iff, !forallb_forall. split.
  - intros [H1 H2] x. split; intros Hx.
    + apply list_elem_of_In in Hx. by apply H1, bool_decide_eq_true in Hx.
    + apply list_elem_of_In in Hx. by apply H2, bool_decide_eq_true in Hx.
  - intros H. split; intros x Hx%list_elem_of_In; apply bool_decide_eq_true; by apply H.
Qed.

(** X9: [bond_smarts_query] answers [True] exactly when some match of the
    pattern consists of the bond's two end atoms and nothing else, in
    whatever order the match lists them; the answer is the same for the
    bond read from its other end. *)
Theorem bond_smarts_query_spec
    (GetSubstructMatches : Mol → string → list (list nat))
    (mol : Mol) (bond : Bond) (smarts : string) :
  (bond_smarts_query GetSubstructMatches mol bond smarts = true
   ↔ ∃ match_, match_ ∈ GetSubstructMatches mol smarts ∧
               ∀ x, x ∈ match_ ↔ x = BeginAtomIdx bond ∨ x = EndAtomIdx bond)
  ∧ bond_smarts_query GetSubstructMatches mol
      (mkBond (EndAtomIdx bond) (BeginAtomIdx bond) (BondTypeAsDouble bond) (IsConjugated bond))
      smarts
    = bond_smarts_query GetSubstructMatches mol bond smarts.
Proof.
  assert (Hspec : ∀ b, bond_smarts_query GetSubstructMatches mol b smarts = true
            ↔ ∃ match_, match_ ∈ GetSubstructMatches mol smarts ∧
                        ∀ x, x ∈ match_ ↔ x = BeginAtomIdx b ∨ x = EndAtomIdx b).
  { intros b. unfold bond_smarts_query. rewrite existsb_exists. split.
    - intros (m & Hm%list_elem_of_In & Heq). exists m. split; [done|].
      rewrite set_eqb_true in Heq. intros x. rewrite <- Heq.
      rewrite !elem_of_cons, elem_of_nil. tauto.
    - intros (m & Hm & Heq). exists m. split; [by apply list_elem_of_In|].
      apply set_eqb_true. intros x. rewrite Heq, !elem_of_cons, elem_of_nil. tauto. }
  split; [apply Hspec|].
  apply eq_true_iff_eq. rewrite !Hspec. simpl.
  split; intros (m & Hm & Heq); exists m; (split; [done|]); intros x; rewrite Heq; tauto.
Qed.

(** ** The feature tables *)

Lemma one_hot_flags (x : Z) (values : list Z) :
  Forall (λ b, b ≤ 1) (map (λ s, int_of_bool (x =? s)%Z) values).
Proof.
  induction values as [|s values IH]; [constructor|].
  constructor; [|done]. destruct (x =? s)%Z; simpl; lia.
Qed.

Lemma one_hot_sum (x : Z) (values : list Z) :
  NoDup values →
  sum_list (map (λ s, int_of_bool (x =? s)%Z) values) = if decide (x ∈ values) then 1 else 0.
Proof.
  induction 1 as [|s values Hs Hnd IH]; [done|].
  simpl. rewrite IH. destruct (x =? s)%Z eqn:E.
  - apply Z.eqb_eq in E as ->. destruct (decide (s ∈ values)); [done|].
    destruct (decide (s ∈ s :: values)) as [|Hn]; [done|]. exfalso. apply Hn. left.
  - apply Z.eqb_neq in E. simpl.
    destruct (decide (x ∈ values)), (decide (x ∈ s :: values)) as [Hin|Hn]; try done.
    + exfalso. apply Hn. by right.
    + apply elem_of_cons in Hin as [?|?]; done.
Qed.

Lemma one_hot_Q_flags (x : Q) (values : list Q) :
  Forall (λ b, b ≤ 1) (map (λ s, int_of_bool (Qeq_bool x s)) values).
Proof.
  induction values as [|s values IH]; [constructor|].
  constructor; [|done]. destruct (Qeq_bool x s); simpl; lia.
Qed.

Lemma node_values_NoDup name : NoDup (values_of node_feature_values name).
Proof.
  unfold values_of, node_feature_values. cbn [dict_get].
  repeat (match goal with
          | |- context [String.eqb ?a ?b] => destruct (String.eqb a b)
          end; [apply (bool_decide_unpack _); by vm_compute|]).
  constructor.
Qed.

Ltac dict_cases H :=
  repeat match type of H with
         | context [String.eqb ?a ?b] =>
             let E := fresh "E" in
             destruct (String.eqb a b) eqn:E;
             [apply String.eqb_eq in E; subst; injection H as <-|]
         end.

(** X10: every entry of [NODE_FEATURES] fits its entry of
    [node_feature_values].  A feature that returns a flag list returns as
    many flags as the table lists values, each 0 or 1 and at most one of
    them 1; a feature that returns a boolean has the one-value table [1].
    For "element" a flag is set exactly when the atomic number is in the
    table: an atom of any other element gets eleven zeros. *)
Theorem node_feature_blocks
    (GetSubstructMatches : Mol → string → list (list nat))
    (name : string) (f : node_feature) (mol : Mol) (atom : Atom) (i marvin_atom : nat) :
  dict_get (NODE_FEATURES GetSubstructMatches) name = inr f →
  match f mol atom i marvin_atom with
  | FBool _ => values_of node_feature_values name = [1%Z]
  | FList flags =>
      length flags = length (values_of node_feature_values name) ∧
      Forall (λ b, b ≤ 1) flags ∧
      sum_list flags ≤ 1 ∧
      (name = "element"%string →
       (sum_list flags = 1
        ↔ Z.of_nat (AtomicNum atom) ∈ values_of node_feature_values "element"%string))
  end.
Proof.
  intros Hf. unfold NODE_FEATURES in Hf. cbn [dict_get] in Hf.
  dict_cases Hf; try discriminate Hf; try reflexivity.
  all: unfold one_hot_Z.
  all: split_and!.
  all: try (by rewrite length_map).
  all: try apply one_hot_flags.
  all: try (rewrite one_hot_sum by apply node_values_NoDup; by destruct (decide _)).
  all: rewrite one_hot_sum by apply node_values_NoDup; destruct (decide _); lia.
Qed.

Lemma node_feature_blocks_witness :
  match one_hot_Z (Z.of_nat (AtomicNum (mkAtom 5 (-1) 0 0 4 4 4 false false)))
                  (values_of node_feature_values "element"%string) with
  | FBool _ => values_of node_feature_values "element"%string = [1%Z]
  | FList flags =>
      length flags = length (values_of node_feature_values "element"%string) ∧
      Forall (λ b, b ≤ 1) flags ∧
      sum_list flags ≤ 1 ∧
      ("element"%string = "element"%string →
       (sum_list flags = 1
        ↔ Z.of_nat (AtomicNum (mkAtom 5 (-1) 0 0 4 4 4 false false))
            ∈ values_of node_feature_values "element"%string))
  end.
Proof.
  exact (node_feature_blocks (λ _ _, []) "element"%string
           (λ mol atom i marvin_atom,
              one_hot_Z (Z.of_nat (AtomicNum atom))
                        (values_of node_feature_values "element"%string))
           tetrafluoroborate (mkAtom 5 (-1) 0 0 4 4 4 false false) 0 0 eq_refl).
Defined.

Lemma bond_type_sum (x : Q) :
  sum_list (map (λ s, int_of_bool (Qeq_bool x s)) [1; 3 # 2; 2; 3]%Q) ≤ 1.
Proof.
  simpl.
  destruct (Qeq_bool x 1) eqn:E1, (Qeq_bool x (3 # 2)) eqn:E2,
           (Qeq_bool x 2) eqn:E3, (Qeq_bool x 3) eqn:E4; simpl; try lia;
    repeat match goal with
           | H : Qeq_bool _ _ = true |- _ => apply Qeq_bool_iff in H
           end; exfalso; lra.
Qed.

(** X11: every entry of [EDGE_FEATURES] fits its entry of
    [edge_feature_values]: "bond_type" returns as many flags as the table
    lists bond orders, each 0 or 1 and at most one of them 1; the boolean
    features have the one-value table [1]. *)
Theorem edge_feature_blocks
    (GetSubstructMatches : Mol → string → list (list nat))
    (name : string) (f : edge_feature) (mol : Mol) (bond : Bond) :
  dict_get (EDGE_FEATURES GetSubstructMatches) name = inr f →
  match f mol bond with
  | FBool _ => values_of edge_feature_values name = [1%Q]
  | FList flags =>
      length flags = length (values_of edge_feature_values name) ∧
      Forall (λ b, b ≤ 1) flags ∧
      sum_list flags ≤ 1
  end.
Proof.
  intros Hf. unfold EDGE_FEATURES in Hf. cbn [dict_get] in Hf.
  dict_cases Hf; try discriminate Hf; try reflexivity.
  split_and!.
  - reflexivity.
  - apply (one_hot_Q_flags (BondTypeAsDouble bond) [1; 3 # 2; 2; 3]%Q).
  - apply (bond_type_sum (BondTypeAsDouble bond)).
Qed.

Lemma edge_feature_blocks_witness :
  match FList (map (λ s, int_of_bool (Qeq_bool (BondTypeAsDouble (mkBond 1 2 (3 # 2) true)) s))
                   (values_of edge_feature_values "bond_type"%string)) with
  | FBool _ => values_of edge_feature_values "bond_type"%string = [1%Q]
  | FList flags =>
      length flags = length (values_of edge_feature_values "bond_type"%string) ∧
      Forall (λ b, b ≤ 1) flags ∧
      sum_list flags ≤ 1
  end.
Proof.
  exact (edge_feature_blocks (λ _ _, []) "bond_type"%string
           (λ mol bond,
              FList (map (λ s, int_of_bool (Qeq_bool (BondTypeAsDouble bond) s))
                         (values_of edge_feature_values "bond_type"%string)))
           toluene (mkBond 1 2 (3 # 2) true) eq_refl).
Defined.

(** ** [make_features_dicts] *)

Lemma dict_get_error {V} (d : list (string * V)) k e : dict_get d k = inl e → e = KeyError.
Proof.
  induction d as [|[k' v] d IH]; simpl; [by intros [= <-]|].
  destruct (String.eqb k' k); [done|apply IH].
Qed.

Lemma dict_get_set {V} (d : list (string * V)) k v k' :
  dict_get (dict_set d k v) k' = if decide (k = k') then inr v else dict_get d k'.
Proof.
  induction d as [|[k0 v0] d IH]; simpl.
  - destruct (String.eqb_spec k k'), (decide (k = k')); done.
  - destruct (String.eqb_spec k0 k) as [->|Hne]; simpl.
    + destruct (String.eqb_spec k k'), (decide (k = k')); done.
    + destruct (String.eqb_spec k0 k') as [->|Hne'].
      * by destruct (decide (k = k')).
      * apply IH.
Qed.

Lemma dict_keys_set {V} (d : list (string * V)) k v :
  (dict_set d k v).*1 = if decide (k ∈ d.*1) then d.*1 else d.*1 ++ [k].
Proof.
  induction d as [|[k0 v0] d IH]; cbn [dict_set].
  - destruct (decide _) as [Hin|]; [by apply elem_of_nil in Hin|]. reflexivity.
  - rewrite !fmap_cons. cbn [fst].
    destruct (String.eqb_spec k0 k) as [->|Hne].
    + rewrite fmap_cons. cbn [fst].
      destruct (decide (k ∈ k :: d.*1)) as [|Hn]; [done|]. exfalso. apply Hn. left.
    + rewrite fmap_cons, IH. cbn [fst].
      destruct (decide (k ∈ d.*1)), (decide (k ∈ k0 :: d.*1)) as [Hin|Hn]; try done.
      * exfalso. apply Hn. by right.
      * apply elem_of_cons in Hin as [?|?]; [congruence|done].
Qed.

Lemma dict_get_missing {V} (d : list (string * V)) k :
  k ∉ d.*1 → dict_get d k = inl KeyError.
Proof.
  induction d as [|[k0 v0] d IH]; simpl; [done|]. intros Hn.
  destruct (String.eqb_spec k0 k) as [->|Hne]; [exfalso; apply Hn; left|].
  apply IH. intros Hin. apply Hn. by right.
Qed.

Lemma make_features_dicts_from_run {V} (all_features : list (string * V)) feat_list :
  ∀ acc,
    (∀ x, x ∈ feat_list → ∃ v, dict_get all_features x = inr v) →
    ∃ r, make_features_dicts_from all_features feat_list acc = inr r ∧
         (∀ k, dict_get r k = if decide (k ∈ feat_list) then dict_get all_features k
                              else dict_get acc k) ∧
         (NoDup acc.*1 → NoDup r.*1) ∧
         (∀ k, k ∈ r.*1 ↔ k ∈ acc.*1 ∨ k ∈ feat_list) ∧
         (NoDup feat_list → (∀ x, x ∈ feat_list → x ∉ acc.*1) → r.*1 = acc.*1 ++ feat_list).
Proof.
  induction feat_list as [|x rest IH]; intros acc Hall.
  - exists acc. simpl. split_and!; try done.
    + intros k. rewrite elem_of_nil. tauto.
    + intros _ _. by rewrite app_nil_r.
  - simpl. destruct (Hall x) as [v Hv]; [left|]. rewrite Hv.
    destruct (IH (dict_set acc x v)) as (r & Hr & Hget & Hnd & Hkeys & Hord).
    { intros y Hy. apply Hall. by right. }
    exists r. split_and!; [done| | | |].
    + intros k. rewrite Hget, dict_get_set.
      destruct (decide (k ∈ rest)) as [Hin|Hout].
      * destruct (decide (k ∈ x :: rest)) as [|Hn]; [done|]. exfalso. apply Hn. by right.
      * destruct (decide (x = k)) as [->|Hne].
        -- destruct (decide (k ∈ k :: rest)) as [|Hn]; [done|]. exfalso. apply Hn. left.
        -- destruct (decide (k ∈ x :: rest)) as [Hin|]; [|done].
           apply elem_of_cons in Hin as [?|?]; congruence.
    + intros Hacc. apply Hnd. rewrite dict_keys_set.
      destruct (decide (x ∈ acc.*1)); [done|].
      apply list.NoDup_app. split_and!; [done| |apply NoDup_singleton].
      intros y Hy Hy'. apply list_elem_of_singleton in Hy' as ->. done.
    + intros k. rewrite Hkeys, dict_keys_set, elem_of_cons.
      destruct (decide (x ∈ acc.*1)) as [Hin|Hout].
      * split; [tauto|]. intros [?|[->|?]]; tauto.
      * rewrite elem_of_app, list_elem_of_singleton. tauto.
    + intros Hnd' Hfresh. apply list.NoDup_cons in Hnd' as [Hx Hrest].
      rewrite Hord; [|done|].
      * rewrite dict_keys_set. destruct (decide (x ∈ acc.*1)) as [Hin|Hout].
        -- exfalso. by apply (Hfresh x); [left|].
        -- by rewrite <- app_assoc.
      * intros y Hy. rewrite dict_keys_set.
        destruct (decide (x ∈ acc.*1)).
        -- apply Hfresh. by right.
        -- rewrite elem_of_app, list_elem_of_singleton. intros [?| ->]; [|done].
           by apply (Hfresh y); [right|].
Qed.

Lemma make_features_dicts_from_missing {V} (all_features : list (string * V)) feat_list x :
  x ∈ feat_list → dict_get all_features x = inl KeyError →
  ∀ acc, make_features_dicts_from all_features feat_list acc = inl KeyError.
Proof.
  intros Hin Hmiss. induction feat_list as [|y rest IH]; intros acc.
  - by apply elem_of_nil in Hin.
  - simpl. destruct (dict_get all_features y) as [e|v] eqn:Hy.
    + by rewrite (dict_get_error _ _ _ Hy).
    + apply IH. apply elem_of_cons in Hin as [->|?]; [congruence|done].
Qed.

(** X12: when every requested name is a key of [all_features],
    [make_features_dicts] returns a dictionary whose keys are exactly the
    requested names, each once (in the order of the request when the
    request does not repeat a name), and looking a name up in it gives what
    [all_features] holds for that name; any other key is missing. *)
Theorem make_features_dicts_selects {V} (all_features : list (string * V))
    (feat_list : list string) :
  (∀ x, x ∈ feat_list → ∃ v, dict_get all_features x = inr v) →
  ∃ selected,
    make_features_dicts all_features feat_list = inr selected ∧
    (∀ k, dict_get selected k
          = if decide (k ∈ feat_list) then dict_get all_features k else inl KeyError) ∧
    NoDup selected.*1 ∧
    (∀ k, k ∈ selected.*1 ↔ k ∈ feat_list) ∧
    (NoDup feat_list → selected.*1 = feat_list).
Proof.
  intros Hall.
  destruct (make_features_dicts_from_run all_features feat_list [] Hall)
    as (r & Hr & Hget & Hnd & Hkeys & Hord).
  exists r. split_and!; [done|done| | |].
  - apply Hnd. constructor.
  - intros k. rewrite Hkeys. simpl. rewrite elem_of_nil. tauto.
  - intros Hfl. apply Hord; [done|]. intros x _. apply not_elem_of_nil.
Qed.

Lemma make_features_dicts_selects_witness :
  ∃ selected,
    make_features_dicts (NODE_FEATURES (λ _ _, [])) ["element"; "formal_charge"]%string
      = inr selected ∧
    (∀ k, dict_get selected k
          = if decide (k ∈ ["element"; "formal_charge"]%string)
            then dict_get (NODE_FEATURES (λ _ _, [])) k else inl KeyError) ∧
    NoDup selected.*1 ∧
    (∀ k, k ∈ selected.*1 ↔ k ∈ ["element"; "formal_charge"]%string) ∧
    (NoDup ["element"; "formal_charge"]%string
     → selected.*1 = ["element"; "formal_charge"]%string).
Proof.
  apply (make_features_dicts_selects (NODE_FEATURES (λ _ _, []))
           ["element"; "formal_charge"]%string).
  intros x Hx. apply elem_of_cons in Hx as [->|Hx]; [by eexists|].
  apply list_elem_of_singleton in Hx as ->. by eexists.
Defined.

(** X13: [make_features_dicts] raises [KeyError] as soon as one requested
    name is not a key of [all_features].  The node feature list of
    [query.py] is such a request: it asks for "smarts", which
    [NODE_FEATURES] does not have. *)
Theorem make_features_dicts_missing_key {V} (all_features : list (string * V))
    (feat_list : list string) (x : string) :
  x ∈ feat_list → dict_get all_features x = inl KeyError →
  make_features_dicts all_features feat_list = inl KeyError.
Proof. intros Hin Hmiss. by eapply make_features_dicts_from_missing. Qed.

Lemma make_features_dicts_missing_key_witness :
  make_features_dicts (NODE_FEATURES (λ _ _, [])) node_feat_list = inl KeyError.
Proof.
  apply (make_features_dicts_missing_key (NODE_FEATURES (λ _ _, [])) node_feat_list
           "smarts"%string).
  - unfold node_feat_list. do 9 right. left.
  - reflexivity.
Defined.

(** ** Net charges of conjugate pairs *)

Lemma np_sum_app l1 l2 : np_sum (l1 ++ l2) = (np_sum l1 + np_sum l2)%Z.
Proof.
  induction l1 as [|x l1 IH]; [unfold np_sum at 2; simpl; lia|].
  simpl. rewrite !np_sum_cons, IH. lia.
Qed.

Lemma differ_only_at_atoms i prot deprot :
  differ_only_at i prot deprot →
  ∃ ap ad, atoms deprot !! i = Some ad ∧ (FormalCharge ap - FormalCharge ad = 1)%Z ∧
           atoms prot = <[i := ap]> (atoms deprot).
Proof.
  intros (Hl & Hne & ap & ad & Hp & Hd & Hc). exists ap, ad. split_and!; [done|done|].
  apply list_eq. intros j. destruct (decide (j = i)) as [->|Hj].
  - rewrite list_lookup_insert_eq; [done|]. by eapply lookup_lt_Some.
  - rewrite list_lookup_insert_ne by done. by apply Hne.
Qed.

Lemma net_charge_conjugates i prot deprot :
  differ_only_at i prot deprot → net_charge prot = (net_charge deprot + 1)%Z.
Proof.
  intros (ap & ad & Hd & Hc & Hp)%differ_only_at_atoms. unfold net_charge. rewrite Hp.
  rewrite <- (take_drop_middle _ _ _ Hd) at 2.
  rewrite insert_take_drop by (by eapply lookup_lt_Some).
  rewrite !map_app. simpl. rewrite !np_sum_app, !np_sum_cons. lia.
Qed.

Lemma conjugate_row_data (row : Row)
    (n_features : list (string * node_feature))
    (e_features : list (string * edge_feature)) data :
  differ_only_at (marvin_atom row) (protonated row) (deprotonated row) →
  mol_to_paired_mol_data row n_features e_features = inr data →
  length (x_p data) = length (x_d data) ∧
  num_nodes data = length (x_d data) ∧
  charge_prot data = (charge_deprot data + 1)%Z.
Proof.
  intros Hd. rewrite mol_to_paired_mol_data_run.
  destruct (_ && _); [|done]. intros [= <-]. simpl.
  pose proof (make_nodes_shape (protonated row) (marvin_atom row) n_features) as [Hp _].
  pose proof (make_nodes_shape (deprotonated row) (marvin_atom row) n_features) as [Hq _].
  destruct Hd as (Hl & Hrest). rewrite Hp, Hq. split_and!; [done|done|].
  by apply (net_charge_conjugates (marvin_atom row)).
Qed.

(** X14: for a row whose two molecules are a conjugate pair (the same
    except at the reaction centre, where the protonated one has the formal
    charge one higher), whenever [mol_to_paired_mol_data] returns, the two
    node matrices have the same number of rows, [num_nodes] is that number,
    and the stored net charges are one apart,
    [charge_prot = charge_deprot + 1]. *)
Theorem conjugate_rows_encode_consistently (row : Row)
    (n_features : list (string * node_feature))
    (e_features : list (string * edge_feature)) (data : PairData) :
  differ_only_at (marvin_atom row) (protonated row) (deprotonated row) →
  mol_to_paired_mol_data row n_features e_features = inr data →
  length (x_p data) = length (x_d data) ∧
  num_nodes data = length (x_d data) ∧
  charge_prot data = (charge_deprot data + 1)%Z.
Proof.
  apply conjugate_row_data.
Qed.

Lemma conjugate_rows_encode_consistently_witness :
  length (x_p (pair_data (mkRow methylammonium methylamine 1) ring_flag conjugation_flag))
    = length (x_d (pair_data (mkRow methylammonium methylamine 1) ring_flag conjugation_flag)) ∧
  num_nodes (pair_data (mkRow methylammonium methylamine 1) ring_flag conjugation_flag)
    = length (x_d (pair_data (mkRow methylammonium methylamine 1) ring_flag conjugation_flag)) ∧
  charge_prot (pair_data (mkRow methylammonium methylamine 1) ring_flag conjugation_flag)
    = (charge_deprot (pair_data (mkRow methylammonium methylamine 1) ring_flag conjugation_flag)
       + 1)%Z.
Proof.
  apply (conjugate_rows_encode_consistently (mkRow methylammonium methylamine 1)
           ring_flag conjugation_flag).
  - split_and!; [done|by intros [|[|j]] Hj|].
    exists (mkAtom 7 1 3 0 4 1 4 false false), (mkAtom 7 0 0 2 1 1 4 false false).
    split_and!; reflexivity.
  - reflexivity.
Defined.

(** X15: the pairs of [get_possible_reactions] encode consistently: for
    every pair it returns, acid or base, the two molecules are in the
    store, and whenever [mol_to_paired_mol_data] returns for them with the
    pair's reaction centre, the node matrices have equally many rows and
    the net charges satisfy [charge_prot = charge_deprot + 1]. *)
Theorem reaction_pairs_encode_consistently
    (valence_of : Mol → nat → option (nat * nat))
    (mol : nat) (matches : list nat) (h : list Mol) (m : Mol)
    (acid base : list (nat * nat * nat)) (p d i : nat)
    (n_features : list (string * node_feature))
    (e_features : list (string * edge_feature)) :
  h !! mol = Some m →
  (get_possible_reactions valence_of mol matches h).2 = inr (acid, base) →
  (p, d, i) ∈ acid ++ base →
  ∃ mp md,
    (get_possible_reactions valence_of mol matches h).1 !! p = Some mp ∧
    (get_possible_reactions valence_of mol matches h).1 !! d = Some md ∧
    ∀ data,
      mol_to_paired_mol_data (mkRow mp md i) n_features e_features = inr data →
      length (x_p data) = length (x_d data) ∧
      charge_prot data = (charge_deprot data + 1)%Z.
Proof.
  intros Hm Hres Hin.
  destruct (reaction_pairs_differ _ _ _ _ _ _ _ Hm Hres _ _ _ Hin) as (mp & md & Hp & Hd & Hdiff).
  exists mp, md. split_and!; [done|done|]. intros data Hdata.
  destruct (conjugate_row_data (mkRow mp md i) n_features e_features data Hdiff Hdata)
    as (Hlen & _ & Hch).
  done.
Qed.

Lemma reaction_pairs_encode_consistently_witness :
  ∃ mp md,
    (get_possible_reactions rdkit_valence 0 [0; 1] [hydrazine]).1 !! 1 = Some mp ∧
    (get_possible_reactions rdkit_valence 0 [0; 1] [hydrazine]).1 !! 0 = Some md ∧
    ∀ data,
      mol_to_paired_mol_data (mkRow mp md 0) ring_flag conjugation_flag = inr data →
      length (x_p data) = length (x_d data) ∧
      charge_prot data = (charge_deprot data + 1)%Z.
Proof.
  apply (reaction_pairs_encode_consistently rdkit_valence 0 [0; 1] [hydrazine] hydrazine
           [(1, 0, 0); (3, 0, 1)] [(0, 2, 0); (0, 4, 1)] 1 0 0 ring_flag conjugation_flag
           eq_refl).
  - by vm_compute.
  - by vm_compute; left.
Defined.

(** ** The edge index *)

(** X16: the edge index of [make_edges_and_attr] needs a bond.  For a
    molecule without bonds (a single heavy atom) [np.hstack] has nothing to
    concatenate and raises [ValueError]; otherwise the index has two rows of
    twice as many entries as there are bonds, bond [k] filling columns [2k]
    (begin to end) and [2k + 1] (end to begin). *)
Theorem edge_index_needs_a_bond (mol : Mol) (e_features : list (string * edge_feature)) :
  match make_edge_index mol e_features with
  | inl e => e = ValueError ∧ bonds mol = []
  | inr (sources, targets) =>
      bonds mol ≠ [] ∧
      length sources = 2 * length (bonds mol) ∧
      length targets = 2 * length (bonds mol) ∧
      ∀ k b, bonds mol !! k = Some b →
        sources !! (2 * k) = Some (BeginAtomIdx b) ∧ targets !! (2 * k) = Some (EndAtomIdx b) ∧
        sources !! (2 * k + 1) = Some (EndAtomIdx b) ∧
        targets !! (2 * k + 1) = Some (BeginAtomIdx b)
  end.
Proof.
  unfold make_edge_index. rewrite make_edges_and_attr_run. cbn [fst].
  set (cols := λ b, [(BeginAtomIdx b, EndAtomIdx b); (EndAtomIdx b, BeginAtomIdx b)]).
  assert (Hlen : length (concat (map cols (bonds mol))) = 2 * length (bonds mol))
    by (by apply length_concat_pairs).
  assert (Hcol : ∀ l k b, l !! k = Some b →
            concat (map cols l) !! (2 * k) = Some (BeginAtomIdx b, EndAtomIdx b) ∧
            concat (map cols l) !! (2 * k + 1) = Some (EndAtomIdx b, BeginAtomIdx b)).
  { induction l as [|a l IH]; intros k b Hk; [done|].
    destruct k as [|k]; simpl in Hk.
    - injection Hk as ->. done.
    - destruct (IH _ _ Hk) as [H1 H2].
      replace (2 * S k) with (S (S (2 * k))) by lia.
      replace (S (S (2 * k)) + 1) with (S (S (2 * k + 1))) by lia. done. }
  specialize (Hcol (bonds mol)).
  destruct (concat (map cols (bonds mol))) as [|c cs] eqn:Hc; cbn [np_hstack].
  - split; [done|]. destruct (bonds mol); [done|]. simpl in Hlen. lia.
  - split_and!.
    + intros Hnil. rewrite Hnil in Hlen. simpl in Hlen. lia.
    + by rewrite length_map.
    + by rewrite length_map.
    + intros k b Hk. destruct (Hcol _ _ Hk) as [H1 H2].
      rewrite !map_is_fmap, !list_lookup_fmap, H1, H2. done.
Qed.

(** ** The dataset builders *)

Lemma for_rows_map {A B} (body : A → exn + B) (g : A → B) (df : list A) :
  Forall (λ r, body r = inr (g r)) df → for_rows body df = inr (map g df).
Proof.
  induction 1 as [|r df Hr _ IH]; [done|]. simpl. by rewrite Hr, IH.
Qed.

Lemma for_rows_error {A B} (body : A → exn + B) (g : A → B) (df1 df2 : list A) r e :
  Forall (λ r, body r = inr (g r)) df1 → body r = inl e →
  for_rows body (df1 ++ r :: df2) = inl e.
Proof.
  induction 1 as [|r1 df1 Hr _ IH]; intros He; simpl.
  - by rewrite He.
  - by rewrite Hr, IH.
Qed.

Lemma first_failure {A} (P : A → Prop) `{∀ x, Decision (P x)} (l : list A) :
  ¬ Forall P l → ∃ l1 x l2, l = l1 ++ x :: l2 ∧ ¬ P x ∧ Forall P l1.
Proof.
  induction l as [|y l IH]; intros Hn; [destruct Hn; constructor|].
  destruct (decide (P y)) as [Hy|Hy].
  - destruct IH as (l1 & x & l2 & -> & Hx & Hl1).
    { intros Hl. apply Hn. by constructor. }
    exists (y :: l1), x, l2. split_and!; [done|done|by constructor].
  - exists [], y, l. split_and!; [done|done|constructor].
Qed.

Lemma for_rows_all {A B} (body : A → exn + B) (ok : A → bool) (g : A → B) e (df : list A) :
  (∀ r, r ∈ df → body r = if ok r then inr (g r) else inl e) →
  for_rows body df = if forallb ok df then inr (map g df) else inl e.
Proof.
  induction df as [|r df IH]; intros Hbody; [done|].
  cbn [for_rows forallb map]. rewrite (Hbody r) by left.
  destruct (ok r); [|done]. cbn [andb].
  rewrite IH by (intros r' Hr'; apply Hbody; by right).
  by destruct (forallb ok df).
Qed.

Lemma mol_to_single_protonated row nf ef :
  mol_to_single_mol_data row nf ef "protonated"%string
    = if encodes (protonated row) (marvin_atom row) nf ef
      then inr (single_data (protonated row) (marvin_atom row) nf ef,
                net_charge (protonated row))
      else inl ValueError.
Proof.
  unfold mol_to_single_mol_data. rewrite mol_to_features_protonated.
  by destruct (encodes _ _ _ _).
Qed.

Lemma mol_to_single_deprotonated row nf ef :
  mol_to_single_mol_data row nf ef "deprotonated"%string
    = if encodes (deprotonated row) (marvin_atom row) nf ef
      then inr (single_data (deprotonated row) (marvin_atom row) nf ef,
                net_charge (deprotonated row))
      else inl ValueError.
Proof.
  unfold mol_to_single_mol_data. rewrite mol_to_features_deprotonated.
  by destruct (encodes _ _ _ _).
Qed.

Lemma mol_to_single_other row nf ef mode :
  mode ∉ ["protonated"; "deprotonated"]%string →
  mol_to_single_mol_data row nf ef mode = inl RuntimeError.
Proof.
  intros Hmode. unfold mol_to_single_mol_data, mol_to_features.
  destruct (String.eqb_spec mode "protonated") as [->|_]; [exfalso; apply Hmode; left|].
  destruct (String.eqb_spec mode "deprotonated") as [->|_]; [|done].
  exfalso. apply Hmode. right. left.
Qed.

(** The member of a conjugate pair that carries a net charge when the
    deprotonated one has charge [cd]: the protonated one from [cd = 0]
    upwards, the deprotonated one below. *)
Lemma charge_item_run float32 nf ef r :
  net_charge (protonated (row_of r)) = (net_charge (deprotonated (row_of r)) + 1)%Z →
  charge_item float32 nf ef r =
    if decide (-4 <= net_charge (deprotonated (row_of r)) <= 2)%Z then
      if encodes (charged_member (row_of r)) (marvin_atom (row_of r)) nf ef then
        inr (SingleItem (single_data (charged_member (row_of r)) (marvin_atom (row_of r)) nf ef)
                        (float32 (pKa r)) (ID r) (Some (net_charge (charged_member (row_of r)))))
      else inl ValueError
    else inl RuntimeError.
Proof.
  intros Hone. unfold charge_item, charged_member.
  fold (net_charge (protonated (row_of r))).
  fold (net_charge (deprotonated (row_of r))). rewrite Hone.
  set (cd := net_charge (deprotonated (row_of r))).
  destruct (decide (-4 <= cd <= 2)%Z) as [Hin|Hout].
  - assert (Hcases : cd = (-4)%Z ∨ cd = (-3)%Z ∨ cd = (-2)%Z ∨ cd = (-1)%Z
                     ∨ cd = 0%Z ∨ cd = 1%Z ∨ cd = 2%Z) by lia.
    destruct Hcases as [->|[->|[->|[->|[->|[->| ->]]]]]];
      repeat match goal with
             | |- context [(?a =? ?b)%Z] =>
                 let v := eval vm_compute in (a =? b)%Z in change (a =? b)%Z with v
             | |- context [(?a <=? ?b)%Z] =>
                 let v := eval vm_compute in (a <=? b)%Z in change (a <=? b)%Z with v
             end;
      cbn [orb];
      rewrite ?mol_to_single_protonated, ?mol_to_single_deprotonated;
      destruct (encodes _ _ _ _); try done.
    all: by rewrite <- Hone.
  - repeat match goal with
           | |- context [(?a =? ?b)%Z] =>
               replace (a =? b)%Z with false by (symmetry; apply Z.eqb_neq; lia)
           end.
    done.
Qed.

(** X17: the unpaired branch of [make_pyg_dataset_based_on_charge] on rows
    whose net charges are one apart (conjugate pairs) and whose charged
    member can be packed, for feature lists that select.  If every
    deprotonated net charge lies between -4 and 2, the dataset has one item
    per row, in order: the data of the protonated molecule when the
    deprotonated one has net charge 0 or more, of the deprotonated one
    otherwise, with [y], [ID] and [charge] set; the molecule encoded is
    never the neutral one.  Otherwise the function raises
    [RuntimeError]. *)
Theorem charge_based_dataset_encodes_the_ion
    (GetSubstructMatches : Mol → string → list (list nat)) (float32 : float → float)
    (df : list DataRow) (list_n list_e : list string)
    (n_features : list (string * node_feature)) (e_features : list (string * edge_feature)) :
  make_features_dicts (NODE_FEATURES GetSubstructMatches) list_n = inr n_features →
  make_features_dicts (EDGE_FEATURES GetSubstructMatches) list_e = inr e_features →
  Forall (λ r, net_charge (protonated (row_of r))
               = (net_charge (deprotonated (row_of r)) + 1)%Z) df →
  Forall (λ r, encodes (charged_member (row_of r)) (marvin_atom (row_of r))
                 n_features e_features = true) df →
  if decide (Forall (λ r, (-4 <= net_charge (deprotonated (row_of r)) <= 2)%Z) df) then
    make_pyg_dataset_based_on_charge GetSubstructMatches float32 df list_n list_e false
      = inr (map (λ r,
                    SingleItem (single_data (charged_member (row_of r)) (marvin_atom (row_of r))
                                            n_features e_features)
                               (float32 (pKa r)) (ID r)
                               (Some (net_charge (charged_member (row_of r))))) df)
    ∧ Forall (λ r, net_charge (charged_member (row_of r)) ≠ 0%Z) df
  else
    make_pyg_dataset_based_on_charge GetSubstructMatches float32 df list_n list_e false
      = inl RuntimeError.
Proof.
  intros Hn He Hone Henc. unfold make_pyg_dataset_based_on_charge. rewrite Hn, He.
  rewrite list.Forall_forall in Hone, Henc.
  assert (Hrun : ∀ r, r ∈ df →
            charge_item float32 n_features e_features r =
              if decide (-4 <= net_charge (deprotonated (row_of r)) <= 2)%Z then
                inr (SingleItem (single_data (charged_member (row_of r))
                                   (marvin_atom (row_of r)) n_features e_features)
                                (float32 (pKa r)) (ID r)
                                (Some (net_charge (charged_member (row_of r)))))
              else inl RuntimeError).
  { intros r Hr. rewrite (charge_item_run _ _ _ _ (Hone r Hr)), (Henc r Hr). done. }
  destruct (decide _) as [Hall|Hsome].
  - rewrite list.Forall_forall in Hall. split.
    + apply for_rows_map. apply list.Forall_forall. intros r Hr.
      rewrite (Hrun r Hr).
      by destruct (decide _) as [|Hout]; [|destruct (Hout (Hall r Hr))].
    + apply list.Forall_forall. intros r Hr.
      specialize (Hone r Hr). specialize (Hall r Hr). unfold charged_member.
      destruct (0 <=? net_charge (deprotonated (row_of r)))%Z eqn:E.
      * apply Z.leb_le in E. lia.
      * apply Z.leb_gt in E. lia.
  - apply first_failure in Hsome; [|intros r; apply _].
    destruct Hsome as (df1 & r & df2 & -> & Hr & Hbefore).
    apply (for_rows_error _
             (λ r, SingleItem (single_data (charged_member (row_of r))
                                 (marvin_atom (row_of r)) n_features e_features)
                              (float32 (pKa r)) (ID r)
                              (Some (net_charge (charged_member (row_of r)))))).
    + apply list.Forall_forall. intros r' Hr'.
      rewrite Hrun by (apply elem_of_app; by left).
      destruct (decide _) as [|Hout]; [done|].
      rewrite list.Forall_forall in Hbefore. by destruct (Hout (Hbefore r' Hr')).
    + rewrite Hrun by (apply elem_of_app; right; left). by destruct (decide _).
Qed.

Lemma charge_based_dataset_encodes_the_ion_witness :
  if decide (Forall (λ r, (-4 <= net_charge (deprotonated (row_of r)) <= 2)%Z)
                    [mkDataRow (mkRow methylammonium methylamine 1) (Fin (106 # 10))
                               "methylamine"]) then
    make_pyg_dataset_based_on_charge (λ _ _, []) (λ x, x)
      [mkDataRow (mkRow methylammonium methylamine 1) (Fin (106 # 10)) "methylamine"]
      ["is_in_ring"%string] ["is_conjugated"%string] false
      = inr (map (λ r,
                    SingleItem (single_data (charged_member (row_of r)) (marvin_atom (row_of r))
                                  ring_flag conjugation_flag)
                               (pKa r) (ID r)
                               (Some (net_charge (charged_member (row_of r)))))
                 [mkDataRow (mkRow methylammonium methylamine 1) (Fin (106 # 10))
                            "methylamine"])
    ∧ Forall (λ r, net_charge (charged_member (row_of r)) ≠ 0%Z)
             [mkDataRow (mkRow methylammonium methylamine 1) (Fin (106 # 10)) "methylamine"]
  else
    make_pyg_dataset_based_on_charge (λ _ _, []) (λ x, x)
      [mkDataRow (mkRow methylammonium methylamine 1) (Fin (106 # 10)) "methylamine"]
      ["is_in_ring"%string] ["is_conjugated"%string] false
      = inl RuntimeError.
Proof.
  apply (charge_based_dataset_encodes_the_ion (λ _ _, []) (λ x, x)
           [mkDataRow (mkRow methylammonium methylamine 1) (Fin (106 # 10)) "methylamine"]
           ["is_in_ring"%string] ["is_conjugated"%string]
           ring_flag conjugation_flag eq_refl eq_refl).
  - constructor; [reflexivity|constructor].
  - constructor; [reflexivity|constructor].
Defined.

(** X18: [make_pyg_dataset_based_on_number_of_hydrogens], for feature lists
    that select.  With [paired] set (whatever [mode] is) it returns the
    pair data of every row, in order; with [paired] unset and [mode]
    "protonated" or "deprotonated", the data of that molecule of every
    row, without a [charge] attribute; in both cases provided every
    molecule it encodes can be packed, and with [ValueError] if one cannot.
    With [paired] unset and any other [mode], the default "all" among them,
    it raises [RuntimeError] before it encodes anything. *)
Theorem hydrogen_based_dataset_follows_mode
    (GetSubstructMatches : Mol → string → list (list nat)) (float32 : float → float)
    (df : list DataRow) (list_n list_e : list string) (paired : bool) (mode : string)
    (n_features : list (string * node_feature)) (e_features : list (string * edge_feature)) :
  make_features_dicts (NODE_FEATURES GetSubstructMatches) list_n = inr n_features →
  make_features_dicts (EDGE_FEATURES GetSubstructMatches) list_e = inr e_features →
  make_pyg_dataset_based_on_number_of_hydrogens GetSubstructMatches float32
      df list_n list_e paired mode
  = if paired then
      if forallb (λ r, encodes (protonated (row_of r)) (marvin_atom (row_of r))
                         n_features e_features
                       && encodes (deprotonated (row_of r)) (marvin_atom (row_of r))
                            n_features e_features) df
      then inr (map (λ r, PairItem (pair_data (row_of r) n_features e_features)
                                   (float32 (pKa r)) (ID r)) df)
      else inl ValueError
    else if decide (mode = "protonated"%string) then
      if forallb (λ r, encodes (protonated (row_of r)) (marvin_atom (row_of r))
                         n_features e_features) df
      then inr (map (λ r, SingleItem (single_data (protonated (row_of r))
                                        (marvin_atom (row_of r)) n_features e_features)
                                     (float32 (pKa r)) (ID r) None) df)
      else inl ValueError
    else if decide (mode = "deprotonated"%string) then
      if forallb (λ r, encodes (deprotonated (row_of r)) (marvin_atom (row_of r))
                         n_features e_features) df
      then inr (map (λ r, SingleItem (single_data (deprotonated (row_of r))
                                        (marvin_atom (row_of r)) n_features e_features)
                                     (float32 (pKa r)) (ID r) None) df)
      else inl ValueError
    else inl RuntimeError.
Proof.
  intros Hn He. unfold make_pyg_dataset_based_on_number_of_hydrogens.
  destruct paired; cbn [negb andb].
  - rewrite Hn, He. apply for_rows_all. intros r _.
    unfold paired_item. rewrite mol_to_paired_mol_data_run. by destruct (_ && _).
  - destruct (decide (mode = "protonated"%string)) as [->|Hp].
    { cbn [negb]. rewrite Hn, He. apply for_rows_all. intros r _.
      unfold mode_item. rewrite mol_to_single_protonated. by destruct (encodes _ _ _ _). }
    destruct (decide (mode = "deprotonated"%string)) as [->|Hd].
    { cbn [negb]. rewrite Hn, He. apply for_rows_all. intros r _.
      unfold mode_item. rewrite mol_to_single_deprotonated. by destruct (encodes _ _ _ _). }
    rewrite bool_decide_eq_false_2; [done|].
    rewrite !elem_of_cons, elem_of_nil. tauto.
Qed.

Lemma hydrogen_based_dataset_follows_mode_witness :
  make_pyg_dataset_based_on_number_of_hydrogens (λ _ _, []) (λ x, x)
      [mkDataRow (mkRow methylammonium methylamine 1) (Fin (106 # 10)) "methylamine"]
      ["is_in_ring"%string] ["is_conjugated"%string] false "deprotonated"
  = inr [SingleItem (single_data methylamine 1 ring_flag conjugation_flag)
                    (Fin (106 # 10)) "methylamine" None].
Proof.
  apply (hydrogen_based_dataset_follows_mode (λ _ _, []) (λ x, x)
           [mkDataRow (mkRow methylammonium methylamine 1) (Fin (106 # 10)) "methylamine"]
           ["is_in_ring"%string] ["is_conjugated"%string] false "deprotonated"
           ring_flag conjugation_flag eq_refl eq_refl).
Defined.

(** ** [sort_conjugates] and [conjugates_to_dataframe] *)

Lemma GetAtomWithIdx_charge h mol i c :
  site_charge h mol i = Some c →
  ∃ a, GetAtomWithIdx mol i h = (h, inr a) ∧ FormalCharge a = c.
Proof.
  unfold site_charge, charge_at. destruct (h !! mol) as [m|] eqn:Hm; [|done]. simpl.
  destruct (atoms m !! i) as [a|] eqn:Ha; [|done]. simpl. intros [= <-].
  exists a. split; [|done]. erewrite GetAtomWithIdx_run by done. by rewrite Ha.
Qed.

Lemma sort_loop_run (h : list Mol) df : ∀ prot deprot,
  Forall (λ r, is_Some (site_charge h (Sdf.ROMol r.1) (Sdf.marvin_atom r.1)) ∧
               is_Some (site_charge h r.2 (Sdf.marvin_atom r.1))) df →
  sort_loop df (prot, deprot) h
  = (h, inr (prot ++ map Prepared.protonated (omap (oriented h) df),
             deprot ++ map Prepared.deprotonated (omap (oriented h) df))).
Proof.
  induction df as [|r df IH]; intros prot deprot Hok.
  - simpl. rewrite !app_nil_r. reflexivity.
  - apply list.Forall_cons in Hok as [[[cm Hcm] [cc Hcc]] Hok].
    cbn [sort_loop omap list_omap].
    destruct (GetAtomWithIdx_charge _ _ _ _ Hcm) as (am & Ham & <-).
    destruct (GetAtomWithIdx_charge _ _ _ _ Hcc) as (ac & Hac & <-).
    erewrite bind_inr; [|exact Ham]. erewrite bind_inr; [|exact Hac].
    assert (Ho : oriented h r =
              if (FormalCharge am <? FormalCharge ac)%Z then
                Some (Prepared.mk r.2 (Sdf.ROMol r.1) (Sdf.marvin_atom r.1) (Sdf.marvin_pKa r.1))
              else if (FormalCharge ac <? FormalCharge am)%Z then
                Some (Prepared.mk (Sdf.ROMol r.1) r.2 (Sdf.marvin_atom r.1) (Sdf.marvin_pKa r.1))
              else None)
      by (unfold oriented; by rewrite Hcm, Hcc).
    rewrite Ho.
    destruct (FormalCharge am <? FormalCharge ac)%Z.
    { rewrite IH by done. simpl. by rewrite <- !app_assoc. }
    destruct (FormalCharge ac <? FormalCharge am)%Z.
    { rewrite IH by done. simpl. by rewrite <- !app_assoc. }
    by rewrite IH.
Qed.

Lemma omap_cons {A B} (f : A → option B) x l :
  omap f (x :: l) = match f x with Some y => y :: omap f l | None => omap f l end.
Proof. done. Qed.

Lemma omap_all_Some {A B} (f : A → option B) (g : A → B) (l : list A) :
  Forall (λ x, f x = Some (g x)) l → omap f l = map g l.
Proof.
  induction 1 as [|x l Hx _ IH]; [done|].
  change (omap f (x :: l)) with (match f x with Some y => y :: omap f l | None => omap f l end).
  rewrite Hx, IH. done.
Qed.

Lemma length_omap_le {A B} (f : A → option B) (l : list A) :
  length (omap f l) ≤ length l.
Proof.
  induction l as [|x l IH]; [done|].
  change (omap f (x :: l)) with (match f x with Some y => y :: omap f l | None => omap f l end).
  destruct (f x); simpl; lia.
Qed.

Lemma length_omap_full {A B} (f : A → option B) (l : list A) :
  length (omap f l) = length l → Forall (λ x, is_Some (f x)) l.
Proof.
  induction l as [|x l IH]; [constructor|].
  change (omap f (x :: l)) with (match f x with Some y => y :: omap f l | None => omap f l end).
  pose proof (length_omap_le f l). destruct (f x) eqn:E; simpl; intros Hl; [|lia].
  constructor; [by rewrite E|]. apply IH. lia.
Qed.

Lemma zip_map_both {A B C} (f : A → B) (g : A → C) (l : list A) :
  zip (map f l) (map g l) = map (λ x, (f x, g x)) l.
Proof. induction l as [|x l IH]; [done|]. simpl. by rewrite IH. Qed.

Lemma zip_self_map {A B} (g : A → B) (l : list A) :
  zip l (map g l) = map (λ x, (x, g x)) l.
Proof. induction l as [|x l IH]; [done|]. simpl. by rewrite IH. Qed.

Lemma sort_conjugates_run (df : list (Sdf.row * nat)) (h : list Mol) :
  Forall (λ r, is_Some (site_charge h (Sdf.ROMol r.1) (Sdf.marvin_atom r.1)) ∧
               is_Some (site_charge h r.2 (Sdf.marvin_atom r.1))) df →
  sort_conjugates df h
  = (h, if decide (Forall (λ r, site_charge h (Sdf.ROMol r.1) (Sdf.marvin_atom r.1)
                                ≠ site_charge h r.2 (Sdf.marvin_atom r.1)) df)
        then inr (omap (oriented h) df)
        else inl ValueError)
  ∧ (Forall (λ r, site_charge h (Sdf.ROMol r.1) (Sdf.marvin_atom r.1)
                  ≠ site_charge h r.2 (Sdf.marvin_atom r.1)) df →
     Forall2 (λ r o,
                Prepared.marvin_atom o = Sdf.marvin_atom r.1 ∧
                Prepared.marvin_pKa o = Sdf.marvin_pKa r.1 ∧
                ((Prepared.protonated o = r.2 ∧ Prepared.deprotonated o = Sdf.ROMol r.1) ∨
                 (Prepared.protonated o = Sdf.ROMol r.1 ∧ Prepared.deprotonated o = r.2)) ∧
                ∃ cp cd, site_charge h (Prepared.protonated o) (Prepared.marvin_atom o) = Some cp ∧
                         site_charge h (Prepared.deprotonated o) (Prepared.marvin_atom o) = Some cd ∧
                         (cd < cp)%Z)
             df (omap (oriented h) df)).
Proof.
  intros Hok.
  assert (Hor : Forall (λ r, site_charge h (Sdf.ROMol r.1) (Sdf.marvin_atom r.1)
                             ≠ site_charge h r.2 (Sdf.marvin_atom r.1)) df →
                Forall (λ r, ∃ o, oriented h r = Some o ∧
                  Prepared.marvin_atom o = Sdf.marvin_atom r.1 ∧
                  Prepared.marvin_pKa o = Sdf.marvin_pKa r.1 ∧
                  ((Prepared.protonated o = r.2 ∧ Prepared.deprotonated o = Sdf.ROMol r.1) ∨
                   (Prepared.protonated o = Sdf.ROMol r.1 ∧ Prepared.deprotonated o = r.2)) ∧
                  ∃ cp cd, site_charge h (Prepared.protonated o) (Prepared.marvin_atom o) = Some cp ∧
                           site_charge h (Prepared.deprotonated o) (Prepared.marvin_atom o) = Some cd ∧
                           (cd < cp)%Z) df).
  { intros Hne. rewrite list.Forall_forall in Hok, Hne. apply list.Forall_forall.
    intros r Hr. destruct (Hok r Hr) as [[cm Hcm] [cc Hcc]]. specialize (Hne r Hr).
    unfold oriented. rewrite Hcm, Hcc.
    destruct (cm <? cc)%Z eqn:E1; [apply Z.ltb_lt in E1|apply Z.ltb_ge in E1].
    { eexists. split; [done|]. simpl. split_and!; [done|done|by left|].
      exists cc, cm. done. }
    destruct (cc <? cm)%Z eqn:E2; [apply Z.ltb_lt in E2|apply Z.ltb_ge in E2].
    { eexists. split; [done|]. simpl. split_and!; [done|done|by right|].
      exists cm, cc. done. }
    exfalso. apply Hne. rewrite Hcm, Hcc. f_equal. lia. }
  split.
  - unfold sort_conjugates. erewrite bind_inr; [|by apply sort_loop_run].
    cbn [fst snd app]. unfold set_column.
    destruct (decide _) as [Hne|Heq].
    + specialize (Hor Hne).
      assert (Hlen : length (omap (oriented h) df) = length df).
      { clear -Hor. induction Hor as [|r df (o & Ho & _) _ IH]; [done|].
        change (omap (oriented h) (r :: df))
          with (match oriented h r with
                | Some y => y :: omap (oriented h) df | None => omap (oriented h) df end).
        rewrite Ho. simpl. by rewrite IH. }
      rewrite !length_map, Hlen, Nat.eqb_refl.
      erewrite bind_inr; [|done].
      rewrite length_zip, length_map, Hlen, Nat.min_id, Nat.eqb_refl.
      erewrite bind_inr; [|done]. unfold ret. f_equal. f_equal.
      clear Hlen Hne Hok. induction Hor as [|r df (o & Ho & Ha & Hp & _) _ IH]; [done|].
      rewrite omap_cons, Ho. cbn [map zip zip_with fst snd]. rewrite IH. f_equal.
      destruct o. simpl in *. by subst.
    + rewrite !length_map.
      destruct (length (omap (oriented h) df) =? length df) eqn:E.
      * exfalso. apply Nat.eqb_eq, length_omap_full in E. apply Heq.
        rewrite list.Forall_forall in E, Hok. apply list.Forall_forall. intros r Hr.
        destruct (E r Hr) as [o Ho]. destruct (Hok r Hr) as [[cm Hcm] [cc Hcc]].
        unfold oriented in Ho. rewrite Hcm, Hcc in Ho. rewrite Hcm, Hcc. intros [= ->].
        by rewrite Z.ltb_irrefl in Ho.
      * erewrite bind_inl; [done|done].
  - intros Hne. specialize (Hor Hne). clear -Hor.
    induction Hor as [|r df (o & Ho & Hrest) _ IH]; [constructor|].
    rewrite omap_cons, Ho. by constructor.
Qed.

(** X19: [sort_conjugates] on a frame whose molecules are in the store and
    have the annotated atom.  It leaves the store alone.  If in every row
    molecule and conjugate differ in the formal charge of that atom, it
    returns one row per input row, in order, with the same atom index and
    pKa, the one with the higher charge there as [protonated] and the other
    as [deprotonated]; if some row has equal charges, nothing is appended
    for it and the column assignment raises [ValueError]. *)
Theorem sort_conjugates_orients (df : list (Sdf.row * nat)) (h : list Mol) :
  Forall (λ r, is_Some (site_charge h (Sdf.ROMol r.1) (Sdf.marvin_atom r.1)) ∧
               is_Some (site_charge h r.2 (Sdf.marvin_atom r.1))) df →
  sort_conjugates df h
  = (h, if decide (Forall (λ r, site_charge h (Sdf.ROMol r.1) (Sdf.marvin_atom r.1)
                                ≠ site_charge h r.2 (Sdf.marvin_atom r.1)) df)
        then inr (omap (oriented h) df)
        else inl ValueError)
  ∧ (Forall (λ r, site_charge h (Sdf.ROMol r.1) (Sdf.marvin_atom r.1)
                  ≠ site_charge h r.2 (Sdf.marvin_atom r.1)) df →
     Forall2 (λ r o,
                Prepared.marvin_atom o = Sdf.marvin_atom r.1 ∧
                Prepared.marvin_pKa o = Sdf.marvin_pKa r.1 ∧
                ((Prepared.protonated o = r.2 ∧ Prepared.deprotonated o = Sdf.ROMol r.1) ∨
                 (Prepared.protonated o = Sdf.ROMol r.1 ∧ Prepared.deprotonated o = r.2)) ∧
                ∃ cp cd, site_charge h (Prepared.protonated o) (Prepared.marvin_atom o) = Some cp ∧
                         site_charge h (Prepared.deprotonated o) (Prepared.marvin_atom o) = Some cd ∧
                         (cd < cp)%Z)
             df (omap (oriented h) df)).
Proof. apply sort_conjugates_run. Qed.

Lemma sort_conjugates_orients_witness :
  sort_conjugates [(Sdf.mk 0 0 (Fin (925 # 100)), 1)] [ammonia; ammonium]
  = ([ammonia; ammonium],
     if decide (Forall (λ r, site_charge [ammonia; ammonium] (Sdf.ROMol r.1) (Sdf.marvin_atom r.1)
                             ≠ site_charge [ammonia; ammonium] r.2 (Sdf.marvin_atom r.1))
                       [(Sdf.mk 0 0 (Fin (925 # 100)), 1)])
     then inr (omap (oriented [ammonia; ammonium]) [(Sdf.mk 0 0 (Fin (925 # 100)), 1)])
     else inl ValueError)
  ∧ (Forall (λ r, site_charge [ammonia; ammonium] (Sdf.ROMol r.1) (Sdf.marvin_atom r.1)
                  ≠ site_charge [ammonia; ammonium] r.2 (Sdf.marvin_atom r.1))
            [(Sdf.mk 0 0 (Fin (925 # 100)), 1)] →
     Forall2 (λ r o,
                Prepared.marvin_atom o = Sdf.marvin_atom r.1 ∧
                Prepared.marvin_pKa o = Sdf.marvin_pKa r.1 ∧
                ((Prepared.protonated o = r.2 ∧ Prepared.deprotonated o = Sdf.ROMol r.1) ∨
                 (Prepared.protonated o = Sdf.ROMol r.1 ∧ Prepared.deprotonated o = r.2)) ∧
                ∃ cp cd,
                  site_charge [ammonia; ammonium] (Prepared.protonated o) (Prepared.marvin_atom o)
                    = Some cp ∧
                  site_charge [ammonia; ammonium] (Prepared.deprotonated o) (Prepared.marvin_atom o)
                    = Some cd ∧
                  (cd < cp)%Z)
             [(Sdf.mk 0 0 (Fin (925 # 100)), 1)]
             (omap (oriented [ammonia; ammonium]) [(Sdf.mk 0 0 (Fin (925 # 100)), 1)])).
Proof.
  apply (sort_conjugates_orients [(Sdf.mk 0 0 (Fin (925 # 100)), 1)] [ammonia; ammonium]).
  constructor; [|constructor]. split; by eexists.
Defined.

Lemma create_conjugate_grows valence_of mol id pka pH h :
  length h ≤ length (create_conjugate valence_of mol id pka pH h).1.
Proof.
  rewrite create_conjugate_run.
  destruct (h !! mol) as [m|]; [|done]. cbv zeta.
  destruct (atoms m !! id) as [a|]; [|simpl; rewrite length_app; lia].
  destruct (apply_action _ a) as [a'|]; [|simpl; rewrite length_app; lia].
  destruct (refresh _ _ _); simpl; rewrite length_app; lia.
Qed.

Lemma conjugates_loop_spec valence_of df : ∀ acc h h1 cs,
  conjugates_loop valence_of df acc h = (h1, inr cs) →
  ∃ new, cs = acc ++ new ∧ length new = length df ∧ length h ≤ length h1 ∧
         (∀ j, j < length h → h1 !! j = h !! j) ∧
         Forall2 (λ r c, ∃ m cm,
                    h1 !! Sdf.ROMol r = Some m ∧ h1 !! c = Some cm ∧
                    (differ_only_at (Sdf.marvin_atom r) cm m ∨
                     differ_only_at (Sdf.marvin_atom r) m cm)) df new.
Proof.
  induction df as [|r df IH]; intros acc h h1 cs Hrun.
  - injection Hrun as <- <-. exists []. rewrite app_nil_r. split_and!; try done; constructor.
  - cbn [conjugates_loop] in Hrun.
    pose proof (create_conjugate_pair valence_of (Sdf.ROMol r) (Sdf.marvin_atom r)
                  (Sdf.marvin_pKa r) default_pH h) as Hpair.
    pose proof (create_conjugate_keeps_store valence_of (Sdf.ROMol r) (Sdf.marvin_atom r)
                  (Sdf.marvin_pKa r) default_pH h) as Hkeep.
    pose proof (create_conjugate_grows valence_of (Sdf.ROMol r) (Sdf.marvin_atom r)
                  (Sdf.marvin_pKa r) default_pH h) as Hgrow.
    destruct (create_conjugate valence_of (Sdf.ROMol r) (Sdf.marvin_atom r)
                (Sdf.marvin_pKa r) default_pH h) as [h' [e|c]] eqn:Hc.
    { erewrite bind_inl in Hrun; [|exact Hc]. done. }
    erewrite bind_inr in Hrun; [|exact Hc]. cbn [fst snd] in *.
    destruct (Hpair c eq_refl) as (m & cm & Hm & Hm' & Hcm & Hdiff).
    destruct (IH _ _ _ _ Hrun) as (new & -> & Hlen & Hgrow' & Hkeep' & Hall).
    exists (c :: new). rewrite <- app_assoc. split_and!; [done|by simpl; rewrite Hlen|lia| |].
    + intros j Hj. rewrite Hkeep' by lia. by apply Hkeep.
    + constructor; [|done]. exists m, cm.
      apply lookup_lt_Some in Hm' as Hlt1. apply lookup_lt_Some in Hcm as Hlt2.
      rewrite !Hkeep' by done. done.
Qed.

(** X20: [sort_conjugates] accepts whatever [conjugates_to_dataframe]
    returns.  When [conjugates_to_dataframe] succeeds, the molecules in the
    store before it are unchanged, and [sort_conjugates] on its result
    returns one row per input row without touching the store: the input
    molecule is one of [protonated] and [deprotonated], and the two are the
    same molecule except at the annotated atom, where [protonated] has the
    formal charge one higher.  ([create_conjugate] read with [==] on line 28
    of [chem.py].) *)
Theorem conjugates_always_sort
    (valence_of : Mol → nat → option (nat * nat))
    (df : list Sdf.row) (h h1 : list Mol) (df1 : list (Sdf.row * nat)) :
  conjugates_to_dataframe valence_of df h = (h1, inr df1) →
  df1.*1 = df ∧
  (∀ j, j < length h → h1 !! j = h !! j) ∧
  ∃ out,
    sort_conjugates df1 h1 = (h1, inr out) ∧
    Forall2 (λ r o,
               Prepared.marvin_atom o = Sdf.marvin_atom r ∧
               Prepared.marvin_pKa o = Sdf.marvin_pKa r ∧
               (Prepared.protonated o = Sdf.ROMol r ∨ Prepared.deprotonated o = Sdf.ROMol r) ∧
               ∃ P D, h1 !! Prepared.protonated o = Some P ∧
                      h1 !! Prepared.deprotonated o = Some D ∧
                      differ_only_at (Sdf.marvin_atom r) P D)
            df out.
Proof.
  unfold conjugates_to_dataframe. intros Hrun.
  destruct (conjugates_loop valence_of df [] h) as [h' [e|cs]] eqn:Hloop.
  { erewrite bind_inl in Hrun; [|exact Hloop]. done. }
  erewrite bind_inr in Hrun; [|exact Hloop].
  destruct (conjugates_loop_spec _ _ _ _ _ _ Hloop) as (new & Hcs & Hlen & _ & Hkeep & Hall).
  simpl in Hcs. subst new. unfold lift, set_column in Hrun. rewrite Hlen, Nat.eqb_refl in Hrun.
  injection Hrun as <- <-.
  split; [by apply fst_zip; lia|]. split; [done|].
  assert (Hrows : Forall (λ rc : Sdf.row * nat, ∃ m cm,
             h' !! Sdf.ROMol rc.1 = Some m ∧ h' !! rc.2 = Some cm ∧
             (differ_only_at (Sdf.marvin_atom rc.1) cm m ∨
              differ_only_at (Sdf.marvin_atom rc.1) m cm)) (zip df cs)).
  { clear -Hall. induction Hall as [|r c df cs Hr _ IH]; [constructor|].
    simpl. by constructor. }
  assert (Hcharges : ∀ i P D, differ_only_at i P D →
            ∀ p d, h' !! p = Some P → h' !! d = Some D →
            ∃ cp cd, site_charge h' p i = Some cp ∧ site_charge h' d i = Some cd ∧
                     (cp - cd = 1)%Z).
  { intros i P D (_ & _ & ap & ad & Hp & Hd & Hc) p d HP HD.
    exists (FormalCharge ap), (FormalCharge ad). unfold site_charge, charge_at.
    rewrite HP, HD. simpl. rewrite Hp, Hd. done. }
  destruct (sort_conjugates_run (zip df cs) h') as [Hsort Hout].
  { revert Hrows. apply List.Forall_impl. intros rc (m & cm & Hm & Hcm & [Hd|Hd]).
    - destruct (Hcharges _ _ _ Hd _ _ Hcm Hm) as (cp & cd & -> & -> & _). split; by eexists.
    - destruct (Hcharges _ _ _ Hd _ _ Hm Hcm) as (cp & cd & -> & -> & _). split; by eexists. }
  assert (Hne : Forall (λ r : Sdf.row * nat,
             site_charge h' (Sdf.ROMol r.1) (Sdf.marvin_atom r.1)
             ≠ site_charge h' r.2 (Sdf.marvin_atom r.1)) (zip df cs)).
  { revert Hrows. apply List.Forall_impl. intros rc (m & cm & Hm & Hcm & [Hd|Hd]).
    - destruct (Hcharges _ _ _ Hd _ _ Hcm Hm) as (cp & cd & -> & -> & ?). intros [= ?]. lia.
    - destruct (Hcharges _ _ _ Hd _ _ Hm Hcm) as (cp & cd & -> & -> & ?). intros [= ?]. lia. }
  exists (omap (oriented h') (zip df cs)). split.
  { rewrite Hsort. by destruct (decide _). }
  specialize (Hout Hne).
  assert (Hzip : Forall2 (λ r rc, rc.1 = r ∧ ∃ m cm,
             h' !! Sdf.ROMol r = Some m ∧ h' !! rc.2 = Some cm ∧
             (differ_only_at (Sdf.marvin_atom r) cm m ∨
              differ_only_at (Sdf.marvin_atom r) m cm)) df (zip df cs)).
  { clear -Hall. induction Hall as [|r c df cs Hr _ IH]; [constructor|].
    simpl. by constructor. }
  clear -Hzip Hout Hcharges.
  revert Hout. generalize (omap (oriented h') (zip df cs)). revert Hzip.
  generalize (zip df cs). intros l Hzip.
  induction Hzip as [|r rc df l [<- (m & cm & Hm & Hcm & Hd)] _ IH]; intros out Hout.
  - inversion Hout. constructor.
  - inversion Hout as [|? o ? out' (Ha & Hp & Hwho & cp & cd & Hcp & Hcd & Hlt) Hrest]; subst.
    constructor; [|by apply IH].
    split_and!; [done|done|tauto|].
    destruct Hwho as [[Hpo Hdo]|[Hpo Hdo]].
    + rewrite Hpo, Hdo. destruct Hd as [Hd|Hd]; [by exists cm, m|].
      exfalso. destruct (Hcharges _ _ _ Hd _ _ Hm Hcm) as (x & y & Hx & Hy & Hxy).
      rewrite Hpo, Ha in Hcp. rewrite Hdo, Ha in Hcd. 
      rewrite Hcp in Hy. rewrite Hcd in Hx. injection Hx as <-. injection Hy as <-. lia.
    + rewrite Hpo, Hdo. destruct Hd as [Hd|Hd]; [|by exists m, cm].
      exfalso. destruct (Hcharges _ _ _ Hd _ _ Hcm Hm) as (x & y & Hx & Hy & Hxy).
      rewrite Hpo, Ha in Hcp. rewrite Hdo, Ha in Hcd.
      rewrite Hcp in Hy. rewrite Hcd in Hx. injection Hx as <-. injection Hy as <-. lia.
Qed.

Lemma conjugates_always_sort_witness :
  [(Sdf.mk 0 3 (Fin (476 # 100)), 1)].*1 = [Sdf.mk 0 3 (Fin (476 # 100))] ∧
  (∀ j, j < length [acetic_acid] →
        (conjugates_to_dataframe rdkit_valence [Sdf.mk 0 3 (Fin (476 # 100))] [acetic_acid]).1 !! j
        = [acetic_acid] !! j) ∧
  ∃ out,
    sort_conjugates [(Sdf.mk 0 3 (Fin (476 # 100)), 1)]
      (conjugates_to_dataframe rdkit_valence [Sdf.mk 0 3 (Fin (476 # 100))] [acetic_acid]).1
    = ((conjugates_to_dataframe rdkit_valence [Sdf.mk 0 3 (Fin (476 # 100))] [acetic_acid]).1,
       inr out) ∧
    Forall2 (λ r o,
               Prepared.marvin_atom o = Sdf.marvin_atom r ∧
               Prepared.marvin_pKa o = Sdf.marvin_pKa r ∧
               (Prepared.protonated o = Sdf.ROMol r ∨ Prepared.deprotonated o = Sdf.ROMol r) ∧
               ∃ P D,
                 (conjugates_to_dataframe rdkit_valence [Sdf.mk 0 3 (Fin (476 # 100))] [acetic_acid]).1
                   !! Prepared.protonated o = Some P ∧
                 (conjugates_to_dataframe rdkit_valence [Sdf.mk 0 3 (Fin (476 # 100))] [acetic_acid]).1
                   !! Prepared.deprotonated o = Some D ∧
                 differ_only_at (Sdf.marvin_atom r) P D)
            [Sdf.mk 0 3 (Fin (476 # 100))] out.
Proof.
  apply (conjugates_always_sort rdkit_valence [Sdf.mk 0 3 (Fin (476 # 100))] [acetic_acid]
           (conjugates_to_dataframe rdkit_valence [Sdf.mk 0 3 (Fin (476 # 100))] [acetic_acid]).1
           [(Sdf.mk 0 3 (Fin (476 # 100)), 1)]).
  by vm_compute.
Defined.

(** ** The result of the search as a chain of conjugate pairs *)

Lemma mol_tuples_cons a b rest : mol_tuples (a :: b :: rest) = (a, b) :: mol_tuples (b :: rest).
Proof. done. Qed.

Lemma mol_tuples_snoc mols back p :
  list.last mols = Some back → mol_tuples (mols ++ [p]) = mol_tuples mols ++ [(back, p)].
Proof.
  induction mols as [|a [|b rest] IH]; intros Hlast; [done| |].
  - by injection Hlast as ->.
  - change ((a :: b :: rest) ++ [p]) with (a :: b :: (rest ++ [p])).
    rewrite !mol_tuples_cons. change (b :: rest ++ [p]) with ((b :: rest) ++ [p]).
    rewrite IH; [done|]. by rewrite last_cons_cons in Hlast.
Qed.

Lemma mol_tuples_lookup mols k a b :
  mol_tuples mols !! k = Some (a, b) ↔ mols !! k = Some a ∧ mols !! S k = Some b.
Proof.
  revert k. induction mols as [|x [|y rest] IH]; intros k.
  - simpl. split; [done|]. by intros [? _].
  - simpl. split; [done|]. intros [_ H]. by destruct k.
  - rewrite mol_tuples_cons. destruct k as [|k].
    + simpl. split; [by intros [= -> ->]|]. by intros [[= ->] [= ->]].
    + change ((x :: y :: rest) !! S k) with ((y :: rest) !! k).
      change ((x :: y :: rest) !! S (S k)) with ((y :: rest) !! S k).
      apply IH.
Qed.

Lemma differ_only_at_tag i s s' P D :
  differ_only_at i P D → differ_only_at i (with_sssAtoms s P) (with_sssAtoms s' D).
Proof. done. Qed.

Lemma conjugate_chain_grows h h' mols atoms :
  store_grows h h' → conjugate_chain h mols atoms → conjugate_chain h' mols atoms.
Proof.
  intros [_ Hkeep]. unfold conjugate_chain. apply Forall2_impl.
  intros p i (P & D & HP & HD & Hd).
  destruct (Hkeep _ _ HP) as [s Hs]. destruct (Hkeep _ _ HD) as [s' Hs'].
  exists (with_sssAtoms s P), (with_sssAtoms s' D). split_and!; [done|done|].
  by apply differ_only_at_tag.
Qed.

Section ChainFacts.
Variable valence_of : Mol → nat → option (nat * nat).
Variable encoded : Type.
Variable paired_mol_data : Mol → Mol → nat → exn + encoded.
Variable predict : list encoded → exn + list float.
Variable np_round : float → Z → float.

Lemma acid_loop_chain fuel matches :
  ∀ mols pkas atoms turns h front m,
    mols !! 0 = Some front → h !! front = Some m →
    conjugate_chain h mols atoms →
    let res := acid_loop valence_of paired_mol_data predict np_round fuel matches (mols, pkas, atoms) turns h in
    match res.2 with
    | inr (Some ((mols', pkas', atoms'), n)) => conjugate_chain res.1 mols' atoms'
    | _ => True
    end.
Proof.
  induction fuel as [|fuel IH]; intros mols pkas atoms turns h front m Hfront Hm Hchain;
    [done|].
  cbn [acid_loop fst snd].
  pose proof (acid_turn_spec valence_of encoded paired_mol_data predict np_round
                  matches mols pkas atoms h front m Hfront Hm)
    as Hturn.
  destruct (acid_turn valence_of paired_mol_data predict np_round matches (mols, pkas, atoms) h) as [h1 r] eqn:Hrun.
  cbn [fst snd] in Hturn. destruct Hturn as [Hgrow Hr].
  destruct r as [e|s'].
  { erewrite bind_inl; [|exact Hrun]. done. }
  erewrite bind_inr; [|exact Hrun].
  destruct Hr as [->|(p & i & raw & P & -> & Hi & HP & Hp & Hthr)].
  - cbn [fst snd]. rewrite (proj2 (Nat.leb_le _ _)) by lia. cbn [fst snd ret].
    by eapply conjugate_chain_grows.
  - cbn [fst snd length]. rewrite (proj2 (Nat.leb_gt _ _)) by lia.
    apply (IH (p :: mols) (np_round raw 3%Z :: pkas) (i :: atoms) (S turns) h1 p P eq_refl Hp).
    destruct mols as [|f rest]; [done|]. injection Hfront as ->.
    unfold conjugate_chain. rewrite mol_tuples_cons. constructor.
    + destruct Hgrow as [_ Hkeep]. destruct (Hkeep _ _ Hm) as [s Hs].
      exists P, (with_sssAtoms s m). split_and!; [done|done|].
      by apply (differ_only_at_acid valence_of).
    + by apply (conjugate_chain_grows h).
Qed.

Lemma base_loop_chain fuel matches :
  ∀ mols pkas atoms turns h back m,
    list.last mols = Some back → h !! back = Some m →
    conjugate_chain h mols atoms →
    let res := base_loop valence_of paired_mol_data predict np_round fuel matches (mols, pkas, atoms) turns h in
    match res.2 with
    | inr (Some ((mols', pkas', atoms'), n)) => conjugate_chain res.1 mols' atoms'
    | _ => True
    end.
Proof.
  induction fuel as [|fuel IH]; intros mols pkas atoms turns h back m Hback Hm Hchain;
    [done|].
  cbn [base_loop fst snd].
  pose proof (base_turn_spec valence_of encoded paired_mol_data predict np_round
                  matches mols pkas atoms h back m Hback Hm)
    as Hturn.
  destruct (base_turn valence_of paired_mol_data predict np_round matches (mols, pkas, atoms) h) as [h1 r] eqn:Hrun.
  cbn [fst snd] in Hturn. destruct Hturn as [Hgrow Hr].
  destruct r as [e|s'].
  { erewrite bind_inl; [|exact Hrun]. done. }
  erewrite bind_inr; [|exact Hrun].
  destruct Hr as [->|(p & i & raw & P & -> & Hi & HP & Hp & Hthr)].
  - cbn [fst snd]. rewrite (proj2 (Nat.leb_le _ _)) by lia. cbn [fst snd ret].
    by eapply conjugate_chain_grows.
  - cbn [fst snd]. rewrite length_app. simpl.
    rewrite (proj2 (Nat.leb_gt _ _)) by lia.
    apply (IH (mols ++ [p]) (pkas ++ [np_round raw 3%Z]) (atoms ++ [i]) (S turns) h1 p P
              (last_snoc _ _) Hp).
    unfold conjugate_chain. rewrite (mol_tuples_snoc _ _ _ Hback).
    apply Forall2_app; [by apply (conjugate_chain_grows h)|].
    constructor; [|constructor].
    destruct Hgrow as [_ Hkeep]. destruct (Hkeep _ _ Hm) as [s Hs].
    exists (with_sssAtoms s m), P. split_and!; [done|done|].
    by apply (differ_only_at_base valence_of).
Qed.

End ChainFacts.

(** X21: the result of the search is a chain of conjugate pairs.  The
    three lists have the same length; pair [k] and atom [k] belong
    together: both molecules of the pair are in the store and are the same
    except at that atom, where the first has the formal charge one higher;
    and the second molecule of a pair is the first of the next. *)
Theorem search_result_is_a_conjugate_chain
    (valence_of : Mol → nat → option (nat * nat))
    (encoded : Type) (paired_mol_data : Mol → Mol → nat → exn + encoded)
    (predict : list encoded → exn + list float) (np_round : float → Z → float)
    (fuel mol : nat) (matches : list nat) (h h' : list Mol) (m : Mol) (res : query_result) :
  h !! mol = Some m →
  mol_query_search valence_of paired_mol_data predict np_round fuel mol matches h = (h', inr (Some res)) →
  Forall2 (λ p i, ∃ P D, h' !! p.1 = Some P ∧ h' !! p.2 = Some D ∧ differ_only_at i P D)
          (res_mol res) (res_atom res)
  ∧ (∀ k p q, res_mol res !! k = Some p → res_mol res !! S k = Some q → p.2 = q.1)
  ∧ length (res_pka res) = length (res_mol res).
Proof.
  intros Hm Hrun.
  pose proof (mol_query_search_spec valence_of encoded paired_mol_data predict np_round
                  fuel mol matches h m Hm) as Hspec.
  rewrite Hrun in Hspec. cbn [snd] in Hspec. destruct Hspec as (_ & _ & Hlen & _).
  cut (Forall2 (λ p i, ∃ P D, h' !! p.1 = Some P ∧ h' !! p.2 = Some D ∧ differ_only_at i P D)
               (res_mol res) (res_atom res)
       ∧ (∀ k p q, res_mol res !! k = Some p → res_mol res !! S k = Some q → p.2 = q.1)).
  { intros [H1 H2]. by split_and!. }
  revert Hrun. clear Hlen.
  unfold mol_query_search.
  pose proof (acid_loop_spec valence_of encoded paired_mol_data predict np_round
                  fuel matches [mol] [] [] 0 h mol m
                eq_refl Hm) as Hacid.
  pose proof (acid_loop_chain valence_of encoded paired_mol_data predict np_round
                  fuel matches [mol] [] [] 0 h mol m
                eq_refl Hm ltac:(constructor)) as Hchain1.
  destruct (acid_loop valence_of paired_mol_data predict np_round fuel matches ([mol], [], []) 0 h) as [h1 r1] eqn:Hrun1.
  cbn [fst snd] in Hacid, Hchain1. destruct Hacid as [Hgrow1 Hr1].
  destruct r1 as [e|[[[[mols1 pkas1] atoms1] n1]|]].
  - erewrite bind_inl; [|exact Hrun1]. done.
  - erewrite bind_inr; [|exact Hrun1].
    destruct Hr1 as (newm & newp & newa & -> & -> & -> & _ & _).
    destruct Hgrow1 as [_ Hkeep]. destruct (Hkeep _ _ Hm) as [s Hs].
    pose proof (base_loop_chain valence_of encoded paired_mol_data predict np_round
                  fuel matches (newm ++ [mol])
                  (newp ++ []) (newa ++ []) 0
                  h1 mol (with_sssAtoms s m) (last_snoc _ _) Hs Hchain1) as Hchain2.
    destruct (base_loop valence_of paired_mol_data predict np_round fuel matches _ 0 h1) as [h2 r2] eqn:Hrun2.
    cbn [fst snd] in Hchain2.
    destruct r2 as [e|[[[[mols2 pkas2] atoms2] n2]|]].
    + erewrite bind_inl; [|exact Hrun2]. done.
    + erewrite bind_inr; [|exact Hrun2]. intros [= <- <-]. cbn [res_mol res_atom].
      split; [exact Hchain2|].
      intros k [a b] [c d] H1 H2. apply mol_tuples_lookup in H1 as [_ H1].
      apply mol_tuples_lookup in H2 as [H2 _]. simpl. congruence.
    + erewrite bind_inr; [|exact Hrun2]. done.
  - erewrite bind_inr; [|exact Hrun1]. done.
Qed.

(** Methylamine with its nitrogen as the candidate site, a callee that
    returns and a regressor that predicts 7 for every pair: methylammonium,
    methylamine and its anion, two pairs. *)
Lemma search_result_is_a_conjugate_chain_witness :
  Forall2 (λ p i, ∃ P D,
             (mol_query_search rdkit_valence (row_callee ring_flag conjugation_flag)
                (const_predict (Fin 7)) decimal_round 10 0 [1] [methylamine]).1 !! p.1 = Some P ∧
             (mol_query_search rdkit_valence (row_callee ring_flag conjugation_flag)
                (const_predict (Fin 7)) decimal_round 10 0 [1] [methylamine]).1 !! p.2 = Some D ∧
             differ_only_at i P D)
          (res_mol (mkResult [(1, 0); (0, 6)] [Fin (7000 # 1000); Fin (7000 # 1000)] [1; 1] 4))
          (res_atom (mkResult [(1, 0); (0, 6)] [Fin (7000 # 1000); Fin (7000 # 1000)] [1; 1] 4))
  ∧ (∀ k p q,
       res_mol (mkResult [(1, 0); (0, 6)] [Fin (7000 # 1000); Fin (7000 # 1000)] [1; 1] 4) !! k = Some p →
       res_mol (mkResult [(1, 0); (0, 6)] [Fin (7000 # 1000); Fin (7000 # 1000)] [1; 1] 4) !! S k = Some q →
       p.2 = q.1)
  ∧ length (res_pka (mkResult [(1, 0); (0, 6)] [Fin (7000 # 1000); Fin (7000 # 1000)] [1; 1] 4))
    = length (res_mol (mkResult [(1, 0); (0, 6)] [Fin (7000 # 1000); Fin (7000 # 1000)] [1; 1] 4)).
Proof.
  apply (search_result_is_a_conjugate_chain rdkit_valence PairData
           (row_callee ring_flag conjugation_flag) (const_predict (Fin 7)) decimal_round
           10 0 [1] [methylamine]
           (mol_query_search rdkit_valence (row_callee ring_flag conjugation_flag)
                (const_predict (Fin 7)) decimal_round 10 0 [1] [methylamine]).1
           methylamine
           (mkResult [(1, 0); (0, 6)] [Fin (7000 # 1000); Fin (7000 # 1000)] [1; 1] 4) eq_refl).
  by vm_compute.
Defined.

(** X22: the pKa list of the result is the acid phase's values followed
    by the base phase's: none of the former is below 0.5, none of the latter
    above 13.5 (a NaN score is neither and is kept), and the queried
    molecule stands between them, as second member of the last acid pair
    and first member of the first base pair. *)
Theorem search_result_thresholds
    (valence_of : Mol → nat → option (nat * nat))
    (encoded : Type) (paired_mol_data : Mol → Mol → nat → exn + encoded)
    (predict : list encoded → exn + list float) (np_round : float → Z → float)
    (fuel mol : nat) (matches : list nat) (h : list Mol) (m : Mol) (res : query_result) :
  h !! mol = Some m →
  (mol_query_search valence_of paired_mol_data predict np_round fuel mol matches h).2
    = inr (Some res) →
  ∃ acid_pkas base_pkas,
    res_pka res = acid_pkas ++ base_pkas ∧
    Forall (λ q, flt q (Fin (1 # 2)) = false) acid_pkas ∧
    Forall (λ q, flt (Fin (27 # 2)) q = false) base_pkas ∧
    (∀ p, res_mol res !! length acid_pkas = Some p → p.1 = mol) ∧
    (∀ k p, S k = length acid_pkas → res_mol res !! k = Some p → p.2 = mol).
Proof.
  intros Hm. unfold mol_query_search.
  pose proof (acid_loop_spec valence_of encoded paired_mol_data predict np_round
                fuel matches [mol] [] [] 0 h mol m eq_refl Hm) as Hacid.
  destruct (acid_loop valence_of paired_mol_data predict np_round fuel matches
              ([mol], [], []) 0 h) as [h1 r1] eqn:Hrun1.
  cbn [fst snd] in Hacid. destruct Hacid as [Hgrow1 Hr1].
  destruct r1 as [e|[[[[mols1 pkas1] atoms1] n1]|]].
  - erewrite bind_inl; [|exact Hrun1]. done.
  - erewrite bind_inr; [|exact Hrun1].
    destruct Hr1 as (newm & newp & newa & -> & -> & -> & Hadd1 & Hge).
    rewrite !app_nil_r.
    destruct Hgrow1 as [_ Hkeep]. destruct (Hkeep _ _ Hm) as [s Hs].
    pose proof (base_loop_spec valence_of encoded paired_mol_data predict np_round
                  fuel matches (newm ++ [mol]) newp newa 0
                  h1 mol (with_sssAtoms s m) (last_snoc _ _) Hs) as Hbase.
    destruct (base_loop valence_of paired_mol_data predict np_round fuel matches _ 0 h1)
      as [h2 r2] eqn:Hrun2.
    cbn [fst snd] in Hbase. destruct Hbase as [_ Hr2].
    destruct r2 as [e|[[[[mols2 pkas2] atoms2] n2]|]].
    + erewrite bind_inl; [|exact Hrun2]. done.
    + erewrite bind_inr; [|exact Hrun2]. cbn [snd ret]. intros [= <-].
      destruct Hr2 as (newm2 & newp2 & newa2 & -> & -> & -> & Hadd2 & Hle).
      destruct Hadd1 as (Hl1 & _). destruct Hadd2 as (Hl2 & _).
      exists newp, newp2. cbn [res_pka res_mol]. split_and!; [done|done|done| |].
      * intros [a b] [Ha _]%mol_tuples_lookup. simpl. rewrite <- Hl1 in Ha.
        rewrite <- app_assoc in Ha. rewrite lookup_app_r in Ha by lia.
        rewrite Nat.sub_diag in Ha. simpl in Ha. congruence.
      * intros k [a b] Hk [_ Hb]%mol_tuples_lookup. simpl. rewrite Hk, <- Hl1 in Hb.
        rewrite <- app_assoc in Hb. rewrite lookup_app_r in Hb by lia.
        rewrite Nat.sub_diag in Hb. simpl in Hb. congruence.
    + erewrite bind_inr; [|exact Hrun2]. done.
  - erewrite bind_inr; [|exact Hrun1]. done.
Qed.

Lemma search_result_thresholds_witness :
  ∃ acid_pkas base_pkas,
    res_pka (mkResult [(1, 0); (0, 6)] [Fin (7000 # 1000); Fin (7000 # 1000)] [1; 1] 4)
      = acid_pkas ++ base_pkas ∧
    Forall (λ q, flt q (Fin (1 # 2)) = false) acid_pkas ∧
    Forall (λ q, flt (Fin (27 # 2)) q = false) base_pkas ∧
    (∀ p, res_mol (mkResult [(1, 0); (0, 6)] [Fin (7000 # 1000); Fin (7000 # 1000)] [1; 1] 4)
            !! length acid_pkas = Some p → p.1 = 0) ∧
    (∀ k p, S k = length acid_pkas →
            res_mol (mkResult [(1, 0); (0, 6)] [Fin (7000 # 1000); Fin (7000 # 1000)] [1; 1] 4) !! k = Some p →
            p.2 = 0).
Proof.
  apply (search_result_thresholds rdkit_valence PairData
           (row_callee ring_flag conjugation_flag) (const_predict (Fin 7)) decimal_round
           10 0 [1] [methylamine] methylamine
           (mkResult [(1, 0); (0, 6)] [Fin (7000 # 1000); Fin (7000 # 1000)] [1; 1] 4) eq_refl).
  by vm_compute.
Defined.

(** ** [train_validation_set_split] *)

Lemma iloc_in_range {A} (df : list A) (ids : list nat) :
  Forall (λ i, i < length df) ids →
  ∃ rows, iloc df ids = inr rows ∧ Forall2 (λ i r, df !! i = Some r) ids rows.
Proof.
  unfold iloc. induction 1 as [|i ids Hi _ (rows & Hrows & Hall)].
  - exists []. split; [done|constructor].
  - destruct (lookup_lt_is_Some_2 df i Hi) as [r Hr].
    exists (r :: rows). simpl. unfold py_get at 1. rewrite Hr, Hrows.
    split; [done|by constructor].
Qed.

Lemma lookup_all_seq {A} (df : list A) :
  Forall2 (λ i r, df !! i = Some r) (seq 0 (length df)) df.
Proof.
  apply Forall2_same_length_lookup_2; [by rewrite length_seq|].
  intros i j r Hj Hr. apply lookup_seq in Hj as [-> _]. done.
Qed.

Lemma Forall2_perm_l {A B} (R : A → B → Prop) (l l' : list A) (k : list B) :
  l ≡ₚ l' → Forall2 R l k → ∃ k', k ≡ₚ k' ∧ Forall2 R l' k'.
Proof.
  intros Hp. revert k. induction Hp as [|x l l' _ IH|x y l|l1 l2 l3 _ IH1 _ IH2]; intros k Hk.
  - inversion Hk. exists []. split; [done|constructor].
  - inversion Hk as [|? a ? k0 Ha Hk0]; subst.
    destruct (IH _ Hk0) as (k' & Hk' & Hall). exists (a :: k'). split; [by constructor|].
    by constructor.
  - inversion Hk as [|? a ? k0 Ha Hk0]; subst.
    inversion Hk0 as [|? b ? k1 Hb Hk1]; subst.
    exists (b :: a :: k1). split; [apply perm_swap|]. by repeat constructor.
  - destruct (IH1 _ Hk) as (k1 & Hk1 & Hall1).
    destruct (IH2 _ Hall1) as (k2 & Hk2 & Hall2).
    exists k2. split; [by etrans|done].
Qed.

Lemma Forall2_lookup_functional {A} (df : list A) (ids : list nat) (k1 k2 : list A) :
  Forall2 (λ i r, df !! i = Some r) ids k1 →
  Forall2 (λ i r, df !! i = Some r) ids k2 → k1 = k2.
Proof.
  intros H1. revert k2. induction H1 as [|i r ids k1 Hr _ IH]; intros k2 H2.
  - by inversion H2.
  - inversion H2 as [|? r' ? k2' Hr' Hk2']; subst. f_equal; [congruence|by apply IH].
Qed.

(** X23: [train_validation_set_split] with a shuffle that rearranges.  For
    a ratio strictly between 0 and 1 it returns two frames that together
    are a rearrangement of the rows of the input, the first as long as the
    slice [ids[:split]] ([split] clipped to the frame); for any other ratio
    the assertion fails. *)
Theorem train_validation_split_partitions {A}
    (seeded_shuffle : Z → list nat → list nat) (round_product : nat → Q → Z)
    (df : list A) (ratio : Q) (seed : Z) :
  (∀ s ids, seeded_shuffle s ids ≡ₚ ids) →
  if decide ((0 < ratio)%Q ∧ (ratio < 1)%Q) then
    ∃ train_df val_df,
      train_validation_set_split seeded_shuffle round_product df ratio seed
        = inr (train_df, val_df) ∧
      train_df ++ val_df ≡ₚ df ∧
      length train_df = slice_bound (length df) (round_product (length df) ratio)
  else
    train_validation_set_split seeded_shuffle round_product df ratio seed
      = inl AssertionError.
Proof.
  intros Hshuffle. unfold train_validation_set_split.
  destruct (decide _) as [[H0 H1]|Hout].
  2:{ destruct (Qlt_bool 0 ratio) eqn:E0; [|done].
      destruct (Qlt_bool ratio 1) eqn:E1; [|done].
      exfalso. apply Hout. split; by apply Qlt_bool_iff. }
  rewrite (proj2 (Qlt_bool_iff _ _) H0), (proj2 (Qlt_bool_iff _ _) H1). cbn [andb].
  set (ids := seeded_shuffle seed (seq 0 (length df))).
  set (split := round_product (length df) ratio).
  assert (Hids : ids ≡ₚ seq 0 (length df)) by apply Hshuffle.
  assert (Hrange : Forall (λ i, i < length df) ids).
  { rewrite Hids. apply list.Forall_forall. intros i Hi%elem_of_seq. lia. }
  assert (Hlen : length ids = length df) by (by rewrite Hids, length_seq).
  unfold slice_to, slice_from. rewrite Hlen.
  set (k := slice_bound (length df) split).
  assert (Hk : k ≤ length df).
  { subst k. unfold slice_bound. destruct (0 <=? split)%Z eqn:E; [lia|].
    apply Z.leb_gt in E. lia. }
  destruct (iloc_in_range df (take k ids)) as (train & Htrain & Ht).
  { by apply Forall_take. }
  destruct (iloc_in_range df (drop k ids)) as (val & Hval & Hv).
  { by apply Forall_drop. }
  exists train, val. rewrite Htrain, Hval. split_and!; [done| |].
  - pose proof (Forall2_app Ht Hv) as Hall. rewrite take_drop in Hall.
    destruct (Forall2_perm_l _ _ _ _ Hids Hall) as (rows & Hperm & Hrows).
    rewrite Hperm. by rewrite (Forall2_lookup_functional _ _ _ _ Hrows (lookup_all_seq df)).
  - apply Forall2_length in Ht. rewrite <- Ht, length_take. lia.
Qed.

Lemma train_validation_split_partitions_witness :
  if decide ((0 < 4 # 5)%Q ∧ (4 # 5 < 1)%Q) then
    ∃ train_df val_df,
      train_validation_set_split (λ _ ids, reverse ids)
        (λ n q, rint (inject_Z (Z.of_nat n) * q)) [10; 20; 30; 40; 50] (4 # 5) 42
        = inr (train_df, val_df) ∧
      train_df ++ val_df ≡ₚ [10; 20; 30; 40; 50] ∧
      length train_df
        = slice_bound (length [10; 20; 30; 40; 50])
            ((λ n q, rint (inject_Z (Z.of_nat n) * q)) (length [10; 20; 30; 40; 50]) (4 # 5))
  else
    train_validation_set_split (λ _ ids, reverse ids)
      (λ n q, rint (inject_Z (Z.of_nat n) * q)) [10; 20; 30; 40; 50] (4 # 5) 42
      = inl AssertionError.
Proof.
  apply (train_validation_split_partitions (λ _ ids, reverse ids)
           (λ n q, rint (inject_Z (Z.of_nat n) * q)) [10; 20; 30; 40; 50] (4 # 5) 42).
  intros _ ids. apply reverse_Permutation.
Defined.

(** ** [generate_morgan_fp_array] *)

Lemma morgan_loop_rows G uf (width : nat) mols : ∀ i rows,
  (∀ mol, length (G mol 3 4096 uf) = width) →
  Forall (λ r, length r = width) rows →
  morgan_loop G mols uf (S i) (Some (Matrix rows))
  = inr (Some (Matrix (rows ++ map (λ mol, G mol 3 4096 uf) mols))).
Proof.
  induction mols as [|mol mols IH]; intros i rows Hw Hrows.
  - simpl. by rewrite app_nil_r.
  - cbn [morgan_loop Nat.eqb np_vstack].
    replace (forallb (λ r, length r =? length (G mol 3 4096 uf)) rows) with true.
    + replace (S i + 1) with (S (S i)) by lia. rewrite IH; [|done|].
      * simpl. by rewrite <- app_assoc.
      * apply list.Forall_app. split; [done|]. by apply Forall_singleton.
    + symmetry. apply forallb_forall. intros r Hr%list_elem_of_In.
      rewrite list.Forall_forall in Hrows. rewrite Hw, (Hrows r Hr). apply Nat.eqb_refl.
Qed.

(** X24: the shape of the result of [generate_morgan_fp_array], for
    fingerprints as long as the bit count asked of RDKit.  An empty column
    leaves [array] unbound and the [return] raises [UnboundLocalError]; a
    single molecule gives its fingerprint as a one-dimensional array; two or
    more give a matrix with one row per molecule, in order.  The
    fingerprints are always those of radius 3 with 4096 bits: the arguments
    [nBits] and [radius] are not used. *)
Theorem morgan_array_shape
    (GetMorganFingerprintAsBitVect : Mol → nat → nat → bool → list Z)
    (column : list Mol) (nBits radius : nat) (useFeatures : bool) :
  (∀ mol r n uf, length (GetMorganFingerprintAsBitVect mol r n uf) = n) →
  generate_morgan_fp_array GetMorganFingerprintAsBitVect column nBits radius useFeatures
  = match column with
    | [] => inl UnboundLocalError
    | [mol] => inr (Vector (GetMorganFingerprintAsBitVect mol 3 4096 useFeatures))
    | _ => inr (Matrix (map (λ mol, GetMorganFingerprintAsBitVect mol 3 4096 useFeatures)
                            column))
    end.
Proof.
  intros Hw. unfold generate_morgan_fp_array.
  destruct column as [|m0 [|m1 rest]]; [done|done|].
  cbn [morgan_loop Nat.eqb Nat.add np_vstack]. rewrite !Hw, Nat.eqb_refl.
  rewrite (morgan_loop_rows _ _ 4096); [done|by intros; apply Hw|].
  repeat constructor; apply Hw.
Qed.

Lemma morgan_array_shape_witness :
  generate_morgan_fp_array (λ _ _ n _, replicate n 0%Z) [ammonia] 1024 2 true
  = inr (Vector (replicate 4096 0%Z)).
Proof.
  apply (morgan_array_shape (λ _ _ n _, replicate n 0%Z) [ammonia] 1024 2 true).
  intros _ _ n _. apply length_replicate.
Defined.

(** ** [get_ionization_indices] and the order of the variants *)

Lemma len_set_same {A} `{EqDecision A} (l k : list A) :
  (∀ x, x ∈ l ↔ x ∈ k) → len_set l = len_set k.
Proof.
  intros Hlk. unfold len_set. apply Permutation_length, NoDup_Permutation.
  - apply NoDup_remove_dups.
  - apply NoDup_remove_dups.
  - intros x. by rewrite !elem_of_remove_dups.
Qed.

Lemma elem_of_map_same {A B} (f : A → B) (l k : list A) :
  (∀ x, x ∈ l ↔ x ∈ k) → ∀ y, y ∈ map f l ↔ y ∈ map f k.
Proof.
  intros Hlk y. rewrite !map_is_fmap, !list_elem_of_fmap.
  split; intros (x & -> & Hx); exists x; (split; [done|]); by apply Hlk.
Qed.

Lemma filter_ext_all {A} (f g : A → bool) (l : list A) :
  (∀ x, f x = g x) → List.filter f l = List.filter g l.
Proof. intros Hfg. induction l as [|x l IH]; [done|]. simpl. by rewrite Hfg, IH. Qed.

(** X25: [get_ionization_indices] depends on which molecules the list
    holds, not on their order or on how often each occurs: two lists with
    the same members give the same result (the same indices or the same
    failure). *)
Theorem ionization_indices_ignore_order (mol_lst mol_lst' : list Mol) :
  (∀ m, m ∈ mol_lst ↔ m ∈ mol_lst') →
  get_ionization_indices mol_lst = get_ionization_indices mol_lst'.
Proof.
  intros Hsame. unfold get_ionization_indices.
  rewrite (len_set_same (map (λ mol, length (atoms mol)) mol_lst)
                        (map (λ mol, length (atoms mol)) mol_lst'))
    by (by apply elem_of_map_same).
  destruct (len_set (map (λ mol, length (atoms mol)) mol_lst') =? 1) eqn:E; [|done].
  apply Nat.eqb_eq, len_set_one in E as [Hne Hall].
  f_equal. rewrite !fold_append_filter. cbn [app].
  assert (Hhd : length (hd [] (map (λ mol, map FormalCharge (atoms mol)) mol_lst))
                = length (hd [] (map (λ mol, map FormalCharge (atoms mol)) mol_lst'))).
  { destruct mol_lst as [|m rest], mol_lst' as [|m' rest']; simpl.
    - done.
    - exfalso. assert (m' ∈ []) as Hin by (apply Hsame; left). by apply elem_of_nil in Hin.
    - exfalso. assert (m ∈ []) as Hin by (apply Hsame; left). by apply elem_of_nil in Hin.
    - rewrite !length_map. apply Hall.
      + rewrite map_is_fmap. apply list_elem_of_fmap. exists m. split; [done|].
        apply Hsame. left.
      + rewrite map_is_fmap. apply list_elem_of_fmap. exists m'. split; [done|]. left. }
  rewrite Hhd. apply filter_ext_all. intros i. f_equal.
  apply len_set_same. intros x. rewrite !elem_of_column.
  split; intros (m & Hm & ->); exists m; (split; [|done]); by apply Hsame.
Qed.

Lemma ionization_indices_ignore_order_witness :
  get_ionization_indices [ammonium; ammonia]
  = get_ionization_indices [ammonia; ammonium; ammonia].
Proof.
  apply (ionization_indices_ignore_order [ammonium; ammonia] [ammonia; ammonium; ammonia]).
  intros m. rewrite !elem_of_cons, !elem_of_nil. tauto.
Defined.

(** ** When [create_conjugate] gives up *)

Ltac reflect_tests :=
  repeat match goal with
         | H : (_ <? _)%Z = true |- _ => apply Z.ltb_lt in H
         | H : (_ <? _)%Z = false |- _ => apply Z.ltb_ge in H
         | H : (_ <=? _)%Z = true |- _ => apply Z.leb_le in H
         | H : (_ <=? _)%Z = false |- _ => apply Z.leb_gt in H
         | H : (_ <=? _) = true |- _ => apply Nat.leb_le in H
         | H : (_ <=? _) = false |- _ => apply Nat.leb_gt in H
         | H : (_ =? _) = true |- _ => apply Nat.eqb_eq in H
         | H : (_ =? _) = false |- _ => apply Nat.eqb_neq in H
         end.

Lemma first_match_invalid a pka pH :
  first_match decision_table a pka pH = InvalidChemistry
  ↔ flt pka pH = false ∧ flt pH pka = false ∧ (FormalCharge a <= 0)%Z.
Proof.
  cbn [decision_table first_match].
  destruct (flt pH pka) eqn:E1, (flt pka pH) eqn:E2,
           (0 <? FormalCharge a)%Z eqn:E3, (1 <=? TotalNumHs a) eqn:E4,
           (TotalNumHs a =? 0) eqn:E5, (FormalCharge a <=? 0)%Z eqn:E6;
    cbn [andb orb]; reflect_tests.
  all: split.
  all: try (intros H; discriminate H).
  all: try (intros (H1 & H2 & H3); discriminate || (exfalso; lia)).
  all: try (intros _; split_and!; [done|done|lia]).
  all: try (intros H; exfalso; lia).
  all: done.
Qed.

(** Neither above nor below: equal, or one of the two is NaN. *)
Lemma flt_neither x y :
  flt x y = false ∧ flt y x = false ↔ feq x y = true ∨ x = NaN ∨ y = NaN.
Proof.
  split.
  - intros [H1 H2]. destruct (nan_or_not x) as [->|Hx]; [tauto|].
    destruct (nan_or_not y) as [->|Hy]; [tauto|].
    destruct (flt_trichotomy x y Hx Hy) as [H|[H|H]]; [congruence|tauto|congruence].
  - intros [H|[->| ->]]; [|by destruct y|by destruct x].
    destruct x as [| |p|], y as [| |q|]; try done. simpl in *.
    apply Qeq_bool_iff in H. split; apply Qlt_bool_false_iff; lra.
Qed.

(** X26: for a molecule in the store and an atom index in range,
    [create_conjugate] raises [RuntimeError] exactly when the atom's formal
    charge is not positive and [pka] is neither above nor below [pH], that
    is, when the two are equal or one of them is NaN; for every other input
    one of the three edits applies.  ([create_conjugate] read with [==] on
    line 28 of [chem.py].) *)
Theorem create_conjugate_rejects_only_ties
    (valence_of : Mol → nat → option (nat * nat))
    (mol id : nat) (pka pH : float) (h : list Mol) (m : Mol) (a : Atom) :
  h !! mol = Some m → atoms m !! id = Some a →
  ((create_conjugate valence_of mol id pka pH h).2 = inl RuntimeError
   ↔ flt pka pH = false ∧ flt pH pka = false ∧ (FormalCharge a <= 0)%Z)
  ∧ (flt pka pH = false ∧ flt pH pka = false ↔ feq pka pH = true ∨ pka = NaN ∨ pH = NaN).
Proof.
  intros Hm Ha. split; [|apply flt_neither].
  rewrite create_conjugate_run, Hm. cbv zeta. rewrite Ha.
  rewrite <- first_match_invalid.
  destruct (first_match decision_table a pka pH); cbn [apply_action].
  - destruct (refresh valence_of _ id); cbn [snd]; split; intros H; discriminate H.
  - destruct (refresh valence_of _ id); cbn [snd]; split; intros H; discriminate H.
  - done.
Qed.

(** Ammonia with a missing pKa (NaN) at the default pH. *)
Lemma create_conjugate_rejects_only_ties_witness :
  ((create_conjugate rdkit_valence 0 0 NaN default_pH [ammonia]).2 = inl RuntimeError
   ↔ flt NaN default_pH = false ∧ flt default_pH NaN = false
     ∧ (FormalCharge (mkAtom 7 0 0 3 0 0 4 false false) <= 0)%Z)
  ∧ (flt NaN default_pH = false ∧ flt default_pH NaN = false
     ↔ feq NaN default_pH = true ∨ NaN = NaN ∨ default_pH = NaN).
Proof.
  apply (create_conjugate_rejects_only_ties rdkit_valence 0 0 NaN default_pH
           [ammonia] ammonia (mkAtom 7 0 0 3 0 0 4 false false)); reflexivity.
Defined.

(** ** The reaction-centre flag *)

Lemma count_center (c : nat) {A} (l : list A) : ∀ k,
  length (filter (λ row, row = [FBool true]) (imap (λ i _, [FBool (k + i =? c)]) l))
  = if decide (k ≤ c < k + length l) then 1 else 0.
Proof.
  induction l as [|x l IH]; intros k.
  - simpl. destruct (decide _) as [H|]; [simpl in H; lia|done].
  - rewrite imap_cons.
    rewrite (imap_ext _ (λ i _, [FBool (S k + i =? c)]))
      by (intros i y _; simpl; by replace (k + S i) with (S (k + i)) by lia).
    rewrite filter_cons. specialize (IH (S k)). rewrite length_cons.
    destruct (k + 0 =? c) eqn:E; [apply Nat.eqb_eq in E|apply Nat.eqb_neq in E].
    + rewrite decide_True by done. rewrite length_cons, IH.
      destruct (decide (S k ≤ c < S k + length l)); [lia|].
      destruct (decide (k ≤ c < k + S (length l))); [done|lia].
    + rewrite decide_False by (by intros [= ?]). rewrite IH.
      destruct (decide (S k ≤ c < S k + length l)), (decide (k ≤ c < k + S (length l)));
        try done; lia.
Qed.

(** X27: with the feature "reaction_center" alone, row [i] of [make_nodes]
    is the flag [i == marvin_atom]; so exactly one row is flagged when
    [marvin_atom] is an atom index of the molecule, and none (without an
    error) when it is not. *)
Theorem reaction_center_marks_one_atom
    (GetSubstructMatches : Mol → string → list (list nat)) (mol : Mol) (marvin_atom : nat) :
  match dict_get (NODE_FEATURES GetSubstructMatches) "reaction_center"%string with
  | inl _ => False
  | inr f =>
      make_nodes mol marvin_atom [("reaction_center"%string, f)]
        = imap (λ i _, [FBool (i =? marvin_atom)]) (atoms mol) ∧
      length (filter (λ row, row = [FBool true])
                     (make_nodes mol marvin_atom [("reaction_center"%string, f)]))
        = if decide (marvin_atom < length (atoms mol)) then 1 else 0
  end.
Proof.
  cbn [NODE_FEATURES dict_get String.eqb Ascii.eqb Bool.eqb].
  unfold make_nodes. cbn [map snd]. split; [done|].
  rewrite (imap_ext _ (λ i _, [FBool (0 + i =? marvin_atom)])) by done.
  rewrite count_center.
  destruct (decide (0 ≤ marvin_atom < 0 + length (atoms mol))),
           (decide (marvin_atom < length (atoms mol))); try done; lia.
Qed.

(** ** Writing the result of a query *)

Lemma merged_loop_run str_float str_int mol items : ∀ st,
  let st' := merged_loop str_float str_int mol items st in
  count st' = count st + length items ∧
  ∃ records, written st' = written st ++ records ∧ length records = length items ∧
             Forall (λ r, r.1 = mol) records.
Proof.
  induction items as [|[ii [pka atom]] rest IH]; intros st.
  - simpl. split; [lia|]. exists []. by rewrite app_nil_r.
  - cbn [merged_loop].
    set (st1 := write mol _).
    destruct (IH st1) as (Hc & records & Hw & Hl & Hall).
    cbv zeta in *. split.
    + rewrite Hc. subst st1. simpl. lia.
    + exists ((mol, props st1 mol) :: records). split_and!.
      * rewrite Hw. subst st1. cbn [written write SetProp count_up]. by rewrite <- app_assoc.
      * simpl. by rewrite Hl.
      * by constructor.
Qed.

Lemma search_without_sites valence_of {encoded}
    (paired_mol_data : Mol → Mol → nat → exn + encoded) predict np_round fuel mol h :
  (mol_query_search valence_of paired_mol_data predict np_round (S fuel) mol [] h).2
    = inr (Some (mkResult [] [] [] 2)).
Proof.
  unfold mol_query_search. cbn [acid_loop].
  unfold acid_turn. cbn [fst snd]. unfold get_possible_reactions. cbn [reaction_loop].
  unfold lift, py_get. cbn [lookup list_lookup].
  unfold mbind, M_bind, bind, ret. cbn [acid_sequence length Nat.ltb Nat.leb fst snd].
  unfold ret. cbn [fst snd length Nat.leb base_loop].
  unfold base_turn, lift, py_last. cbn [list.last fst snd].
  unfold get_possible_reactions, mbind, M_bind, bind, ret. cbn [reaction_loop].
  unfold ret. cbn [base_sequence length Nat.ltb Nat.leb fst snd]. unfold ret.
  cbn [fst snd length Nat.leb mol_tuples]. done.
Qed.

(** X28: [sdf_query] with [merged_output]: when the result holds no pair
    [mols[0]] raises [IndexError] and nothing is written; and the search on
    a molecule without ionisation site gives such a result.  Otherwise, when
    the first molecule has a name, one record is written for each pKa that
    has an atom, every one of them the first molecule of the first pair, and
    [count] grows by their number. *)
Theorem merged_output_needs_a_pka
    (str_float : float → string) (str_int : nat → string)
    (res : query_result) (st : sdf_state) :
  match res_mol res with
  | [] => write_result str_float str_int res true st = (st, inl IndexError)
  | first :: _ =>
      ∀ name, GetProp first.1 "_Name" st = inr name →
        let out := write_result str_float str_int res true st in
        out.2 = inr tt ∧
        count out.1 = count st + length (res_pka res) `min` length (res_atom res) ∧
        ∃ records,
          written out.1 = written st ++ records ∧
          length records = length (res_pka res) `min` length (res_atom res) ∧
          Forall (λ r, r.1 = first.1) records
  end
  ∧ ∀ valence_of encoded (paired_mol_data : Mol → Mol → nat → exn + encoded)
      predict np_round fuel mol h,
      ∃ res0, (mol_query_search valence_of paired_mol_data predict np_round
                 (S fuel) mol [] h).2 = inr (Some res0) ∧
              write_result str_float str_int res0 true st = (st, inl IndexError).
Proof.
  split.
  - unfold write_result. destruct (res_mol res) as [|first rest]; [done|].
    intros name Hname. unfold py_get. cbn [lookup list_lookup].
    rewrite Hname. cbn [fst snd].
    pose proof (merged_loop_run str_float str_int first.1
                  (enumerate (zip (res_pka res) (res_atom res)))
                  (SetProp first.1 "ID" name st)) as Hrun.
    cbv zeta in Hrun. unfold enumerate in *. rewrite length_imap, length_zip in Hrun.
    destruct Hrun as (Hc & records & Hw & Hl & Hall).
    split_and!; [done|done|]. by exists records.
  - intros valence_of encoded paired_mol_data predict np_round fuel mol h. eexists. split.
    + apply search_without_sites.
    + done.
Qed.

Lemma GetProp_SetProp_ne mol mol' key key' value st :
  key ≠ key' → GetProp mol' key' (SetProp mol key value st) = GetProp mol' key' st.
Proof.
  intros Hne. unfold GetProp, SetProp. cbn [props].
  destruct (mol' =? mol); [|done]. rewrite dict_get_set. by destruct (decide (key = key')).
Qed.

Lemma GetProp_SetProp_eq mol key value st :
  GetProp mol key (SetProp mol key value st) = inr value.
Proof.
  unfold GetProp, SetProp. cbn [props]. rewrite Nat.eqb_refl, dict_get_set.
  by destruct (decide (key = key)).
Qed.

Lemma records_loop_run str_float str_int (l : list (nat * nat * float * nat)) : ∀ k0 st,
  (∀ mol pka atom, (mol, pka, atom) ∈ l → ∃ name, GetProp mol.1 "_Name" st = inr name) →
  let out := records_loop str_float str_int (imap (λ i, pair (k0 + i)) l) st in
  out.2 = inr tt ∧
  count out.1 = count st + length l ∧
  (∀ mol, GetProp mol "_Name" out.1 = GetProp mol "_Name" st) ∧
  ∃ records,
    written out.1 = written st ++ records ∧ length records = length l ∧
    ∀ k mol pka atom name,
      l !! k = Some (mol, pka, atom) → GetProp mol.1 "_Name" st = inr name →
      ∃ ps, records !! k = Some (mol.1, ps) ∧
            dict_get ps "ID" = inr (name ++ "_" ++ str_int (k0 + k))%string ∧
            dict_get ps "pka" = inr (str_float pka) ∧
            dict_get ps "atom_idx" = inr (str_int atom) ∧
            dict_get ps "pka-number" = inr (str_int (k0 + k)).
Proof.
  induction l as [|[[mol pka] atom] l IH]; intros k0 st Hnames.
  - simpl. split_and!; [done|lia|done|]. exists []. rewrite app_nil_r. by split_and!.
  - rewrite imap_cons. cbn [records_loop].
    rewrite (imap_ext _ (λ i, pair (S k0 + i))) by (intros; simpl; f_equal; lia).
    destruct (Hnames mol pka atom) as [name Hname]; [left|].
    assert (Hname1 : GetProp mol.1 "_Name" (count_up st) = inr name) by done.
    rewrite Hname1. replace (k0 + 0) with k0 by lia.
    set (st1 := write mol.1 _).
    assert (Hkeep : ∀ mol', GetProp mol' "_Name" st1 = GetProp mol' "_Name" st).
    { intros mol'. subst st1. unfold write, GetProp. cbn [props].
      change (GetProp mol' "_Name"
                (SetProp mol.1 "pka-number" (str_int k0)
                   (SetProp mol.1 "atom_idx" (str_int atom)
                      (SetProp mol.1 "pka" (str_float pka)
                         (SetProp mol.1 "ID" (name ++ "_" ++ str_int k0)%string
                            (count_up st)))))
              = GetProp mol' "_Name" st).
      by do 4 (rewrite GetProp_SetProp_ne by done). }
    destruct (IH (S k0) st1) as (Hok & Hc & Hnm & records & Hw & Hl & Hrec).
    { intros mol' pka' atom' Hin. rewrite Hkeep. eapply Hnames. by right. }
    cbv zeta in *. split_and!.
    + done.
    + rewrite Hc. subst st1. simpl. lia.
    + intros mol'. by rewrite Hnm, Hkeep.
    + exists ((mol.1, props st1 mol.1) :: records). split_and!.
      * rewrite Hw. subst st1. cbn [written write SetProp count_up]. by rewrite <- app_assoc.
      * simpl. by rewrite Hl.
      * intros [|k] mol' pka' atom' name' Hk Hname'; simpl in Hk.
        -- injection Hk as <- <- <-. rewrite Hname in Hname'. injection Hname' as <-.
           exists (props st1 mol.1). replace (k0 + 0) with k0 by lia.
           split; [done|]. subst st1. cbn [props write].
           change (GetProp mol.1 "ID"
                     (SetProp mol.1 "pka-number" (str_int k0)
                        (SetProp mol.1 "atom_idx" (str_int atom)
                           (SetProp mol.1 "pka" (str_float pka)
                              (SetProp mol.1 "ID" (name ++ "_" ++ str_int k0)%string
                                 (count_up st)))))
                   = inr (name ++ "_" ++ str_int k0)%string
                   ∧ GetProp mol.1 "pka"
                     (SetProp mol.1 "pka-number" (str_int k0)
                        (SetProp mol.1 "atom_idx" (str_int atom)
                           (SetProp mol.1 "pka" (str_float pka)
                              (SetProp mol.1 "ID" (name ++ "_" ++ str_int k0)%string
                                 (count_up st)))))
                   = inr (str_float pka)
                   ∧ GetProp mol.1 "atom_idx"
                     (SetProp mol.1 "pka-number" (str_int k0)
                        (SetProp mol.1 "atom_idx" (str_int atom)
                           (SetProp mol.1 "pka" (str_float pka)
                              (SetProp mol.1 "ID" (name ++ "_" ++ str_int k0)%string
                                 (count_up st)))))
                   = inr (str_int atom)
                   ∧ GetProp mol.1 "pka-number"
                     (SetProp mol.1 "pka-number" (str_int k0)
                        (SetProp mol.1 "atom_idx" (str_int atom)
                           (SetProp mol.1 "pka" (str_float pka)
                              (SetProp mol.1 "ID" (name ++ "_" ++ str_int k0)%string
                                 (count_up st)))))
                   = inr (str_int k0)).
           split_and!.
           ++ do 3 (rewrite GetProp_SetProp_ne by done). by rewrite GetProp_SetProp_eq.
           ++ do 2 (rewrite GetProp_SetProp_ne by done). by rewrite GetProp_SetProp_eq.
           ++ rewrite GetProp_SetProp_ne by done. by rewrite GetProp_SetProp_eq.
           ++ by rewrite GetProp_SetProp_eq.
        -- destruct (Hrec k mol' pka' atom' name' Hk) as (ps & Hps & H1 & H2 & H3 & H4).
           { by rewrite Hkeep. }
           exists ps. replace (k0 + S k) with (S k0 + k) by lia. done.
Qed.

(** X29: [sdf_query] without [merged_output], on a result whose three
    lists have the same length and whose molecules have a name: record [k]
    is the first molecule of pair [k] with "ID" its name, an underscore and
    [k], "pka" the pKa [k], "atom_idx" the atom [k] and "pka-number" [k];
    there is one record for each pKa, and [count] grows by their number. *)
Theorem records_follow_the_pkas
    (str_float : float → string) (str_int : nat → string)
    (res : query_result) (st : sdf_state) :
  length (res_pka res) = length (res_mol res) →
  length (res_atom res) = length (res_mol res) →
  (∀ p, p ∈ res_mol res → ∃ name, GetProp p.1 "_Name" st = inr name) →
  let out := write_result str_float str_int res false st in
  out.2 = inr tt ∧
  count out.1 = count st + length (res_pka res) ∧
  ∃ records,
    written out.1 = written st ++ records ∧
    length records = length (res_pka res) ∧
    ∀ k p pka atom name,
      res_mol res !! k = Some p → res_pka res !! k = Some pka →
      res_atom res !! k = Some atom → GetProp p.1 "_Name" st = inr name →
      ∃ ps, records !! k = Some (p.1, ps) ∧
            dict_get ps "ID" = inr (name ++ "_" ++ str_int k)%string ∧
            dict_get ps "pka" = inr (str_float pka) ∧
            dict_get ps "atom_idx" = inr (str_int atom) ∧
            dict_get ps "pka-number" = inr (str_int k).
Proof.
  intros Hlp Hla Hnames. unfold write_result. cbn [negb]. unfold enumerate.
  rewrite (imap_ext _ (λ i, pair (0 + i))) by done.
  set (l := zip (zip (res_mol res) (res_pka res)) (res_atom res)).
  assert (Hl : length l = length (res_pka res)).
  { subst l. rewrite !length_zip. lia. }
  assert (Hlk : ∀ k p pka atom, l !! k = Some (p, pka, atom) ↔
            res_mol res !! k = Some p ∧ res_pka res !! k = Some pka ∧
            res_atom res !! k = Some atom).
  { intros k p pka atom. subst l. rewrite !lookup_zip_with.
    destruct (res_mol res !! k) as [p'|], (res_pka res !! k) as [pka'|],
      (res_atom res !! k) as [atom'|]; simpl;
      (split; [intros ? | intros (? & ? & ?)]; by simplify_eq). }
  destruct (records_loop_run str_float str_int l 0 st) as (Hok & Hc & _ & records & Hw & Hlen & Hrec).
  { intros mol pka atom Hin. apply list_elem_of_lookup_1 in Hin as [k Hk].
    apply Hlk in Hk as (Hk & _). apply Hnames. by eapply list_elem_of_lookup_2. }
  cbv zeta in *. split_and!; [done|by rewrite Hc, Hl|].
  exists records. split_and!; [done|by rewrite Hlen|].
  intros k p pka atom name Hp Hpka Hatom Hname.
  destruct (Hrec k p pka atom name) as (ps & Hps & H1234); [by apply Hlk|done|].
  by exists ps.
Qed.

Lemma records_follow_the_pkas_witness :
  (write_result (λ _, "7.0"%string) (λ _, "0"%string)
     (mkResult [(1, 0); (0, 6)] [Fin (7000 # 1000); Fin (7000 # 1000)] [1; 1] 4) false
     (mkSdfState (λ _, [("_Name", "mol")%string]) [] 0)).2 = inr tt
  ∧ count (write_result (λ _, "7.0"%string) (λ _, "0"%string)
             (mkResult [(1, 0); (0, 6)] [Fin (7000 # 1000); Fin (7000 # 1000)] [1; 1] 4) false
             (mkSdfState (λ _, [("_Name", "mol")%string]) [] 0)).1
    = count (mkSdfState (λ _, [("_Name", "mol")%string]) [] 0)
      + length (res_pka (mkResult [(1, 0); (0, 6)] [Fin (7000 # 1000); Fin (7000 # 1000)] [1; 1] 4))
  ∧ ∃ records,
      written (write_result (λ _, "7.0"%string) (λ _, "0"%string)
                 (mkResult [(1, 0); (0, 6)] [Fin (7000 # 1000); Fin (7000 # 1000)] [1; 1] 4) false
                 (mkSdfState (λ _, [("_Name", "mol")%string]) [] 0)).1
        = written (mkSdfState (λ _, [("_Name", "mol")%string]) [] 0) ++ records ∧
      length records
        = length (res_pka (mkResult [(1, 0); (0, 6)] [Fin (7000 # 1000); Fin (7000 # 1000)] [1; 1] 4)) ∧
      ∀ k p pka atom name,
        res_mol (mkResult [(1, 0); (0, 6)] [Fin (7000 # 1000); Fin (7000 # 1000)] [1; 1] 4) !! k = Some p →
        res_pka (mkResult [(1, 0); (0, 6)] [Fin (7000 # 1000); Fin (7000 # 1000)] [1; 1] 4) !! k = Some pka →
        res_atom (mkResult [(1, 0); (0, 6)] [Fin (7000 # 1000); Fin (7000 # 1000)] [1; 1] 4) !! k = Some atom →
        GetProp p.1 "_Name" (mkSdfState (λ _, [("_Name", "mol")%string]) [] 0) = inr name →
        ∃ ps, records !! k = Some (p.1, ps) ∧
              dict_get ps "ID" = inr (name ++ "_" ++ (λ _ : nat, "0"%string) k)%string ∧
              dict_get ps "pka" = inr ((λ _ : float, "7.0"%string) pka) ∧
              dict_get ps "atom_idx" = inr ((λ _ : nat, "0"%string) atom) ∧
              dict_get ps "pka-number" = inr ((λ _ : nat, "0"%string) k).
Proof.
  apply (records_follow_the_pkas (λ _, "7.0"%string) (λ _, "0"%string)
           (mkResult [(1, 0); (0, 6)] [Fin (7000 # 1000); Fin (7000 # 1000)] [1; 1] 4)
           (mkSdfState (λ _, [("_Name", "mol")%string]) [] 0) eq_refl eq_refl).
  intros p _. by exists "mol"%string.
Defined.

(** ** Scoring with the three-parameter encoder *)

(** X30: with the [mol_to_paired_mol_data] that [data.py] defines (three
    parameters) behind the five-argument call of [match_pka], scoring
    cannot succeed: for a pair list that is not empty and whose molecules
    are in the store, [match_pka] raises [TypeError] at the first pair,
    whatever the regressor, and so do [acid_sequence] and [base_sequence];
    the store is left as it was. *)
Theorem scoring_needs_the_five_parameter_encoder
    (predict : list PairData → exn + list float) (np_round : float → Z → float)
    (pair_tuples : list (nat * nat * nat)) (mols : list nat) (pkas : list float)
    (atoms : list nat) (h : list Mol) :
  pair_tuples ≠ [] →
  Forall (λ p, is_Some (h !! p.1.1) ∧ is_Some (h !! p.1.2)) pair_tuples →
  match_pka three_parameter_callee predict np_round pair_tuples h = (h, inl TypeError) ∧
  acid_sequence three_parameter_callee predict np_round pair_tuples (mols, pkas, atoms) h
    = (h, inl TypeError) ∧
  base_sequence three_parameter_callee predict np_round pair_tuples (mols, pkas, atoms) h
    = (h, inl TypeError).
Proof.
  intros Hne Hrefs.
  destruct pair_tuples as [|[[prot deprot] atom_idx] rest]; [done|].
  apply list.Forall_cons in Hrefs as [[[P HP] [D HD]] _]. cbn [fst snd] in HP, HD.
  assert (Hscore : match_pka three_parameter_callee predict np_round
                     ((prot, deprot, atom_idx) :: rest) h = (h, inl TypeError)).
  { unfold match_pka. cbn [pair_data_loop]. unfold mbind, M_bind, bind, deref, lift.
    by rewrite HP, HD. }
  split_and!; [done| |].
  - rewrite acid_sequence_run. cbn [length Nat.ltb Nat.leb]. by rewrite Hscore.
  - rewrite base_sequence_run. cbn [length Nat.ltb Nat.leb]. by rewrite Hscore.
Qed.

(** The two base pairs of hydrazine. *)
Lemma scoring_needs_the_five_parameter_encoder_witness :
  match_pka three_parameter_callee (const_predict (Fin 7)) decimal_round
    [(0, 2, 0); (0, 4, 1)] (get_possible_reactions rdkit_valence 0 [0; 1] [hydrazine]).1
    = ((get_possible_reactions rdkit_valence 0 [0; 1] [hydrazine]).1, inl TypeError) ∧
  acid_sequence three_parameter_callee (const_predict (Fin 7)) decimal_round
    [(0, 2, 0); (0, 4, 1)] ([0], [], [])
    (get_possible_reactions rdkit_valence 0 [0; 1] [hydrazine]).1
    = ((get_possible_reactions rdkit_valence 0 [0; 1] [hydrazine]).1, inl TypeError) ∧
  base_sequence three_parameter_callee (const_predict (Fin 7)) decimal_round
    [(0, 2, 0); (0, 4, 1)] ([0], [], [])
    (get_possible_reactions rdkit_valence 0 [0; 1] [hydrazine]).1
    = ((get_possible_reactions rdkit_valence 0 [0; 1] [hydrazine]).1, inl TypeError).
Proof.
  apply (scoring_needs_the_five_parameter_encoder (const_predict (Fin 7)) decimal_round
           [(0, 2, 0); (0, 4, 1)] [0] [] []
           (get_possible_reactions rdkit_valence 0 [0; 1] [hydrazine]).1).
  - done.
  - constructor; [split; by eexists|]. constructor; [split; by eexists|]. constructor.
Defined.
